(** * Electromagnetic calculation of a line-start PMSM: a shallow embedding

    This development embeds the calculation engine of [PMSM_Calculator.py]
    (classes [MotorParameters], [SteelDataTables], [SlotLeakageCalculator]
    and [MotorCalculationEngine]) and proves properties of it.

    Conventions of the embedding.
    - A Python [float] is a real number of [R]: rounding, overflow,
      infinities and NaN of binary64 are outside the model, and so are the
      exceptions that only arithmetic raises.  In particular a division by
      zero, which raises [ZeroDivisionError] between Python floats and
      gives an infinity or a NaN between numpy floats, is a quotient of
      [R] here (where [x / 0] is [0]).  A statement that depends on a
      quotient, or on a call returning where the code divides, therefore
      carries the hypothesis that the divisor is not zero or that the
      quantities are positive, or is made for the case that the call
      returns.  A Python [int] is a [Z], injected into [R] where the code
      mixes it with floats.
    - The engine object is one record: the parameter record, the attributes
      each stage assigns (absent until the stage has run), the [results]
      dictionary and the console output.  A method is a function from the
      engine to the engine after the call together with either the exception
      raised or the value returned; what a method assigned before raising
      stays assigned, as in Python.
    - Exceptions of the model: [KeyError] from a dictionary subscript and
      [AttributeError] from reading an attribute no stage has assigned yet. *)

From Stdlib Require Import Reals Lra Lia Psatz List ZArith String Ascii Bool.
From Stdlib Require Import Machin DecimalString.
Import ListNotations.

Local Open Scope R_scope.

Coercion IZR : Z >-> R.

(** ** The parameter record ([MotorParameters], parameters.py) *)

Module MP.

Record MotorParameters : Type := mk {
  (* ratings *)
  PN : R; UN : R; m : Z; f : R; p : Z; cosfi : R; eff : R;
  Tpo : R; Ist : R; Tst : R;
  (* bore geometry *)
  D1 : R; Di1 : R; La : R; g : R; g12 : R; Q1 : Z; Q2 : Z; Di2 : R;
  (* stator slot *)
  b01 : R; h01 : R; b1 : R; ALFA1 : R; R1 : R; h12 : R; sks : string;
  (* rotor slot *)
  Lv : Z; b02 : R; h02 : R; br1 : R; br2 : R; hr12 : R; ALFA2 : R; AR : R;
  (* selectors *)
  CX : Z; steel_type : Z;
  (* winding *)
  LE : Z; a : Z; Ns : Z; Nt1 : Z; d11 : R; Nt2 : Z; d12 : R; d : R; y : Z;
  wgco : string;
  (* magnet *)
  Lev : Z; magnet : Z; Br0 : R; Hc0 : R; hM : R; bM : R; LM : R;
  ROUm : R; SIGMA0 : R;
  (* operating point and loss coefficients *)
  t : R; pfwl : R; psl : R; Kq : R
}.

(** The defaults of the dataclass: the reference 15 kW design. *)
Definition default : MotorParameters := {|
  PN := 15.0; UN := 380.0; m := 3; f := 50.0; p := 2; cosfi := 0.95;
  eff := 0.935; Tpo := 1.8; Ist := 9.0; Tst := 2.0;
  D1 := 260.0; Di1 := 170.0; La := 190.0; g := 0.65; g12 := 0.15;
  Q1 := 36; Q2 := 32; Di2 := 60.0;
  b01 := 3.8; h01 := 0.8; b1 := 7.7; ALFA1 := 30.0; R1 := 5.1; h12 := 15.2;
  sks := "Y";
  Lv := 1; b02 := 2.0; h02 := 0.8; br1 := 6.4; br2 := 5.5; hr12 := 15.0;
  ALFA2 := 30.0; AR := 180.0;
  CX := 1; steel_type := 5;
  LE := 2; a := 1; Ns := 13; Nt1 := 2; d11 := 1.20; Nt2 := 3; d12 := 1.25;
  d := 15.0; y := 9; wgco := "Y";
  Lev := 1; magnet := 1; Br0 := 1.15; Hc0 := 875.0; hM := 5.3; bM := 110.0;
  LM := 190.0; ROUm := 7400.0; SIGMA0 := 1.28;
  t := 75.0; pfwl := 0.0107; psl := 0.015; Kq := 0.36
|}.

(** [dataclasses.replace(q, steel_type=k)]. *)
Definition with_steel_type (q : MotorParameters) (k : Z) : MotorParameters := {|
  PN := PN q; UN := UN q; m := m q; f := f q; p := p q; cosfi := cosfi q;
  eff := eff q; Tpo := Tpo q; Ist := Ist q; Tst := Tst q; D1 := D1 q;
  Di1 := Di1 q; La := La q; g := g q; g12 := g12 q; Q1 := Q1 q; Q2 := Q2 q;
  Di2 := Di2 q; b01 := b01 q; h01 := h01 q; b1 := b1 q; ALFA1 := ALFA1 q;
  R1 := R1 q; h12 := h12 q; sks := sks q; Lv := Lv q; b02 := b02 q;
  h02 := h02 q; br1 := br1 q; br2 := br2 q; hr12 := hr12 q;
  ALFA2 := ALFA2 q; AR := AR q; CX := CX q; steel_type := k; LE := LE q;
  a := a q; Ns := Ns q; Nt1 := Nt1 q; d11 := d11 q; Nt2 := Nt2 q;
  d12 := d12 q; d := d q; y := y q; wgco := wgco q; Lev := Lev q;
  magnet := magnet q; Br0 := Br0 q; Hc0 := Hc0 q; hM := hM q; bM := bM q;
  LM := LM q; ROUm := ROUm q; SIGMA0 := SIGMA0 q; t := t q; pfwl := pfwl q;
  psl := psl q; Kq := Kq q
|}.

(** [dataclasses.replace(q, UN=U, wgco=w)]. *)
Definition with_connection (q : MotorParameters) (U : R) (w : string) : MotorParameters := {|
  PN := PN q; UN := U; m := m q; f := f q; p := p q; cosfi := cosfi q;
  eff := eff q; Tpo := Tpo q; Ist := Ist q; Tst := Tst q; D1 := D1 q;
  Di1 := Di1 q; La := La q; g := g q; g12 := g12 q; Q1 := Q1 q; Q2 := Q2 q;
  Di2 := Di2 q; b01 := b01 q; h01 := h01 q; b1 := b1 q; ALFA1 := ALFA1 q;
  R1 := R1 q; h12 := h12 q; sks := sks q; Lv := Lv q; b02 := b02 q;
  h02 := h02 q; br1 := br1 q; br2 := br2 q; hr12 := hr12 q;
  ALFA2 := ALFA2 q; AR := AR q; CX := CX q; steel_type := steel_type q;
  LE := LE q; a := a q; Ns := Ns q; Nt1 := Nt1 q; d11 := d11 q;
  Nt2 := Nt2 q; d12 := d12 q; d := d q; y := y q; wgco := w; Lev := Lev q;
  magnet := magnet q; Br0 := Br0 q; Hc0 := Hc0 q; hM := hM q; bM := bM q;
  LM := LM q; ROUm := ROUm q; SIGMA0 := SIGMA0 q; t := t q; pfwl := pfwl q;
  psl := psl q; Kq := Kq q
|}.

(** [dataclasses.replace(q, CX=k)]. *)
Definition with_slot (q : MotorParameters) (k : Z) : MotorParameters := {|
  PN := PN q; UN := UN q; m := m q; f := f q; p := p q; cosfi := cosfi q;
  eff := eff q; Tpo := Tpo q; Ist := Ist q; Tst := Tst q; D1 := D1 q;
  Di1 := Di1 q; La := La q; g := g q; g12 := g12 q; Q1 := Q1 q; Q2 := Q2 q;
  Di2 := Di2 q; b01 := b01 q; h01 := h01 q; b1 := b1 q; ALFA1 := ALFA1 q;
  R1 := R1 q; h12 := h12 q; sks := sks q; Lv := Lv q; b02 := b02 q;
  h02 := h02 q; br1 := br1 q; br2 := br2 q; hr12 := hr12 q;
  ALFA2 := ALFA2 q; AR := AR q; CX := k; steel_type := steel_type q;
  LE := LE q; a := a q; Ns := Ns q; Nt1 := Nt1 q; d11 := d11 q;
  Nt2 := Nt2 q; d12 := d12 q; d := d q; y := y q; wgco := wgco q;
  Lev := Lev q; magnet := magnet q; Br0 := Br0 q; Hc0 := Hc0 q; hM := hM q;
  bM := bM q; LM := LM q; ROUm := ROUm q; SIGMA0 := SIGMA0 q; t := t q;
  pfwl := pfwl q; psl := psl q; Kq := Kq q
|}.

(** [dataclasses.replace(q, magnet=k)]. *)
Definition with_magnet (q : MotorParameters) (k : Z) : MotorParameters := {|
  PN := PN q; UN := UN q; m := m q; f := f q; p := p q; cosfi := cosfi q;
  eff := eff q; Tpo := Tpo q; Ist := Ist q; Tst := Tst q; D1 := D1 q;
  Di1 := Di1 q; La := La q; g := g q; g12 := g12 q; Q1 := Q1 q; Q2 := Q2 q;
  Di2 := Di2 q; b01 := b01 q; h01 := h01 q; b1 := b1 q; ALFA1 := ALFA1 q;
  R1 := R1 q; h12 := h12 q; sks := sks q; Lv := Lv q; b02 := b02 q;
  h02 := h02 q; br1 := br1 q; br2 := br2 q; hr12 := hr12 q;
  ALFA2 := ALFA2 q; AR := AR q; CX := CX q; steel_type := steel_type q;
  LE := LE q; a := a q; Ns := Ns q; Nt1 := Nt1 q; d11 := d11 q;
  Nt2 := Nt2 q; d12 := d12 q; d := d q; y := y q; wgco := wgco q;
  Lev := Lev q; magnet := k; Br0 := Br0 q; Hc0 := Hc0 q; hM := hM q;
  bM := bM q; LM := LM q; ROUm := ROUm q; SIGMA0 := SIGMA0 q; t := t q;
  pfwl := pfwl q; psl := psl q; Kq := Kq q
|}.

End MP.

Abbreviation MotorParameters := MP.MotorParameters.

(** [str.upper()] on the ASCII range; bytes outside it are left alone, so
    that [upper s] is ["Y"] exactly for ["Y"] and ["y"]. *)
Definition upper_ascii (c : ascii) : ascii :=
  let n := nat_of_ascii c in
  if (97 <=? n)%nat && (n <=? 122)%nat then ascii_of_nat (n - 32) else c.

Fixpoint upper (s : string) : string :=
  match s with
  | EmptyString => EmptyString
  | String c s' => String (upper_ascii c) (upper s')
  end.

(** ** Exceptions *)

Inductive exn : Type :=
| KeyError (key : Z)
| AttributeError (name : string).

(** ** Steel tables ([SteelDataTables]) *)

Module SteelDataTables.

Definition B_data : list R :=
  [ 0.40; 0.45; 0.50; 0.55; 0.60; 0.65; 0.70; 0.75; 0.80; 0.85;
    0.90; 0.95; 1.00; 1.05; 1.10; 1.15; 1.20; 1.25; 1.30; 1.35;
    1.40; 1.45; 1.50; 1.55; 1.60; 1.65; 1.70; 1.75; 1.80; 1.85;
    1.90; 1.95; 2.00; 2.05; 2.10; 2.15; 2.20 ].

Definition H_DR510_50 : list R :=
  [ 75; 88; 102; 118; 135; 155; 178; 205; 236; 272;
    314; 363; 420; 486; 563; 653; 758; 880; 1023; 1190;
    1385; 1614; 1882; 2196; 2564; 2995; 3500; 4092; 4785; 5595;
    6540; 7642; 8925; 10420; 12160; 14180; 16530 ].

Definition H_DR420_50 : list R :=
  [ 70; 82; 95; 110; 127; 146; 168; 193; 222; 255;
    293; 337; 388; 447; 516; 596; 689; 798; 925; 1073;
    1246; 1447; 1682; 1955; 2272; 2639; 3065; 3559; 4132; 4796;
    5565; 6453; 7477; 8658; 10020; 11590; 13400 ].

Definition H_DR490_50 : list R :=
  [ 78; 92; 107; 124; 143; 164; 188; 216; 247; 283;
    324; 371; 425; 488; 561; 646; 745; 860; 994; 1150;
    1331; 1540; 1782; 2062; 2386; 2760; 3193; 3693; 4272; 4942;
    5718; 6616; 7655; 8856; 10245; 11850; 13700 ].

Definition H_DR550_50 : list R :=
  [ 85; 100; 117; 136; 157; 181; 208; 239; 274; 314;
    360; 413; 474; 544; 625; 719; 828; 954; 1100; 1268;
    1462; 1686; 1945; 2244; 2590; 2989; 3450; 3982; 4596; 5305;
    6123; 7068; 8160; 9424; 10885; 12575; 14530 ].

Definition H_DW315_50 : list R :=
  [ 80; 95; 110; 125; 140; 160; 180; 200; 225; 250;
    280; 315; 355; 400; 450; 510; 580; 660; 750; 850;
    970; 1100; 1250; 1420; 1620; 1840; 2100; 2400; 2750; 3150;
    3600; 4100; 4700; 5400; 6200; 7100; 8100 ].

Definition P_DR510_50 : list R :=
  [ 0.4; 0.6; 0.8; 1.0; 1.3; 1.6; 2.0; 2.5; 3.1; 3.8;
    4.6; 5.5; 6.6; 7.9; 9.4; 11.2; 13.3; 15.7; 18.5; 21.7;
    25.4; 29.6; 34.4; 39.9; 46.2; 53.3; 61.4; 70.5; 80.8; 92.4;
    105.5; 120.2; 136.8; 155.5; 176.5; 200.2; 226.8 ].

Definition P_DR420_50 : list R :=
  [ 0.3; 0.5; 0.7; 0.9; 1.2; 1.5; 1.9; 2.4; 2.9; 3.6;
    4.3; 5.2; 6.2; 7.4; 8.8; 10.4; 12.3; 14.5; 17.0; 19.9;
    23.2; 27.0; 31.3; 36.2; 41.8; 48.2; 55.4; 63.6; 72.8; 83.2;
    94.9; 108.1; 122.9; 139.5; 158.2; 179.2; 202.8 ].

Definition P_DR490_50 : list R :=
  [ 0.45; 0.65; 0.85; 1.1; 1.4; 1.7; 2.1; 2.6; 3.2; 3.9;
    4.7; 5.6; 6.7; 8.0; 9.5; 11.3; 13.4; 15.8; 18.6; 21.8;
    25.5; 29.7; 34.5; 40.0; 46.3; 53.4; 61.5; 70.7; 81.1; 92.8;
    106.0; 120.8; 137.4; 156.0; 176.8; 200.1; 226.2 ].

Definition P_DR550_50 : list R :=
  [ 0.5; 0.7; 0.9; 1.2; 1.5; 1.9; 2.3; 2.8; 3.4; 4.1;
    4.9; 5.8; 6.9; 8.2; 9.7; 11.5; 13.6; 16.0; 18.8; 22.0;
    25.7; 29.9; 34.7; 40.2; 46.5; 53.7; 61.9; 71.2; 81.7; 93.6;
    107.0; 122.1; 139.0; 158.0; 179.3; 203.2; 230.0 ].

Definition P_DW315_50 : list R :=
  [ 0.5; 0.7; 0.9; 1.2; 1.5; 1.9; 2.4; 3.0; 3.7; 4.5;
    5.4; 6.5; 7.8; 9.3; 11.0; 12.9; 15.1; 17.6; 20.4; 23.6;
    27.2; 31.2; 35.7; 40.7; 46.2; 52.3; 59.0; 66.3; 74.3; 83.0;
    92.5; 102.8; 114.0; 126.1; 139.2; 153.3; 168.5 ].

(** The dictionaries [H_data] and [P_data]: keys 1 to 5. *)
Definition H_data (steel_type : Z) : option (list R) :=
  match steel_type with
  | 1%Z => Some H_DR510_50
  | 2%Z => Some H_DR420_50
  | 3%Z => Some H_DR490_50
  | 4%Z => Some H_DR550_50
  | 5%Z => Some H_DW315_50
  | _ => None
  end.

Definition P_data (steel_type : Z) : option (list R) :=
  match steel_type with
  | 1%Z => Some P_DR510_50
  | 2%Z => Some P_DR420_50
  | 3%Z => Some P_DR490_50
  | 4%Z => Some P_DR550_50
  | 5%Z => Some P_DW315_50
  | _ => None
  end.

Definition steel_names (steel_type : Z) : option string :=
  match steel_type with
  | 1%Z => Some "DR510-50"%string
  | 2%Z => Some "DR420-50"%string
  | 3%Z => Some "DR490-50"%string
  | 4%Z => Some "DR550-50"%string
  | 5%Z => Some "DW315-50"%string
  | _ => None
  end.

(** [numpy.interp x xp fp] for increasing [xp]: the value of the polygon
    through the points, and the end values outside the grid. *)
Fixpoint np_interp (x : R) (xp fp : list R) {struct xp} : R :=
  match xp, fp with
  | x0 :: ((x1 :: _) as xp'), y0 :: ((y1 :: _) as fp') =>
      if Rlt_dec x x1 then
        if Rle_dec x x0 then y0
        else (y1 - y0) / (x1 - x0) * (x - x0) + y0
      else np_interp x xp' fp'
  | _, y0 :: _ => y0
  | _, [] => 0
  end.

Definition linear_interpolation (x_data y_data : list R) (x : R) : R :=
  if Rle_dec x (hd 0 x_data) then hd 0 y_data
  else if Rge_dec x (last x_data 0) then last y_data 0
  else np_interp x x_data y_data.

Definition get_BH_curve (B : R) (steel_type : Z) : exn + R :=
  match H_data steel_type with
  | Some H => inr (linear_interpolation B_data H B)
  | None => inl (KeyError steel_type)
  end.

Definition get_iron_loss (B : R) (steel_type : Z) : exn + R :=
  match P_data steel_type with
  | Some P => inr (linear_interpolation B_data P B)
  | None => inl (KeyError steel_type)
  end.

Definition get_steel_name (steel_type : Z) : string :=
  match steel_names steel_type with
  | Some s => s
  | None => "未知"%string
  end.

End SteelDataTables.

(** ** Slot leakage ([SlotLeakageCalculator]) *)

Module SlotLeakageCalculator.

Definition calculate_slot_leakage
    (CX : Z) (h02 b02 h2 d1 d2 h22 QSX B12 KRS1 KRS2 KRS3 : R) : R :=
  if (CX =? 1)%Z then
    if Rle_dec (Rabs (B12 - 1.0)) 1e-4 then
      (4.0 * QSX ^ 3 / 3.0 + 3.0 * PI * QSX ^ 2 / 2.0 + 4.816 * QSX + 1.5377)
        / (2.0 * QSX + PI / 2.0) ^ 2 + h02 / b02
    else
      QSX * (KRS1 + KRS2 + KRS3)
        / (PI * (1.0 + B12 ^ 2) / (8.0 * QSX) + (1.0 + B12) / 2.0) ^ 2
      + h02 / b02
  else if (CX =? 2)%Z then
    h2 / d1 + 2.0 * h22 / (3.0 * (d1 + d2)) + h02 / b02
  else if (CX =? 3)%Z then
    0.623 + h02 / b02
  else if (CX =? 4)%Z then
    if Rle_dec (Rabs (B12 - 1.0)) 1e-4 then
      (PI ^ 2 * QSX / 16.0 + PI * QSX ^ 2 / 2.0 + 4.0 * QSX ^ 3 / 3.0)
        / (2.0 * QSX + PI / 4.0) ^ 2
      + h02 / b02 + 2.0 * h2 / (b02 + d1)
    else
      QSX * (KRS1 + KRS2)
        / (PI / (8.0 * QSX) + (1.0 + B12) / 2.0) ^ 2
      + h02 / b02 + 2.0 * h2 / (b02 + d1)
  else
    h02 / b02.

End SlotLeakageCalculator.

(** ** The engine object and its methods ([MotorCalculationEngine]) *)

(** What [round], [int] and [str] do to a number.  [round] is taken on
    the real number, to the nearest multiple of [10 ^ -ndigits] with ties
    to the even one; the code rounds the binary double nearest to the
    number, which lies on one side of a decimal tie. *)
Definition round_half_even (x : R) : Z :=
  let n := Int_part x in
  let r := x - IZR n in
  if Rlt_dec r (1 / 2) then n
  else if Rlt_dec (1 / 2) r then (n + 1)%Z
  else if Z.even n then n else (n + 1)%Z.

Definition round (x : R) (ndigits : nat) : R :=
  IZR (round_half_even (x * 10 ^ ndigits)) / 10 ^ ndigits.

Definition int (x : R) : Z :=
  if Rle_dec 0 x then Int_part x else (- Int_part (- x))%Z.

Definition str_int (z : Z) : string := NilZero.string_of_int (Z.to_int z).

(** A console line, reduced to what it reports. *)
Inductive line : Type :=
| Banner (steel_name : string)
| StageLine (number : nat)
| IterStart (bm01 : R)
| IterConverged (round_no : nat) (bm0 : R)
| IterProgress (round_no : nat) (bm0 : R)
| Finished
| ErrorLine (e : exn).

(** A value stored in the [results] dictionary. *)
Inductive value : Type :=
| VFloat (x : R)
| VInt (z : Z)
| VStr (s : string).

Definition section : Type := list (string * value).
Definition results_t : Type := list (string * section).

Record engine : Type := mk_engine {
  params : MotorParameters;
  attrs : string -> option R;
  results : results_t;
  stdout : list line
}.

(** [MotorCalculationEngine(params)]: no attribute assigned, empty results. *)
Definition new_engine (params : MotorParameters) : engine :=
  {| params := params; attrs := fun _ => None; results := []; stdout := [] |}.

(** The constants [self.PAI] and [self.MUO] assigned by [__init__]. *)
Definition MUO : R := 4.0 * PI * 1e-7.

(** A method: the engine after the call, and the exception or the value. *)
Definition M (A : Type) : Type := engine -> engine * (exn + A).

Definition ret {A} (x : A) : M A := fun e => (e, inr x).

Definition bind {A B} (c : M A) (k : A -> M B) : M B :=
  fun e =>
    match c e with
    | (e', inr x) => k x e'
    | (e', inl ex) => (e', inl ex)
    end.

Definition raise {A} (ex : exn) : M A := fun e => (e, inl ex).

Definition try_except {A} (body : M A) (handler : exn -> M A) : M A :=
  fun e =>
    match body e with
    | (e', inr x) => (e', inr x)
    | (e', inl ex) => handler ex e'
    end.

Definition lift {A} (r : exn + A) : M A := fun e => (e, r).

Declare Scope method_scope.
Delimit Scope method_scope with method.
Notation "x <- c ;; k" := (bind c (fun x => k))
  (at level 61, c at next level, right associativity) : method_scope.
Notation "c ;; k" := (bind c (fun _ => k))
  (at level 61, right associativity) : method_scope.
Local Open Scope method_scope.

Definition self_params : M MotorParameters := fun e => (e, inr (params e)).

(** [self.name] in an expression. *)
Definition self (name : string) : M R :=
  fun e =>
    match attrs e name with
    | Some x => (e, inr x)
    | None => (e, inl (AttributeError name))
    end.

(** [self.name = x]. *)
Definition setattr (name : string) (x : R) : M unit :=
  fun e =>
    ({| params := params e;
        attrs := fun n => if String.eqb n name then Some x else attrs e n;
        results := results e;
        stdout := stdout e |}, inr tt).

Notation "name ::= x" := (setattr name x) (at level 60) : method_scope.

Definition print (l : line) : M unit :=
  fun e =>
    ({| params := params e; attrs := attrs e; results := results e;
        stdout := stdout e ++ [l] |}, inr tt).

Definition set_results (r : results_t) : M unit :=
  fun e =>
    ({| params := params e; attrs := attrs e; results := r;
        stdout := stdout e |}, inr tt).

Definition is_in (z : Z) (l : list Z) : bool := existsb (Z.eqb z) l.

Definition is_Y (s : string) : bool := String.eqb (upper s) "Y".

Definition calculate_basic_parameters : M unit :=
  p <- self_params ;;
  "OMGs" ::= 2 * PI * p.(MP.f) / p.(MP.p) ;;
  "nN" ::= 60 * p.(MP.f) / p.(MP.p) ;;
  let UN_calc :=
    if is_Y p.(MP.wgco) then p.(MP.UN) / sqrt 3 else p.(MP.UN) in
  "IN" ::= p.(MP.PN) * 1000
           / (p.(MP.m) * UN_calc * p.(MP.eff) * p.(MP.cosfi)) ;;
  nN <- self "nN" ;;
  "TN" ::= p.(MP.PN) * 1000 / (2 * PI * nN / 60) ;;
  "TAO" ::= PI * p.(MP.Di1) / (2 * p.(MP.p))%Z.

Definition calculate_winding_parameters : M unit :=
  p <- self_params ;;
  "N" ::= (p.(MP.Q1) * p.(MP.Ns))%Z / (2 * p.(MP.m) * p.(MP.a))%Z ;;
  let QPM := p.(MP.Q1) / (2 * p.(MP.m) * p.(MP.p))%Z in
  let BETA :=
    if negb (is_in p.(MP.LE) [1; 2; 3]%Z)
    then p.(MP.y) / (p.(MP.m) * QPM) else 1.0 in
  "Kp1" ::= sin (BETA * PI / 2) ;;
  "Kd1" ::= sin (PI / (2 * p.(MP.m))%Z)
            / (QPM * sin (PI / ((2 * p.(MP.m))%Z * QPM))) ;;
  (if is_Y p.(MP.sks) then
     let t1 := PI * p.(MP.Di1) / p.(MP.Q1) in
     let tsk := p.(MP.Q1) * t1 / (p.(MP.Q1) + p.(MP.p))%Z in
     TAO <- self "TAO" ;;
     let ALFAs := tsk / TAO * PI in
     "Ksk1" ::= 2 * sin (ALFAs / 2) / ALFAs
   else
     "Ksk1" ::= 1.0) ;;
  Kp1 <- self "Kp1" ;; Kd1 <- self "Kd1" ;; Ksk1 <- self "Ksk1" ;;
  "Kdp" ::= Kp1 * Kd1 * Ksk1.

Definition calculate_geometry_parameters : M unit :=
  p <- self_params ;;
  "t1" ::= PI * p.(MP.Di1) / p.(MP.Q1) ;;
  "D2" ::= p.(MP.Di1) - 2 * p.(MP.g) ;;
  D2 <- self "D2" ;;
  "t2" ::= PI * D2 / p.(MP.Q2) ;;
  "hs1" ::= (p.(MP.b1) - p.(MP.b01)) / 2 * tan (p.(MP.ALFA1) * PI / 180) ;;
  "bt1" ::= (p.(MP.Di1) + 2 * (p.(MP.h01) + p.(MP.h12))) * PI / p.(MP.Q1)
            - 2 * p.(MP.R1) ;;
  "hj1" ::= (p.(MP.D1) - p.(MP.Di1)) / 2
            - (p.(MP.h01) + p.(MP.h12) + 2 * p.(MP.R1) / 3) ;;
  "ht1" ::= p.(MP.h12) + p.(MP.R1) / 3 ;;
  hj1 <- self "hj1" ;;
  "Lj1" ::= PI * (p.(MP.D1) - hj1) / (4 * p.(MP.p))%Z ;;
  "hr1" ::= (p.(MP.br1) - p.(MP.b02)) * tan (p.(MP.ALFA2) * PI / 180) / 2 ;;
  hr1 <- self "hr1" ;;
  "hr2" ::= p.(MP.hr12) - hr1 ;;
  "hr" ::= p.(MP.h02) + p.(MP.hr12) ;;
  hr2 <- self "hr2" ;;
  "AB" ::= (p.(MP.b02) + p.(MP.br1)) * hr1 / 2
           + (p.(MP.br1) + p.(MP.br2)) * hr2 / 2 ;;
  hr <- self "hr" ;;
  (if (p.(MP.Lev) =? 1)%Z then
     "hj2" ::= (D2 - p.(MP.Di2)) / 2 - hr - p.(MP.hM)
   else
     "hj2" ::= p.(MP.bM)) ;;
  "bt2" ::= (D2 - 2 * (p.(MP.h02) + p.(MP.hr12))) * PI / p.(MP.Q2)
            - p.(MP.br2) ;;
  "DR" ::= D2 - hr - 2 ;;
  hj2 <- self "hj2" ;;
  "Lj2" ::= PI * (p.(MP.Di2) + hj2) / (4 * p.(MP.p))%Z ;;
  ht1 <- self "ht1" ;; bt1 <- self "bt1" ;;
  "Vt1" ::= p.(MP.Q1) * p.(MP.La) * 0.93 * ht1 * bt1 ;;
  "Vj1" ::= PI * (p.(MP.D1) - hj1) * p.(MP.La) * 0.93 * hj1.

Definition calculate_magnet_parameters : M unit :=
  p <- self_params ;;
  let TEMB :=
    if (p.(MP.magnet) =? 1)%Z
    then 1 - (p.(MP.t) - 20) * 0.12e-2
    else 1 - (p.(MP.t) - 20) * 0.19e-2 in
  let TEMH :=
    if (p.(MP.magnet) =? 1)%Z
    then TEMB
    else 1 + (p.(MP.t) - 20) * 0.4e-2 in
  "Br" ::= TEMB * p.(MP.Br0) ;;
  "Hc" ::= TEMH * p.(MP.Hc0) * 1000 ;;
  "MUr" ::= p.(MP.Br0) / (MUO * p.(MP.Hc0) * 1000) ;;
  (if (p.(MP.Lev) =? 1)%Z then
     "Am" ::= p.(MP.bM) * p.(MP.LM)
   else
     "Am" ::= 2 * p.(MP.bM) * p.(MP.LM)) ;;
  "Vm" ::= (2 * p.(MP.p))%Z * p.(MP.LM) * p.(MP.bM) * p.(MP.hM) ;;
  Vm <- self "Vm" ;;
  "mm" ::= p.(MP.ROUm) * Vm / 1e9 ;;
  Hc <- self "Hc" ;;
  "FF" ::= p.(MP.hM) * Hc / 1000 ;;
  Am <- self "Am" ;; Br <- self "Br" ;;
  "FAIM" ::= Am * Br.

Definition calculate_gap_factor : M R :=
  p <- self_params ;;
  t1 <- self "t1" ;;
  let ttt := t1 * (4.4 * p.(MP.g) + 0.75 * p.(MP.b01)) in
  let Kg1 := ttt / (ttt - p.(MP.b01) * p.(MP.b01)) in
  t2 <- self "t2" ;;
  let fff := t2 * (4.4 * p.(MP.g) + 0.75 * p.(MP.b02)) in
  let Kg2 := fff / (fff - p.(MP.b02) * p.(MP.b02)) in
  let Kg := Kg1 * Kg2 in
  ret Kg.

(** The local variables of the stage-5 loop that are read after it. *)
Record locals : Type := mk_locals {
  FI01 : R; RFAi : R; Ft1 : R; Ft2 : R;
  LUMDAm : R; LUMDAn : R; bm0 : R
}.

(** One pass through the body of the loop, up to the new operating point. *)
Definition loop_body (bm01 : R) : M locals :=
  p <- self_params ;;
  FAIM <- self "FAIM" ;;
  let FI01 := bm01 * FAIM / p.(MP.SIGMA0) * 1e-6 in
  let RFAi := 0.64 in
  TAO <- self "TAO" ;;
  "Bg" ::= FI01 / (RFAi * TAO * (p.(MP.La) + 2 * p.(MP.g))) * 1e6 ;;
  Bg <- self "Bg" ;; t1 <- self "t1" ;; bt1 <- self "bt1" ;;
  "Bts" ::= Bg * t1 * (p.(MP.La) + 2 * p.(MP.g))
            / (p.(MP.La) * 0.93 * bt1) ;;
  hj1 <- self "hj1" ;;
  "Bj1" ::= FI01 / (2 * p.(MP.La) * 0.93 * hj1) * 1e6 ;;
  t2 <- self "t2" ;; bt2 <- self "bt2" ;;
  "Btr" ::= Bg * t2 * (p.(MP.La) + 2 * p.(MP.g))
            / (p.(MP.La) * 0.93 * bt2) ;;
  hj2 <- self "hj2" ;;
  "Bj2" ::= FI01 / (2 * p.(MP.La) * 0.93 * hj2) * 1e6 ;;
  Bts <- self "Bts" ;;
  Hts <- lift (SteelDataTables.get_BH_curve Bts p.(MP.steel_type)) ;;
  Bj1 <- self "Bj1" ;;
  Hjs <- lift (SteelDataTables.get_BH_curve Bj1 p.(MP.steel_type)) ;;
  Btr <- self "Btr" ;;
  Htr <- lift (SteelDataTables.get_BH_curve Btr p.(MP.steel_type)) ;;
  Bj2 <- self "Bj2" ;;
  Hjr <- lift (SteelDataTables.get_BH_curve Bj2 p.(MP.steel_type)) ;;
  ht1 <- self "ht1" ;;
  let Ft1 := Hts * ht1 / 10 in
  Lj1 <- self "Lj1" ;;
  let Fj1 := Hjs * Lj1 / 10 in
  hr <- self "hr" ;;
  let Ft2 := Htr * hr / 10 in
  Lj2 <- self "Lj2" ;;
  let Fj2 := Hjr * Lj2 / 10 in
  Kg <- calculate_gap_factor ;;
  let Fg := Bg / MUO * (p.(MP.g12) + p.(MP.g) * Kg) * 1e-3 in
  let SUMF := 2 * (Fg + Ft1 + Fj1 + Ft2 + Fj2) in
  let NUMDAm := FI01 / SUMF in
  MUr <- self "MUr" ;; Am <- self "Am" ;;
  let LUMDAm :=
    if (p.(MP.Lev) =? 1)%Z
    then NUMDAm * 2 * p.(MP.hM) * 1e-3 / (MUr * MUO * Am * 1e-6)
    else NUMDAm * p.(MP.hM) * 1e-3 / (MUr * MUO * Am * 1e-6) in
  let LUMDAn := p.(MP.SIGMA0) * LUMDAm in
  let bm0 := LUMDAn / (LUMDAn + 1) in
  ret {| FI01 := FI01; RFAi := RFAi; Ft1 := Ft1; Ft2 := Ft2;
         LUMDAm := LUMDAm; LUMDAn := LUMDAn; bm0 := bm0 |}.

(** The convergence test of the loop, [abs((bm0 - bm01) / bm0) < 0.0001].
    It is the test of the code where [bm0] is not zero. *)
Definition converged (bm01 bm0 : R) : bool :=
  if Rlt_dec (Rabs ((bm0 - bm01) / bm0)) 0.0001 then true else false.

(** [for iteration in range(start, start + more + 1)], entered with the
    iterate [bm01]; the value is [iteration] and the other locals as the
    loop leaves them. *)
Fixpoint for_range (more : nat) (start : nat) (bm01 : R)
  : M (nat * locals) :=
  l <- loop_body bm01 ;;
  if converged bm01 l.(bm0) then
    print (IterConverged (start + 1) l.(bm0)) ;;
    ret (start, l)
  else
    let bm01' := (bm01 + l.(bm0)) / 2 in
    (if (start mod 5 =? 0)%nat
     then print (IterProgress (start + 1) l.(bm0)) else ret tt) ;;
    match more with
    | O => ret (start, l)
    | S more' => for_range more' (S start) bm01'
    end.

Definition calculate_no_load_magnetic_circuit : M unit :=
  p <- self_params ;;
  let bm01 := 0.95 * p.(MP.SIGMA0) * p.(MP.hM)
              / (p.(MP.SIGMA0) * p.(MP.hM) + p.(MP.g)) in
  print (IterStart bm01) ;;
  il <- for_range 29 0 bm01 ;;
  let l := snd il in
  "bm0" ::= l.(bm0) ;;
  "LUMDAn" ::= l.(LUMDAn) ;;
  "LUMDAs" ::= (p.(MP.SIGMA0) - 1) * l.(LUMDAm) ;;
  FAIM <- self "FAIM" ;;
  "FI0" ::= l.(bm0) * FAIM / p.(MP.SIGMA0) * 1e-6 ;;
  let Kf := 4 / PI * sin (PI * l.(RFAi) / 2) in
  TAO <- self "TAO" ;;
  "Bg1" ::= Kf * l.(FI01)
            / (l.(RFAi) * TAO * (p.(MP.La) + 2 * p.(MP.g))) * 1e6 ;;
  let KFI := 8 / (PI * PI) / l.(RFAi) * sin (l.(RFAi) * PI / 2) in
  N <- self "N" ;; Kdp <- self "Kdp" ;; FI0 <- self "FI0" ;;
  "E0" ::= 4.44 * p.(MP.f) * N * Kdp * FI0 * KFI ;;
  Bg <- self "Bg" ;;
  Kg <- calculate_gap_factor ;;
  let Fgg := Bg / MUO * p.(MP.g) * Kg * 1e-3 in
  "Kst" ::= (Fgg + l.(Ft1) + l.(Ft2)) / Fgg.

Definition calculate_impedances : M unit :=
  p <- self_params ;;
  let s11 := p.(MP.Nt1) * PI * p.(MP.d11) ^ 2 / 4 in
  let s12 := p.(MP.Nt2) * PI * p.(MP.d12) ^ 2 / 4 in
  let ROUCu := 0.0175 * (1 + 0.004 * (p.(MP.t) - 15)) in
  sss <- (if is_in p.(MP.LE) [1; 2; 3]%Z then
            if (p.(MP.p) =? 1)%Z then ret 0.58
            else if is_in p.(MP.p) [2; 3]%Z then ret 0.6
            else ret 0.625
          else
            bt1 <- self "bt1" ;;
            ret (1 / sqrt (1 - ((p.(MP.b1) + 2 * p.(MP.R1))
                                / (p.(MP.b1) + 2 * p.(MP.R1) + 2 * bt1)) ^ 2)
                 / 2)) ;;
  hs1 <- self "hs1" ;;
  let TAOy :=
    if is_in p.(MP.LE) [1; 2]%Z
    then PI / 2 / p.(MP.p) * 0.85
         * (p.(MP.Di1) + 2 * (p.(MP.h01) + hs1) + p.(MP.h12) - hs1
            + p.(MP.R1))
    else PI / 2 / p.(MP.p)
         * (p.(MP.Di1) + 2 * (p.(MP.h01) + hs1) + p.(MP.h12) - hs1
            + p.(MP.R1)) in
  let LEIP := sss * TAOy in
  let Lc := 2 * (p.(MP.La) + 2 * (p.(MP.d) + LEIP)) in
  bt1 <- self "bt1" ;;
  "fd" ::= LEIP * (p.(MP.b1) + 2 * p.(MP.R1))
           / (p.(MP.b1) + 2 * p.(MP.R1) + 2 * bt1) ;;
  "Ls" ::= 2 * (p.(MP.d) + LEIP) ;;
  N <- self "N" ;;
  "Rs" ::= ROUCu * Lc * N / (p.(MP.a) * (s11 + s12) * 1000) ;;
  Kdp <- self "Kdp" ;;
  let Cx := (4 * PI) ^ 2 * 1e-10 * p.(MP.f) * (p.(MP.La) + 2 * p.(MP.g))
            * (N * Kdp) ^ 2 / p.(MP.p) in
  let AU1 := p.(MP.h01) / p.(MP.b01) + 2 * hs1 / (p.(MP.b01) + p.(MP.b1)) in
  let AL1 := 2 * p.(MP.h12) / (p.(MP.b01) + p.(MP.b1)) in
  let QPM := p.(MP.Q1) / (2 * p.(MP.m) * p.(MP.p))%Z in
  let BETA_calc :=
    if negb (is_in p.(MP.LE) [1; 2; 3]%Z)
    then p.(MP.y) / (p.(MP.m) * QPM) else 1.0 in
  let BETA1 := if Rgt_dec BETA_calc 1 then 2 - BETA_calc else BETA_calc in
  let KU1 :=
    if Rge_dec BETA1 (2 / 3) then (3 * BETA1 + 1) / 4
    else if Rgt_dec BETA1 (1 / 3) then (6 * BETA1 - 1) / 4
    else 0.75 * BETA1 in
  let KL1 :=
    if Rge_dec BETA1 (2 / 3) then (9 * BETA1 + 7) / 16
    else if Rgt_dec BETA1 (1 / 3) then (18 * BETA1 + 1) / 16
    else (9 * BETA1 + 4) / 16 in
  let As1 := KU1 * AU1 + KL1 * AL1 in
  let Xs1 := p.(MP.La) * p.(MP.m) * 2 * p.(MP.p) * As1
             / ((p.(MP.La) + 2 * p.(MP.g)) * Kdp ^ 2 * p.(MP.Q1)) * Cx in
  let SUMR := PI ^ 2 * ((2 * p.(MP.p))%Z / p.(MP.Q1)) ^ 2 / 12 in
  TAO <- self "TAO" ;;
  Kg <- calculate_gap_factor ;;
  Kst <- self "Kst" ;;
  let Xd1 := p.(MP.m) * TAO * SUMR / (PI ^ 2 * Kg * p.(MP.g) * Kst) * Cx in
  XE1 <- (if (p.(MP.LE) =? 0)%Z then
            fd <- self "fd" ;;
            ret (1.2 * (p.(MP.d) + 0.5 * fd)
                 / (p.(MP.La) + 2 * p.(MP.g)) * Cx)
          else if (p.(MP.LE) =? 1)%Z then
            Ls <- self "Ls" ;;
            ret (0.67 * (Ls - 0.64 * TAOy)
                 / ((p.(MP.La) + 2 * p.(MP.g)) * Kdp ^ 2) * Cx)
          else if (p.(MP.LE) =? 2)%Z then
            Ls <- self "Ls" ;;
            ret (0.47 * (Ls - 0.64 * TAOy)
                 / ((p.(MP.La) + 2 * p.(MP.g)) * Kdp ^ 2) * Cx)
          else
            Ls <- self "Ls" ;;
            ret (0.2 * Ls / ((p.(MP.La) + 2 * p.(MP.g)) * Kdp ^ 2) * Cx)) ;;
  Xsk1 <- (if is_Y p.(MP.sks) then
             t1 <- self "t1" ;;
             let tsk := p.(MP.Q1) * t1 / (p.(MP.Q1) + p.(MP.p))%Z in
             ret (0.5 * (tsk / t1) ^ 2 * Xd1)
           else ret 0.0) ;;
  "X1" ::= Xs1 + Xd1 + XE1 + Xsk1 ;;
  let kc := p.(MP.m) * (2 * N * Kdp) ^ 2 * 1e-4 in
  let ROUA1 := 0.035 * (1 + 0.004 * (p.(MP.t) - 15)) in
  AB <- self "AB" ;;
  let RB := kc * (1.04 * p.(MP.La) * ROUA1 * 10) / (AB * p.(MP.Q2)) in
  DR <- self "DR" ;;
  let RR := kc * (DR * ROUA1 * 10)
            / (2 * PI * (p.(MP.p) ^ 2)%Z * p.(MP.AR)) in
  "R2" ::= RB + RR ;;
  let QSX := 1.0 in
  let B12 := p.(MP.br2) / p.(MP.br1) in
  let KRS1 := 0.5 in
  let KRS2 := 0.3 in
  let KRS3 := 0.2 in
  let h2 := p.(MP.hr12) in
  let d1 := p.(MP.br1) in
  let d2 := p.(MP.br2) in
  let h22 := p.(MP.hr12) / 2 in
  let LUMDAS := SlotLeakageCalculator.calculate_slot_leakage
                  p.(MP.CX) p.(MP.h02) p.(MP.b02) h2 d1 d2 h22
                  QSX B12 KRS1 KRS2 KRS3 in
  let Xs2 := p.(MP.La) * p.(MP.m) * 2 * p.(MP.p) * LUMDAS * Cx
             / ((p.(MP.La) + 2 * p.(MP.g)) * p.(MP.Q2)) in
  let SUMR2 := PI ^ 2 * ((2 * p.(MP.p))%Z / p.(MP.Q2)) ^ 2 / 12 in
  Kg' <- calculate_gap_factor ;;
  let Xd2 := p.(MP.m) * TAO * SUMR2 / (PI ^ 2 * p.(MP.g) * Kg' * Kst) * Cx in
  let XE2 := 0.757 / (p.(MP.La) + 2 * p.(MP.g))
             * ((p.(MP.La) - p.(MP.La)) / 1.13 + DR / (2 * p.(MP.p))%Z)
             * Cx in
  "X2" ::= Xs2 + Xd2 + XE2.

Definition calculate_performance : M unit :=
  p <- self_params ;;
  N <- self "N" ;; Kdp <- self "Kdp" ;; IN <- self "IN" ;;
  let Fa := 0.45 * p.(MP.m) * N * Kdp * 0.5 * IN * 1.0 / p.(MP.p) in
  FF <- self "FF" ;;
  let fad := if (p.(MP.Lev) =? 1)%Z then Fa / FF else 2 * Fa / FF in
  let f1 := fad / p.(MP.SIGMA0) in
  LUMDAn <- self "LUMDAn" ;;
  let bmN := LUMDAn * (1 - f1) / (LUMDAn + 1) in
  LUMDAs <- self "LUMDAs" ;; FAIM <- self "FAIM" ;;
  let FIN := (bmN - (1 - bmN) * LUMDAs) * FAIM * 1e-6 in
  let KFI := 8 / (PI * PI) / 0.64 * sin (0.64 * PI / 2) in
  let Ed := 4.44 * p.(MP.f) * N * Kdp * FIN * KFI in
  E0 <- self "E0" ;;
  "Xad" ::= Rabs ((E0 - Ed) / (0.5 * IN)) ;;
  Xad <- self "Xad" ;; X1 <- self "X1" ;;
  "Xd" ::= Xad + X1 ;;
  "Xaq" ::= Xad * p.(MP.Kq) ;;
  Xaq <- self "Xaq" ;;
  "Xq" ::= Xaq + X1 ;;
  let Kf := 4 / PI * sin (PI * 0.64 / 2) in
  "Kad" ::= 1 / Kf ;;
  "Kaq" ::= p.(MP.Kq) / Kf ;;
  "bmN" ::= bmN.

Definition calculate_material_weights : M unit :=
  p <- self_params ;;
  let s11 := p.(MP.Nt1) * PI * p.(MP.d11) ^ 2 / 4 in
  let s12 := p.(MP.Nt2) * PI * p.(MP.d12) ^ 2 / 4 in
  Ls <- self "Ls" ;;
  let Lc := 2 * (p.(MP.La) + 2 * (p.(MP.d) + Ls / 2)) in
  "mCu" ::= 1.05 * 8.9 * p.(MP.Q1) * p.(MP.Ns) * Lc / 2 * (s11 + s12)
            * 1e-6 ;;
  "mFe" ::= 7.8 * (p.(MP.La) + 2 * p.(MP.g)) * (p.(MP.D1) + 5) ^ 2 * 1e-6 ;;
  AB <- self "AB" ;; DR <- self "DR" ;;
  "mAl" ::= 2.7 * (p.(MP.Q2) * AB * p.(MP.La) + 2 * p.(MP.AR) * PI * DR)
            * 1e-6 ;;
  (* the last line printed reports [self.mm], which stage 4 assigns *)
  mm <- self "mm" ;;
  ret tt.

Definition calculate_losses : M unit :=
  p <- self_params ;;
  IN <- self "IN" ;; Rs <- self "Rs" ;;
  "pCu" ::= p.(MP.m) * IN ^ 2 * Rs ;;
  Bts <- self "Bts" ;;
  pt1 <- lift (SteelDataTables.get_iron_loss Bts p.(MP.steel_type)) ;;
  Bj1 <- self "Bj1" ;;
  pj1 <- lift (SteelDataTables.get_iron_loss Bj1 p.(MP.steel_type)) ;;
  Vt1 <- self "Vt1" ;; Vj1 <- self "Vj1" ;;
  "pFe" ::= 2.5 * Vt1 * pt1 / 1e6 + 2 * Vj1 * pj1 / 1e6 ;;
  "pfw" ::= p.(MP.pfwl) * p.(MP.PN) * 1000 ;;
  "ps" ::= (IN / IN) ^ 2 * p.(MP.psl) * p.(MP.PN) * 1000 ;;
  pCu <- self "pCu" ;; pFe <- self "pFe" ;;
  pfw <- self "pfw" ;; ps <- self "ps" ;;
  "pSum" ::= pCu + pFe + pfw + ps.

Definition calculate_starting_characteristics : M unit :=
  p <- self_params ;;
  X1 <- self "X1" ;;
  let X1st := X1 * 0.8 in
  R2 <- self "R2" ;;
  let R2st := R2 * 1.2 in
  X2 <- self "X2" ;;
  let X2st := X2 * 0.8 in
  let Xst := X1st + X2st in
  Rs <- self "Rs" ;;
  let Rst := Rs + R2st in
  let Zst := sqrt (Rst ^ 2 + Xst ^ 2) in
  let UN_calc :=
    if is_Y p.(MP.wgco) then p.(MP.UN) / sqrt 3 else p.(MP.UN) in
  "Ist_calc" ::= UN_calc / Zst ;;
  Ist_calc <- self "Ist_calc" ;; IN <- self "IN" ;;
  "Ist_ratio" ::= Ist_calc / IN ;;
  TN <- self "TN" ;;
  "Tst_calc" ::= (p.(MP.m) * p.(MP.p))%Z * Ist_calc ^ 2 * R2st
                 / (2 * PI * p.(MP.f)) / TN.

Definition calculate_actual_performance : M unit :=
  p <- self_params ;;
  let P_out := p.(MP.PN) * 1000 in
  pSum <- self "pSum" ;;
  let P_in := P_out + pSum in
  "eta_actual" ::= P_out / P_in * 100 ;;
  Rs <- self "Rs" ;; X1 <- self "X1" ;;
  let Z_total := sqrt (Rs ^ 2 + X1 ^ 2) in
  let phi_rad := atan (X1 / Rs) in
  "cosfi_actual" ::= cos phi_rad ;;
  E0 <- self "E0" ;; IN <- self "IN" ;;
  (* [np.arcsin] is NaN outside [-1, 1], where [asin] is [PI / 2] or
     [- PI / 2]: there the number assigned here is not that of the code *)
  "theta_actual" ::= asin (P_out / (p.(MP.m) * E0 * IN / sqrt 3))
                     * 180 / PI ;;
  cosfi_actual <- self "cosfi_actual" ;;
  "phi_actual" ::= acos cosfi_actual * 180 / PI ;;
  let s_total :=
    p.(MP.Ns) * (p.(MP.Nt1) * PI * p.(MP.d11) ^ 2 / 4
                 + p.(MP.Nt2) * PI * p.(MP.d12) ^ 2 / 4) in
  let slot_area :=
    (p.(MP.b01) + p.(MP.b1)) * p.(MP.h12) / 2 + p.(MP.b01) * p.(MP.h01) in
  "Sf_actual" ::= s_total / slot_area * 100 ;;
  N <- self "N" ;;
  "A1_actual" ::= p.(MP.m) * N * IN / (PI * p.(MP.Di1)) ;;
  "J1_actual" ::= IN / s_total ;;
  A1_actual <- self "A1_actual" ;; J1_actual <- self "J1_actual" ;;
  "A1J1_actual" ::= A1_actual * J1_actual ;;
  bmN <- self "bmN" ;;
  "bmh_actual" ::= bmN * 0.382.

Definition get_slot_type_name (CX : Z) : string :=
  match CX with
  | 1%Z => "梨形槽"
  | 2%Z => "半梨形槽"
  | 3%Z => "圆形槽"
  | 4%Z => "斜肩圆槽"
  | _ => "未知槽型"
  end%string.

(** [round(self.name, ndigits)] as a dictionary entry. *)
Definition rounded (key name : string) (ndigits : nat)
  : M (string * value) :=
  x <- self name ;; ret (key, VFloat (round x ndigits)).

(** The entries of one inner dictionary, evaluated in order. *)
Fixpoint entries (l : list (M (string * value))) : M section :=
  match l with
  | [] => ret []
  | c :: l' => kv <- c ;; rest <- entries l' ;; ret (kv :: rest)
  end.

Definition save_complete_results : M unit :=
  p <- self_params ;;
  s1 <- entries
    [ rounded "额定转速 nN (rpm)" "nN" 1;
      rounded "额定电流 IN (A)" "IN" 2;
      rounded "额定转矩 TN (N·m)" "TN" 2;
      rounded "极距 TAO (mm)" "TAO" 2;
      rounded "同步角速度 OMGs (rad/s)" "OMGs" 2 ] ;;
  s2 <- entries
    [ (N <- self "N" ;; ret ("每相串联匝数 N"%string, VInt (int N)));
      rounded "绕组因数 Kdp" "Kdp" 4;
      rounded "短距因数 Kp1" "Kp1" 4;
      rounded "分布因数 Kd1" "Kd1" 4;
      rounded "斜槽因数 Ksk1" "Ksk1" 4;
      rounded "线圈端部长度 Ls (mm)" "Ls" 1;
      rounded "端部轴向投影 fd (mm)" "fd" 1 ] ;;
  s3 <- entries
    [ rounded "定子齿距 t1 (mm)" "t1" 2;
      rounded "转子齿距 t2 (mm)" "t2" 2;
      rounded "转子外径 D2 (mm)" "D2" 1;
      rounded "定子齿宽 bt1 (mm)" "bt1" 2;
      rounded "转子齿宽 bt2 (mm)" "bt2" 2;
      rounded "定子轭高 hj1 (mm)" "hj1" 2;
      rounded "转子轭高 hj2 (mm)" "hj2" 2;
      rounded "转子槽面积 AB (mm²)" "AB" 1;
      rounded "转子端环直径 DR (mm)" "DR" 1;
      ret ("槽型 CX"%string,
           VStr (str_int p.(MP.CX) ++ " ("
                 ++ get_slot_type_name p.(MP.CX) ++ ")")) ] ;;
  s4 <- entries
    [ (Kg <- calculate_gap_factor ;;
       ret ("气隙系数 Kg"%string, VFloat (round Kg 3)));
      rounded "气隙磁密 Bg (T)" "Bg" 3;
      rounded "气隙磁密基波 Bg1 (T)" "Bg1" 3;
      rounded "定子齿磁密 Bts (T)" "Bts" 3;
      rounded "定子轭磁密 Bj1 (T)" "Bj1" 3;
      rounded "转子齿磁密 Btr (T)" "Btr" 3;
      rounded "转子轭磁密 Bj2 (T)" "Bj2" 3;
      rounded "空载反电动势 E0 (V)" "E0" 1;
      rounded "永磁体工作点 bm0" "bm0" 4;
      rounded "齿饱和系数 Kst" "Kst" 2;
      ret ("硅钢片类型"%string,
           VStr (SteelDataTables.get_steel_name p.(MP.steel_type))) ] ;;
  s5 <- entries
    [ rounded "工作温度剩磁 Br (T)" "Br" 3;
      rounded "工作温度矫顽力 Hc (A/m)" "Hc" 0;
      rounded "相对磁导率 MUr" "MUr" 3;
      rounded "永磁体截面积 Am (mm²)" "Am" 0;
      rounded "永磁体磁动势 FF (A)" "FF" 1;
      rounded "永磁体磁通 FAIM (Wb·mm)" "FAIM" 3;
      rounded "永磁体质量 mm (kg)" "mm" 2 ] ;;
  s6 <- entries
    [ rounded "定子电阻 Rs (Ω)" "Rs" 4;
      rounded "转子电阻 R2 (Ω)" "R2" 4;
      rounded "定子漏抗 X1 (Ω)" "X1" 4;
      rounded "转子漏抗 X2 (Ω)" "X2" 4;
      rounded "直轴电抗 Xd (Ω)" "Xd" 3;
      rounded "交轴电抗 Xq (Ω)" "Xq" 3;
      rounded "直轴电枢反应电抗 Xad (Ω)" "Xad" 3;
      rounded "交轴电枢反应电抗 Xaq (Ω)" "Xaq" 3;
      rounded "直轴折算系数 Kad" "Kad" 3;
      rounded "交轴折算系数 Kaq" "Kaq" 3 ] ;;
  s7 <- entries
    [ rounded "铜线质量 mCu (kg)" "mCu" 2;
      rounded "硅钢片质量 mFe (kg)" "mFe" 2;
      rounded "铸铝质量 mAl (kg)" "mAl" 2;
      rounded "永磁体质量 mm (kg)" "mm" 2 ] ;;
  s8 <- entries
    [ rounded "铜耗 pCu (W)" "pCu" 1;
      rounded "铁耗 pFe (W)" "pFe" 1;
      rounded "机械损耗 pfw (W)" "pfw" 1;
      rounded "杂散损耗 ps (W)" "ps" 1;
      rounded "总损耗 Σp (W)" "pSum" 1 ] ;;
  s9 <- entries
    [ rounded "启动电流倍数 Ist/IN" "Ist_ratio" 2;
      rounded "启动电流 Ist (A)" "Ist_calc" 1;
      rounded "启动转矩倍数 Tst/TN" "Tst_calc" 2 ] ;;
  s10 <- entries
    [ rounded "实际效率 eta (%)" "eta_actual" 2;
      rounded "实际功率因数 cosfi" "cosfi_actual" 3;
      rounded "功率角 theta (°)" "theta_actual" 1;
      rounded "负载角 phi (°)" "phi_actual" 1;
      rounded "槽满率 Sf (%)" "Sf_actual" 1;
      rounded "线负荷 A1 (A/mm)" "A1_actual" 1;
      rounded "电密度 J1 (A/mm²)" "J1_actual" 1;
      rounded "A1J1 (A²/mm³)" "A1J1_actual" 1;
      rounded "负载工作点 bmN" "bmN" 3;
      rounded "负载工作点 bmh" "bmh_actual" 3 ] ;;
  set_results
    [ ("基本参数", s1); ("绕组参数", s2); ("几何参数", s3);
      ("磁路参数", s4); ("永磁体参数", s5); ("阻抗参数", s6);
      ("材料质量", s7); ("损耗参数", s8); ("性能参数", s9);
      ("实际性能参数", s10) ]%string.

(** The eleven stages in the order [calculate_all] calls them. *)
Definition stages : list (M unit) :=
  [ calculate_basic_parameters;
    calculate_winding_parameters;
    calculate_geometry_parameters;
    calculate_magnet_parameters;
    calculate_no_load_magnetic_circuit;
    calculate_impedances;
    calculate_performance;
    calculate_material_weights;
    calculate_losses;
    calculate_starting_characteristics;
    calculate_actual_performance ].

(** Stage [number], [number + 1], ...: each is announced, then called. *)
Fixpoint run_stages (number : nat) (l : list (M unit)) : M unit :=
  match l with
  | [] => ret tt
  | stage :: l' =>
      print (StageLine number) ;; stage ;; run_stages (S number) l'
  end.

Definition str (e : exn) : string :=
  match e with
  | KeyError key => str_int key
  | AttributeError name =>
      "'MotorCalculationEngine' object has no attribute '" ++ name ++ "'"
  end%string.

(** [calculate_all] over any eleven stage methods and any final method:
    the [try] block and its handler. *)
Definition calculate_all_with (stages : list (M unit)) (save : M unit)
  : M (bool * string) :=
  try_except
    (p <- self_params ;;
     print (Banner (SteelDataTables.get_steel_name p.(MP.steel_type))) ;;
     run_stages 1 stages ;;
     print Finished ;;
     save ;;
     ret (true, "计算完成"%string))
    (fun e =>
       print (ErrorLine e) ;;
       ret (false, ("计算错误: " ++ str e)%string)).

Definition calculate_all : M (bool * string) :=
  calculate_all_with stages save_complete_results.

(** * Specifications *)

(** ** Tables *)

(** Strictly increasing abscissae, non-decreasing ordinates. *)
Fixpoint ascending (l : list R) : Prop :=
  match l with
  | u :: ((v :: _) as l') => u < v /\ ascending l'
  | _ => True
  end.

Fixpoint nondecreasing (l : list R) : Prop :=
  match l with
  | u :: ((v :: _) as l') => u <= v /\ nondecreasing l'
  | _ => True
  end.

Definition table_ok (ys : list R) : Prop :=
  nondecreasing ys /\ List.length ys = 37%nat.


(** ** Judgements on methods *)

(** ** What no stage touches

    [frame c]: the call keeps the parameter record and the [results]
    dictionary, only appends to the console, and never deletes an
    attribute; this holds whether the call returns or raises. *)

Definition extends (e e' : engine) : Prop :=
  params e' = params e /\ results e' = results e /\
  (exists out, stdout e' = stdout e ++ out) /\
  (forall n, attrs e n <> None -> attrs e' n <> None).

Definition frame {A} (c : M A) : Prop := forall e, extends e (fst (c e)).

(** ** Calls that return

    [returns p pre c post]: on an engine for the record [p] on which the
    attributes [pre] are assigned, the call raises nothing, and the
    attributes [post] are assigned afterwards. *)

Definition has (l : list string) (n : string) : bool :=
  existsb (String.eqb n) l.

Definition assigned (l : list string) (e : engine) : Prop :=
  forall n, has l n = true -> attrs e n <> None.

Definition returns (p : MotorParameters) (pre : list string) {A}
    (c : M A) (post : list string) : Prop :=
  forall e, params e = p -> assigned pre e ->
    exists x, snd (c e) = inr x /\
              params (fst (c e)) = p /\ assigned post (fst (c e)).

Definition covers (big small : list string) : bool :=
  forallb (has big) small.

(** ** Calls that do not depend on stale attributes

    [agree W r e1 e2]: two engines for the same parameter record whose
    attributes in [W] coincide (assigned to the same number, or both
    unassigned) and, when [r] is set, whose [results] coincide.
    [indep W r c W' r']: from two such engines the call raises the same
    exception or returns the same value, and in the second case the engines
    then agree on [W'] and [r']. *)

Definition agree (W : list string) (r : bool) (e1 e2 : engine) : Prop :=
  params e1 = params e2 /\
  (forall n, has W n = true -> attrs e1 n = attrs e2 n) /\
  (r = true -> results e1 = results e2).

Definition indep (W : list string) (r : bool) {A} (c : M A)
    (W' : list string) (r' : bool) : Prop :=
  forall e1 e2, agree W r e1 e2 ->
    snd (c e1) = snd (c e2) /\
    (forall x, snd (c e1) = inr x -> agree W' r' (fst (c e1)) (fst (c e2))).

(** ** Running a method step by step

    [wp c Q e]: the call of [c] on the engine [e] leaves an engine and an
    outcome that satisfy [Q]. *)

Definition wp {A} (c : M A) (Q : engine -> exn + A -> Prop) (e : engine)
  : Prop :=
  Q (fst (c e)) (snd (c e)).

(** The engine after [self.name = x] and after a [print]. *)
Definition upd (name : string) (x : R) (e : engine) : engine :=
  fst (setattr name x e).

Definition out (l : line) (e : engine) : engine := fst (print l e).


(** ** The pipeline *)

(** The attributes each stage assigns. *)
Definition flux_names : list string := ["Bg"; "Bts"; "Bj1"; "Btr"; "Bj2"]%string.

Definition stage_names : list (list string) :=
  [ ["OMGs"; "nN"; "IN"; "TN"; "TAO"];
    ["N"; "Kp1"; "Kd1"; "Ksk1"; "Kdp"];
    ["t1"; "D2"; "t2"; "hs1"; "bt1"; "hj1"; "ht1"; "Lj1"; "hr1"; "hr2";
     "hr"; "AB"; "hj2"; "bt2"; "DR"; "Lj2"; "Vt1"; "Vj1"];
    ["Br"; "Hc"; "MUr"; "Am"; "Vm"; "mm"; "FF"; "FAIM"];
    (flux_names ++ ["bm0"; "LUMDAn"; "LUMDAs"; "FI0"; "Bg1"; "E0"; "Kst"])%list;
    ["fd"; "Ls"; "Rs"; "X1"; "R2"; "X2"];
    ["Xad"; "Xd"; "Xaq"; "Xq"; "Kad"; "Kaq"; "bmN"];
    ["mCu"; "mFe"; "mAl"];
    ["pCu"; "pFe"; "pfw"; "ps"; "pSum"];
    ["Ist_calc"; "Ist_ratio"; "Tst_calc"];
    ["eta_actual"; "cosfi_actual"; "theta_actual"; "phi_actual";
     "Sf_actual"; "A1_actual"; "J1_actual"; "A1J1_actual"; "bmh_actual"] ]%string.

(** The attributes assigned once the first [k] stages have run. *)
Definition assigned_after (k : nat) : list string :=
  List.concat (firstn k stage_names).

Definition valid_steel (k : Z) : Prop := (1 <= k <= 5)%Z.

(** The attributes the loop of stage 5 reads, and those present inside it. *)
Definition in_loop : list string := (flux_names ++ assigned_after 4)%list.

(** The [try] block of [calculate_all] and the engine on which stage 1 is
    announced: the banner has been printed, nothing else has happened. *)
Definition try_block (stages : list (M unit)) (save : M unit)
  : M (bool * string) :=
  p <- self_params ;;
  print (Banner (SteelDataTables.get_steel_name p.(MP.steel_type))) ;;
  run_stages 1 stages ;;
  print Finished ;;
  save ;;
  ret (true, "计算完成"%string).

Definition announced (e : engine) : engine :=
  fst (print (Banner (SteelDataTables.get_steel_name
                        (params e).(MP.steel_type))) e).

(** The first five stages, the last of which is the one that looks the
    grade up. *)
Definition upto_circuit : list (M unit) := firstn 5 stages.

(** The operating point stage 5 starts from. *)
Definition initial_bm01 (p : MotorParameters) : R :=
  0.95 * p.(MP.SIGMA0) * p.(MP.hM)
  / (p.(MP.SIGMA0) * p.(MP.hM) + p.(MP.g)).


(** The reference record with a grade outside the table. *)
Definition undefined_grade : MotorParameters :=
  MP.with_steel_type MP.default 6.

(** What "rejected before stage 1 begins" says of a run of
    [calculate_all] on a fresh engine: failure is reported, no stage was
    announced and no stage has assigned an attribute. *)
Definition rejected_before_stage_1 (p : MotorParameters) : Prop :=
  let r := calculate_all (new_engine p) in
  (exists msg, snd r = inr (false, msg)) /\
  (forall k, ~ In (StageLine k) (stdout (fst r))) /\
  (forall n, attrs (fst r) n = None).

(** An engine on which an earlier run has left attributes, results and
    console output. *)
Definition used_engine (p : MotorParameters) : engine :=
  {| params := p;
     attrs := fun _ => Some 1;
     results := [("基本参数"%string, [])];
     stdout := [Finished] |}.

(** ** Slot profiles *)

(** The specific permeance of the four defined profiles on one geometry. *)
Definition four_profiles
    (h02 b02 h2 d1 d2 h22 QSX B12 KRS1 KRS2 KRS3 : R) : list R :=
  map (fun CX => SlotLeakageCalculator.calculate_slot_leakage
                   CX h02 b02 h2 d1 d2 h22 QSX B12 KRS1 KRS2 KRS3)
      [1; 2; 3; 4]%Z.

(** The geometry [calculate_impedances] passes for a parameter record. *)
Definition four_profiles_of (p : MotorParameters) : list R :=
  four_profiles p.(MP.h02) p.(MP.b02) p.(MP.hr12) p.(MP.br1) p.(MP.br2)
    (p.(MP.hr12) / 2) 1.0 (p.(MP.br2) / p.(MP.br1)) 0.5 0.3 0.2.

(** A rotor slot as wide at the bottom as at the top, 0.534 mm deep. *)
Definition square_slot : MotorParameters := {|
  MP.PN := 15.0; MP.UN := 380.0; MP.m := 3; MP.f := 50.0; MP.p := 2;
  MP.cosfi := 0.95; MP.eff := 0.935; MP.Tpo := 1.8; MP.Ist := 9.0;
  MP.Tst := 2.0; MP.D1 := 260.0; MP.Di1 := 170.0; MP.La := 190.0;
  MP.g := 0.65; MP.g12 := 0.15; MP.Q1 := 36; MP.Q2 := 32; MP.Di2 := 60.0;
  MP.b01 := 3.8; MP.h01 := 0.8; MP.b1 := 7.7; MP.ALFA1 := 30.0;
  MP.R1 := 5.1; MP.h12 := 15.2; MP.sks := "Y";
  MP.Lv := 1; MP.b02 := 2.0; MP.h02 := 0.8; MP.br1 := 1.0; MP.br2 := 1.0;
  MP.hr12 := 0.534; MP.ALFA2 := 30.0; MP.AR := 180.0;
  MP.CX := 1; MP.steel_type := 5;
  MP.LE := 2; MP.a := 1; MP.Ns := 13; MP.Nt1 := 2; MP.d11 := 1.20;
  MP.Nt2 := 3; MP.d12 := 1.25; MP.d := 15.0; MP.y := 9; MP.wgco := "Y";
  MP.Lev := 1; MP.magnet := 1; MP.Br0 := 1.15; MP.Hc0 := 875.0;
  MP.hM := 5.3; MP.bM := 110.0; MP.LM := 190.0; MP.ROUm := 7400.0;
  MP.SIGMA0 := 1.28; MP.t := 75.0; MP.pfwl := 0.0107; MP.psl := 0.015;
  MP.Kq := 0.36
|}.

(** ** Connections *)

(** The reference machine in star on 380 sqrt 3 V and in delta on 380 V. *)
Definition star_machine : MotorParameters :=
  MP.with_connection MP.default (380 * sqrt 3) "Y".

Definition delta_machine : MotorParameters :=
  MP.with_connection MP.default 380 "J".

(** The value of an attribute after a call. *)
Definition attr_after {A} (c : M A) (e : engine) (name : string) : option R :=
  attrs (fst (c e)) name.

(** ** The loop of stage 5 *)

(** [modifies W c]: the call assigns no attribute outside [W] (and keeps
    the parameter record), whether it returns or raises. *)
Definition modifies (W : list string) {A} (c : M A) : Prop :=
  forall e,
    params (fst (c e)) = params e /\
    forall n, has W n = false -> attrs (fst (c e)) n = attrs e n.

(** An engine on which stages 1 to 4 have run, for a defined grade. *)
Definition ready (e : engine) : Prop :=
  assigned (assigned_after 4) e /\ valid_steel (params e).(MP.steel_type).

(** The operating point one round computes on the engine [e] from the
    iterate [x]. *)
Definition new_point (e : engine) (x : R) : R :=
  match snd (loop_body x e) with
  | inr l => l.(bm0)
  | inl _ => 0
  end.

(** The iterate entering round [k] of a damped fixed-point iteration of
    [G] started at [x]: each round replaces the iterate by the mean of the
    iterate and of the new value. *)
Fixpoint damped (G : R -> R) (k : nat) (x : R) : R :=
  match k with
  | O => x
  | S k' => damped G k' ((x + G x) / 2)
  end.

(** The external permeance [LUMDAn] the same round computes. *)
Definition new_permeance (e : engine) (x : R) : R :=
  match snd (loop_body x e) with
  | inr l => l.(LUMDAn)
  | inl _ => 0
  end.

(** The engine on which the loop is entered: the start line is printed. *)
Definition entered (e : engine) : engine :=
  out (IterStart (initial_bm01 (params e))) e.

(** The engine of a record once stages 1 to 4 have run on a fresh one. *)
Definition prepared (p : MotorParameters) : engine :=
  fst (run_stages 1 (firstn 4 stages) (new_engine p)).

(** ** The reference run *)

(** The attribute [n] is assigned, to a number from [lo] to [hi]. *)
Definition within (e : engine) (n : string) (lo hi : R) : Prop :=
  exists v, attrs e n = Some v /\ lo <= v <= hi.

(** The end-to-end scenario on the default record: [calculate_all] reports
    success, the rated current is between [I_lo] and [I_hi] amperes, and
    the actual efficiency, in percent, is strictly between the target
    efficiency of the record and 100. *)
Definition reference_scenario (I_lo I_hi : R) : Prop :=
  let r := calculate_all (new_engine MP.default) in
  snd r = inr (true, "计算完成"%string) /\
  within (fst r) "IN" I_lo I_hi /\
  exists eta,
    attrs (fst r) "eta_actual" = Some eta /\
    100 * MP.default.(MP.eff) < eta < 100.

(** ** Keys *)

(** No string occurs twice in the list. *)
Fixpoint distinct (l : list string) : bool :=
  match l with
  | [] => true
  | x :: l' => negb (has l' x) && distinct l'
  end.

(** ** Divisors

    The model has real numbers and no [ZeroDivisionError]: a statement
    about a call that divides is made for the engines on which the code
    divides by nothing that is zero. *)

(** The attribute [n] is assigned, to a positive number; to a number that
    is not negative. *)
Definition positive (e : engine) (n : string) : Prop :=
  exists v, attrs e n = Some v /\ 0 < v.

Definition not_negative (e : engine) (n : string) : Prop :=
  exists v, attrs e n = Some v /\ 0 <= v.

(** A magnetic circuit of positive dimensions, as stage 5 reads it: the
    leakage factor, the magnet thickness, the airgap and the core length of
    the record; the magnet flux, the pole pitch, the tooth pitches, the
    tooth widths, the yoke heights, the recoil permeability and the magnet
    area that stages 1 to 4 assigned; path lengths that are not negative;
    and slot openings narrow enough for both denominators of
    [calculate_gap_factor] to be positive.  Every number that stage 5
    divides by is then positive, in every round of its loop. *)
Definition positive_circuit (e : engine) : Prop :=
  let p := params e in
  (0 < p.(MP.SIGMA0) /\ 0 < p.(MP.hM) /\ 0 < p.(MP.g) /\
   0 <= p.(MP.g12) /\ 0 < p.(MP.La)) /\
  Forall (positive e)
    ["FAIM"; "TAO"; "t1"; "t2"; "bt1"; "bt2"; "hj1"; "hj2"; "MUr";
     "Am"]%string /\
  Forall (not_negative e) ["ht1"; "Lj1"; "hr"; "Lj2"]%string /\
  (forall t1, attrs e "t1" = Some t1 ->
     p.(MP.b01) * p.(MP.b01)
     < t1 * (4.4 * p.(MP.g) + 0.75 * p.(MP.b01))) /\
  (forall t2, attrs e "t2" = Some t2 ->
     p.(MP.b02) * p.(MP.b02)
     < t2 * (4.4 * p.(MP.g) + 0.75 * p.(MP.b02))).

(** The number an attribute holds (0 when it is not assigned). *)
Definition val (e : engine) (n : string) : R :=
  match attrs e n with
  | Some v => v
  | None => 0
  end.

(** The numbers the code divides by on a fresh engine from stage 1 up to
    the first table look-up of stage 5, in the order in which it meets
    them (constants and repetitions left out); [self.x] is read from the
    engine of the record once stages 1 to 4 have run. *)
Definition divisors_before_lookup (p : MotorParameters) : list R :=
  let e := prepared p in
  let UN_calc :=
    if is_Y p.(MP.wgco) then p.(MP.UN) / sqrt 3 else p.(MP.UN) in
  let QPM := p.(MP.Q1) / (2 * p.(MP.m) * p.(MP.p))%Z in
  (* calculate_basic_parameters *)
  [ IZR p.(MP.p);
    p.(MP.m) * UN_calc * p.(MP.eff) * p.(MP.cosfi);
    2 * PI * val e "nN" / 60;
    IZR (2 * p.(MP.p)) ]
  (* calculate_winding_parameters *)
  ++ [ IZR (2 * p.(MP.m) * p.(MP.a)); IZR (2 * p.(MP.m) * p.(MP.p)) ]
  ++ (if negb (is_in p.(MP.LE) [1; 2; 3]%Z)
      then [ p.(MP.m) * QPM ] else [])
  ++ [ IZR (2 * p.(MP.m)); (2 * p.(MP.m))%Z * QPM;
       QPM * sin (PI / ((2 * p.(MP.m))%Z * QPM)) ]
  ++ (if is_Y p.(MP.sks) then
        let t1 := PI * p.(MP.Di1) / p.(MP.Q1) in
        let tsk := p.(MP.Q1) * t1 / (p.(MP.Q1) + p.(MP.p))%Z in
        [ IZR p.(MP.Q1); IZR (p.(MP.Q1) + p.(MP.p)); val e "TAO";
          tsk / val e "TAO" * PI ]
      else [])
  (* calculate_geometry_parameters *)
  ++ [ IZR p.(MP.Q1); IZR p.(MP.Q2); IZR (4 * p.(MP.p)) ]
  (* calculate_magnet_parameters *)
  ++ [ MUO * p.(MP.Hc0) * 1000 ]
  (* calculate_no_load_magnetic_circuit, up to the first look-up *)
  ++ [ p.(MP.SIGMA0) * p.(MP.hM) + p.(MP.g);
       p.(MP.SIGMA0);
       0.64 * val e "TAO" * (p.(MP.La) + 2 * p.(MP.g));
       p.(MP.La) * 0.93 * val e "bt1";
       2 * p.(MP.La) * 0.93 * val e "hj1";
       p.(MP.La) * 0.93 * val e "bt2";
       2 * p.(MP.La) * 0.93 * val e "hj2" ].

(** * Theorems *)

(** * Properties of the steel tables and of the interpolation *)

Module SteelFacts.
Import SteelDataTables.

Lemma segment_between (x x0 x1 y0 y1 : R) :
  x0 < x1 -> y0 <= y1 -> x0 <= x <= x1 ->
  y0 <= (y1 - y0) / (x1 - x0) * (x - x0) + y0 <= y1.
Proof.
  intros Hx Hy [Hl Hr].
  assert (Hs : 0 <= (y1 - y0) / (x1 - x0)).
  { apply Rmult_le_pos; [lra | left; apply Rinv_0_lt_compat; lra]. }
  split; [nra |].
  assert (E : y1 = (y1 - y0) / (x1 - x0) * (x1 - x0) + y0) by (field; lra).
  rewrite E at 2. nra.
Qed.

Lemma nondecreasing_hd_last (ys : list R) (y0 : R) :
  nondecreasing (y0 :: ys) -> y0 <= last (y0 :: ys) 0.
Proof.
  revert y0; induction ys as [| y1 ys IH]; intros y0 H.
  - simpl; lra.
  - destruct H as [H01 H]. specialize (IH y1 H).
    change (last (y0 :: y1 :: ys) 0) with (last (y1 :: ys) 0). lra.
Qed.

Lemma np_interp_step (x x0 x1 y0 y1 : R) (xs ys : list R) :
  np_interp x (x0 :: x1 :: xs) (y0 :: y1 :: ys) =
  if Rlt_dec x x1 then
    if Rle_dec x x0 then y0 else (y1 - y0) / (x1 - x0) * (x - x0) + y0
  else np_interp x (x1 :: xs) (y1 :: ys).
Proof. reflexivity. Qed.

(** The polygon stays between the first and the last ordinate. *)
Lemma np_interp_range (xs ys : list R) (x : R) :
  ascending xs -> nondecreasing ys -> List.length xs = List.length ys -> ys <> [] ->
  hd 0 ys <= np_interp x xs ys <= last ys 0.
Proof.
  revert ys; induction xs as [| x0 xs IH]; intros ys Hx Hy Hlen Hne.
  - destruct ys; [congruence | discriminate].
  - destruct ys as [| y0 ys]; [congruence |].
    destruct xs as [| x1 xs]; destruct ys as [| y1 ys]; try discriminate.
    + simpl; lra.
    + destruct Hx as [Hx01 Hx]; destruct Hy as [Hy01 Hy].
      assert (Hl : y1 <= last (y1 :: ys) 0) by (apply nondecreasing_hd_last; exact Hy).
      change (last (y0 :: y1 :: ys) 0) with (last (y1 :: ys) 0).
      rewrite np_interp_step; cbn [hd].
      destruct (Rlt_dec x x1) as [Hlt | Hge].
      * destruct (Rle_dec x x0) as [Hle | Hgt]; [lra |].
        pose proof (segment_between x x0 x1 y0 y1 Hx01 Hy01) as S. lra.
      * specialize (IH (y1 :: ys) Hx Hy). cbn [hd] in IH.
        assert (List.length (x1 :: xs) = List.length (y1 :: ys)) as L by (simpl in *; lia).
        specialize (IH L ltac:(discriminate)). lra.
Qed.

(** The polygon is non-decreasing in the abscissa. *)
Lemma np_interp_mono (xs ys : list R) (u v : R) :
  ascending xs -> nondecreasing ys -> List.length xs = List.length ys ->
  u <= v -> np_interp u xs ys <= np_interp v xs ys.
Proof.
  revert ys; induction xs as [| x0 xs IH]; intros ys Hx Hy Hlen Huv.
  - destruct ys; simpl; lra.
  - destruct ys as [| y0 ys]; [discriminate |].
    destruct xs as [| x1 xs]; destruct ys as [| y1 ys]; try discriminate.
    + simpl; lra.
    + destruct Hx as [Hx01 Hx]; destruct Hy as [Hy01 Hy].
      assert (List.length (x1 :: xs) = List.length (y1 :: ys)) as L by (simpl in *; lia).
      rewrite !np_interp_step.
      destruct (Rlt_dec u x1) as [Hu | Hu]; destruct (Rlt_dec v x1) as [Hv | Hv].
      * assert (Hs : 0 <= (y1 - y0) / (x1 - x0)).
        { apply Rmult_le_pos; [lra | left; apply Rinv_0_lt_compat; lra]. }
        destruct (Rle_dec u x0); destruct (Rle_dec v x0); try lra; nra.
      * pose proof (np_interp_range (x1 :: xs) (y1 :: ys) v Hx Hy L ltac:(discriminate)) as Rg.
        cbn [hd] in Rg.
        destruct (Rle_dec u x0); [lra |].
        pose proof (segment_between u x0 x1 y0 y1 Hx01 Hy01) as S. lra.
      * lra.
      * apply IH; assumption.
Qed.

Lemma linear_interpolation_mono (xs ys : list R) (u v : R) :
  ascending xs -> nondecreasing ys -> List.length xs = List.length ys -> ys <> [] ->
  u <= v -> linear_interpolation xs ys u <= linear_interpolation xs ys v.
Proof.
  intros Hx Hy Hlen Hne Huv. unfold linear_interpolation.
  pose proof (np_interp_range xs ys u Hx Hy Hlen Hne) as Ru.
  pose proof (np_interp_range xs ys v Hx Hy Hlen Hne) as Rv.
  assert (Hhl : hd 0 ys <= last ys 0) by lra.
  destruct (Rle_dec u (hd 0 xs)); destruct (Rle_dec v (hd 0 xs));
    destruct (Rge_dec u (last xs 0)); destruct (Rge_dec v (last xs 0));
    try lra.
  apply np_interp_mono; assumption.
Qed.

Lemma ascending_tail x xs : ascending (x :: xs) -> ascending xs.
Proof. destruct xs; [trivial | intros [_ H]; exact H]. Qed.

(** In an ascending list every later element is above the first. *)
Lemma ascending_above_head x xs :
  ascending (x :: xs) ->
  forall j, (j < List.length xs)%nat -> x < nth j xs 0.
Proof.
  revert x; induction xs as [| y xs IH]; intros x H j Hj; [cbn in Hj; lia |].
  destruct H as [Hxy H]. destruct j as [| j]; [exact Hxy |].
  cbn [nth]. cbn [List.length] in Hj.
  pose proof (IH y H j ltac:(lia)). lra.
Qed.

(** ... and every earlier element is below the last. *)
Lemma ascending_below_last xs :
  ascending xs ->
  forall j, (S j < List.length xs)%nat -> nth j xs 0 < last xs 0.
Proof.
  induction xs as [| x xs IH]; intros H j Hj; [cbn in Hj; lia |].
  destruct xs as [| y xs]; [cbn in Hj; lia |].
  change (last (x :: y :: xs) 0) with (last (y :: xs) 0).
  destruct j as [| j].
  - cbn [nth]. destruct H as [Hxy H].
    destruct xs as [| z xs]; [cbn; lra |].
    pose proof (IH H 0%nat ltac:(cbn; lia)) as L. cbn [nth] in L. lra.
  - cbn [nth]. apply IH; [exact (ascending_tail _ _ H) |].
    cbn [List.length] in *. lia.
Qed.

Lemma last_is_nth (ys : list R) :
  last ys 0 = nth (List.length ys - 1) ys 0.
Proof.
  induction ys as [| y ys IH]; [reflexivity |].
  destruct ys as [| z ys]; [reflexivity |].
  change (last (y :: z :: ys) 0) with (last (z :: ys) 0). rewrite IH.
  cbn [List.length Nat.sub nth]. now rewrite Nat.sub_0_r.
Qed.

(** The polygon passes through its points. *)
Lemma np_interp_at_knot xs :
  forall ys i,
    ascending xs -> List.length xs = List.length ys ->
    (i < List.length xs)%nat ->
    np_interp (nth i xs 0) xs ys = nth i ys 0.
Proof.
  induction xs as [| x0 xs IH]; intros ys i Hx Hl Hi; [cbn in Hi; lia |].
  destruct ys as [| y0 ys]; [discriminate |].
  destruct xs as [| x1 xs]; destruct ys as [| y1 ys]; try discriminate.
  - destruct i as [| i]; [reflexivity | cbn in Hi; lia].
  - rewrite np_interp_step. destruct i as [| i].
    + cbn [nth]. destruct Hx as [H01 _].
      destruct (Rlt_dec x0 x1); [| lra].
      destruct (Rle_dec x0 x0); [reflexivity | lra].
    + change (nth (S i) (x0 :: x1 :: xs) 0) with (nth i (x1 :: xs) 0).
      change (nth (S i) (y0 :: y1 :: ys) 0) with (nth i (y1 :: ys) 0).
      assert (Hge : x1 <= nth i (x1 :: xs) 0).
      { destruct i as [| i]; [cbn; lra |]. cbn [nth].
        pose proof (ascending_above_head x1 xs (proj2 Hx) i
                      ltac:(cbn [List.length] in Hi; lia)). lra. }
      destruct (Rlt_dec (nth i (x1 :: xs) 0) x1); [lra |].
      apply IH; [exact (proj2 Hx) | | ].
      * cbn [List.length] in *. lia.
      * cbn [List.length] in *. lia.
Qed.

Lemma linear_interpolation_range (xs ys : list R) (x : R) :
  ascending xs -> nondecreasing ys -> List.length xs = List.length ys ->
  ys <> [] ->
  hd 0 ys <= linear_interpolation xs ys x <= last ys 0.
Proof.
  intros Hx Hy Hl Hne.
  pose proof (np_interp_range xs ys x Hx Hy Hl Hne) as Rg.
  unfold linear_interpolation.
  destruct (Rle_dec _ _); [lra |]. destruct (Rge_dec _ _); lra.
Qed.

Lemma valid_steel_cases k :
  valid_steel k -> (k = 1 \/ k = 2 \/ k = 3 \/ k = 4 \/ k = 5)%Z.
Proof. unfold valid_steel. lia. Qed.

(** The polygon on one segment of the grid: the chord through the two
    points at its ends, as [np.interp] computes it (slope times the
    distance from the left end, plus the left ordinate). *)
Lemma np_interp_segment xs :
  forall ys i x,
    ascending xs -> List.length xs = List.length ys ->
    (S i < List.length xs)%nat ->
    nth i xs 0 <= x <= nth (S i) xs 0 ->
    np_interp x xs ys =
    (nth (S i) ys 0 - nth i ys 0) / (nth (S i) xs 0 - nth i xs 0)
    * (x - nth i xs 0) + nth i ys 0.
Proof.
  induction xs as [| x0 xs IH]; intros ys i x Hx Hl Hi Hb; [cbn in Hi; lia |].
  destruct ys as [| y0 ys]; [discriminate |].
  destruct xs as [| x1 xs]; destruct ys as [| y1 ys]; try discriminate;
    [cbn in Hi; lia |].
  rewrite np_interp_step. destruct i as [| i].
  - cbn [nth] in *. destruct Hx as [H01 Hx].
    destruct (Rlt_dec x x1) as [Lt | Ge].
    + destruct (Rle_dec x x0) as [Le | Gt]; [| reflexivity].
      replace x with x0 by lra. field. lra.
    + replace x with x1 by lra.
      pose proof (np_interp_at_knot (x1 :: xs) (y1 :: ys) 0 Hx
                    ltac:(cbn [List.length] in *; lia) ltac:(cbn; lia)) as K.
      cbn [nth] in K. rewrite K. field. lra.
  - change (nth (S i) (x0 :: x1 :: xs) 0) with (nth i (x1 :: xs) 0) in *.
    change (nth (S (S i)) (x0 :: x1 :: xs) 0) with (nth (S i) (x1 :: xs) 0) in *.
    change (nth (S i) (y0 :: y1 :: ys) 0) with (nth i (y1 :: ys) 0).
    change (nth (S (S i)) (y0 :: y1 :: ys) 0) with (nth (S i) (y1 :: ys) 0).
    assert (Hge : x1 <= nth i (x1 :: xs) 0).
    { destruct i as [| i]; [cbn; lra |]. cbn [nth].
      pose proof (ascending_above_head x1 xs (proj2 Hx) i
                    ltac:(cbn [List.length] in Hi; lia)). lra. }
    destruct (Rlt_dec x x1); [lra |].
    apply IH; [exact (proj2 Hx) | | | exact Hb].
    + cbn [List.length] in *. lia.
    + cbn [List.length] in *. lia.
Qed.

(** The same for [linear_interpolation]: its two clamping branches are
    taken at the two ends of the grid only, where they return the ordinate
    of the chord. *)
Lemma linear_interpolation_segment xs ys i x :
  ascending xs -> List.length xs = List.length ys ->
  (S i < List.length xs)%nat ->
  nth i xs 0 <= x <= nth (S i) xs 0 ->
  linear_interpolation xs ys x =
  (nth (S i) ys 0 - nth i ys 0) / (nth (S i) xs 0 - nth i xs 0)
  * (x - nth i xs 0) + nth i ys 0.
Proof.
  intros Hx Hl Hi Hb.
  assert (Hs : nth i xs 0 < nth (S i) xs 0).
  { destruct xs as [| x0 xs]; [cbn in Hi; lia |].
    clear Hb Hl. revert x0 xs Hx Hi.
    induction i as [| i IH]; intros x0 xs Hx Hi.
    - destruct xs as [| x1 xs]; [cbn in Hi; lia |]. exact (proj1 Hx).
    - destruct xs as [| x1 xs]; [cbn in Hi; lia |].
      change (nth (S i) (x0 :: x1 :: xs) 0) with (nth i (x1 :: xs) 0).
      change (nth (S (S i)) (x0 :: x1 :: xs) 0)
        with (nth (S i) (x1 :: xs) 0).
      apply IH; [exact (proj2 Hx) | cbn [List.length] in *; lia]. }
  unfold linear_interpolation.
  destruct xs as [| x0 xs]; [cbn in Hi; lia |].
  destruct ys as [| y0 ys]; [discriminate |].
  cbn [hd].
  destruct (Rle_dec x x0) as [L | L].
  - destruct i as [| i].
    + cbn [nth] in *. replace x with x0 by lra.
      destruct xs as [| x1 xs]; [cbn in Hi; lia |].
      destruct ys as [| y1 ys]; [discriminate |].
      cbn [nth] in *. field. lra.
    + cbn [nth] in Hb.
      pose proof (ascending_above_head x0 xs Hx i
                    ltac:(cbn [List.length] in Hi; lia)). lra.
  - destruct (Rge_dec x (last (x0 :: xs) 0)) as [G | G].
    + destruct (Nat.lt_ge_cases (S (S i)) (List.length (x0 :: xs)))
        as [Lt | Ge].
      * pose proof (ascending_below_last _ Hx (S i) Lt). lra.
      * assert (Ei : S i = (List.length (x0 :: xs) - 1)%nat) by lia.
        assert (Ex : x = nth (S i) (x0 :: xs) 0).
        { pose proof (last_is_nth (x0 :: xs)) as E. rewrite <- Ei in E.
          lra. }
        rewrite (last_is_nth (y0 :: ys)), <- Hl, <- Ei, Ex.
        field. lra.
    + apply np_interp_segment; assumption.
Qed.

Lemma ascending_B_data : ascending B_data.
Proof. unfold B_data; simpl; repeat split; lra. Qed.

(** Case analysis on a dictionary key: only the keys 1 to 5 are bound. *)
Ltac case_key k E :=
  destruct k as [| k | k]; try discriminate E;
  do 3 (try (destruct k as [k | k |]; try discriminate E)).

Lemma H_data_ok (k : Z) (H : list R) : H_data k = Some H -> table_ok H.
Proof.
  unfold H_data. intros E.
  case_key k E; injection E as <-;
    (split; [simpl; repeat split; lra | reflexivity]).
Qed.

Lemma P_data_ok (k : Z) (P : list R) : P_data k = Some P -> table_ok P.
Proof.
  unfold P_data. intros E.
  case_key k E; injection E as <-;
    (split; [simpl; repeat split; lra | reflexivity]).
Qed.

End SteelFacts.

(** * Reasoning about methods *)

Lemma extends_refl e : extends e e.
Proof.
  repeat split; auto. exists []. now rewrite app_nil_r.
Qed.

Lemma extends_trans e1 e2 e3 : extends e1 e2 -> extends e2 e3 -> extends e1 e3.
Proof.
  intros (P1 & R1 & [o1 O1] & A1) (P2 & R2 & [o2 O2] & A2).
  repeat split; try congruence; auto.
  exists (o1 ++ o2). rewrite O2, O1. now rewrite app_assoc.
Qed.

Lemma frame_ret {A} (x : A) : frame (ret x).
Proof. intros e; apply extends_refl. Qed.

Lemma frame_raise {A} ex : frame (@raise A ex).
Proof. intros e; apply extends_refl. Qed.

Lemma frame_lift {A} (r : exn + A) : frame (lift r).
Proof. intros e; apply extends_refl. Qed.

Lemma frame_self_params : frame self_params.
Proof. intros e; apply extends_refl. Qed.

Lemma frame_self n : frame (self n).
Proof. intros e; unfold self; destruct (attrs e n); apply extends_refl. Qed.

Lemma frame_setattr n x : frame (setattr n x).
Proof.
  intros e; repeat split; cbn; auto.
  - exists []. now rewrite app_nil_r.
  - intros k Hk. destruct (String.eqb k n); [discriminate | exact Hk].
Qed.

Lemma frame_print l : frame (print l).
Proof. intros e; repeat split; cbn; auto. now exists [l]. Qed.

Lemma frame_bind {A B} (c : M A) (k : A -> M B) :
  frame c -> (forall x, frame (k x)) -> frame (bind c k).
Proof.
  intros Hc Hk e. unfold bind. specialize (Hc e).
  destruct (c e) as [e' [ex | x]]; cbn in *; [exact Hc |].
  eapply extends_trans; [exact Hc | apply Hk].
Qed.

Lemma covers_has big small n :
  covers big small = true -> has small n = true -> has big n = true.
Proof.
  unfold covers, has. rewrite forallb_forall, !existsb_exists.
  intros H (k & Hin & E). apply String.eqb_eq in E; subst k.
  specialize (H n Hin). now apply existsb_exists in H.
Qed.

Lemma returns_conseq p pre pre' {A} (c : M A) post post' :
  returns p pre' c post' ->
  covers pre pre' = true -> covers post' post = true ->
  returns p pre c post.
Proof.
  intros H C1 C2 e Hp Ha.
  destruct (H e Hp) as (x & E & P & Q).
  - intros n Hn. apply Ha. eapply covers_has; eauto.
  - exists x. repeat split; auto.
    intros n Hn. apply Q. eapply covers_has; eauto.
Qed.

Lemma returns_ret p W {A} (x : A) : returns p W (ret x) W.
Proof. intros e Hp Ha. exists x. auto. Qed.

Lemma returns_lift p W {A} (x : A) : returns p W (lift (inr x)) W.
Proof. intros e Hp Ha. exists x. auto. Qed.

Lemma returns_bind p W W1 W2 {A B} (c : M A) (k : A -> M B) :
  returns p W c W1 -> (forall x, returns p W1 (k x) W2) ->
  returns p W (bind c k) W2.
Proof.
  intros Hc Hk e Hp Ha. unfold bind.
  destruct (Hc e Hp Ha) as (x & E & P & Q).
  destruct (c e) as [e' r]; cbn in *; subst r.
  apply Hk; assumption.
Qed.

Lemma returns_params p W W' {B} (k : MotorParameters -> M B) :
  returns p W (k p) W' -> returns p W (bind self_params k) W'.
Proof.
  intros Hk e Hp Ha. unfold bind, self_params. rewrite Hp.
  apply Hk; assumption.
Qed.

Lemma returns_self p W n : has W n = true -> returns p W (self n) W.
Proof.
  intros Hn e Hp Ha. unfold self.
  pose proof (Ha n Hn) as Hx. destruct (attrs e n) as [x |]; [| congruence].
  exists x. cbn. auto.
Qed.

Lemma returns_setattr p W n x : returns p W (setattr n x) (n :: W).
Proof.
  intros e Hp Ha. exists tt. cbn. repeat split; auto.
  intros k Hk. unfold has in Hk. cbn in Hk.
  cbn. destruct (String.eqb k n); [discriminate |].
  apply Ha. exact Hk.
Qed.

Lemma returns_print p W l : returns p W (print l) W.
Proof. intros e Hp Ha. exists tt. cbn. auto. Qed.

Lemma returns_set_results p W r : returns p W (set_results r) W.
Proof. intros e Hp Ha. exists tt. cbn. auto. Qed.

Lemma agree_covers W W' r e1 e2 :
  covers W W' = true -> agree W r e1 e2 -> agree W' r e1 e2.
Proof.
  intros C (P & H & R). repeat split; auto.
  intros n Hn. apply H. eapply covers_has; eauto.
Qed.

Lemma indep_conseq W1 W1' W2 W2' r r' {A} (c : M A) :
  indep W1' r c W2' r' -> covers W1 W1' = true -> covers W2' W2 = true ->
  indep W1 r c W2 r'.
Proof.
  intros H C1 C2 e1 e2 Ha.
  destruct (H e1 e2 (agree_covers _ _ _ _ _ C1 Ha)) as [E Q].
  split; auto. intros x Hx. eapply agree_covers; eauto.
Qed.

Lemma indep_ret W r {A} (x : A) : indep W r (ret x) W r.
Proof. intros e1 e2 Ha. cbn. auto. Qed.

Lemma indep_lift W r {A} (v : exn + A) : indep W r (lift v) W r.
Proof. intros e1 e2 Ha. cbn. auto. Qed.

Lemma indep_bind W W1 W2 r r1 r2 {A B} (c : M A) (k : A -> M B) :
  indep W r c W1 r1 -> (forall x, indep W1 r1 (k x) W2 r2) ->
  indep W r (bind c k) W2 r2.
Proof.
  intros Hc Hk e1 e2 Ha. unfold bind.
  destruct (Hc e1 e2 Ha) as [E Q].
  destruct (c e1) as [e1' v1]; destruct (c e2) as [e2' v2]; cbn in *.
  subst v2. destruct v1 as [ex | x]; cbn.
  - split; [reflexivity | discriminate].
  - apply (Hk x). apply (Q x). reflexivity.
Qed.

Lemma indep_params W W' r r' {B} (k : MotorParameters -> M B) :
  (forall p, indep W r (k p) W' r') -> indep W r (bind self_params k) W' r'.
Proof.
  intros Hk e1 e2 Ha. unfold bind, self_params.
  pose proof Ha as [P H]. rewrite P. apply Hk. exact Ha.
Qed.

Lemma indep_self W r n : has W n = true -> indep W r (self n) W r.
Proof.
  intros Hn e1 e2 (P & H & R). unfold self. rewrite (H n Hn).
  destruct (attrs e2 n); cbn; split; auto; try discriminate.
  intros _ _. repeat split; auto.
Qed.

Lemma indep_setattr W r n x : indep W r (setattr n x) (n :: W) r.
Proof.
  intros e1 e2 (P & H & R). cbn. split; auto. intros _ _.
  repeat split; auto.
  cbn. intros k Hk. unfold has in Hk; cbn in Hk.
  destruct (String.eqb k n); [reflexivity | auto].
Qed.

Lemma indep_print W r l : indep W r (print l) W r.
Proof.
  intros e1 e2 (P & H & R). cbn. split; auto. intros _ _.
  repeat split; auto.
Qed.

Lemma indep_set_results W r v : indep W r (set_results v) W true.
Proof.
  intros e1 e2 (P & H & R). cbn. split; auto. intros _ _.
  repeat split; auto.
Qed.

(** ** Stepping through a method body *)

Ltac frame_step :=
  lazymatch goal with
  | |- frame (bind _ _) => apply frame_bind; [| intro]
  | |- frame (ret _) => apply frame_ret
  | |- frame (lift _) => apply frame_lift
  | |- frame self_params => apply frame_self_params
  | |- frame (self _) => apply frame_self
  | |- frame (setattr _ _) => apply frame_setattr
  | |- frame (print _) => apply frame_print
  | |- frame (if ?b then _ else _) => destruct b
  | |- frame (let x := _ in _) => cbv zeta
  | |- frame (match ?m with O => _ | S _ => _ end) => destruct m
  end.

Ltac returns_step :=
  lazymatch goal with
  | |- returns _ _ (bind self_params _) _ => apply returns_params
  | |- returns _ _ (bind _ _) _ => eapply returns_bind; [| intro]
  | |- returns _ _ (ret _) _ => apply returns_ret
  | |- returns _ _ (lift (inr _)) _ => apply returns_lift
  | |- returns _ _ (self _) _ => apply returns_self; reflexivity
  | |- returns _ _ (setattr _ _) _ => apply returns_setattr
  | |- returns _ _ (print _) _ => apply returns_print
  | |- returns _ _ (set_results _) _ => apply returns_set_results
  | |- returns _ _ (if ?b then _ else _) _ => destruct b
  | |- returns _ _ (let x := _ in _) _ => cbv zeta
  end.

Ltac indep_step :=
  lazymatch goal with
  | |- indep _ _ (bind self_params _) _ _ => apply indep_params; intro
  | |- indep _ _ (bind _ _) _ _ => eapply indep_bind; [| intro]
  | |- indep _ _ (ret _) _ _ => apply indep_ret
  | |- indep _ _ (lift _) _ _ => apply indep_lift
  | |- indep _ _ (self _) _ _ => apply indep_self; reflexivity
  | |- indep _ _ (setattr _ _) _ _ => apply indep_setattr
  | |- indep _ _ (print _) _ _ => apply indep_print
  | |- indep _ _ (set_results _) _ _ => apply indep_set_results
  | |- indep _ _ (if ?b then _ else _) _ _ => destruct b
  | |- indep _ _ (let x := _ in _) _ _ => cbv zeta
  end.


Lemma returns_post p pre {A} (c : M A) post post' :
  returns p pre c post' -> covers post' post = true -> returns p pre c post.
Proof.
  intros H C. eapply returns_conseq; [exact H | | exact C].
  unfold covers. apply forallb_forall. intros n Hn.
  unfold has. apply existsb_exists. exists n. split; auto.
  apply String.eqb_refl.
Qed.

Lemma indep_post W r {A} (c : M A) W1 W2 r' :
  indep W r c W1 r' -> covers W1 W2 = true -> indep W r c W2 r'.
Proof.
  intros H C. eapply indep_conseq; [exact H | | exact C].
  unfold covers. apply forallb_forall. intros n Hn.
  unfold has. apply existsb_exists. exists n. split; auto.
  apply String.eqb_refl.
Qed.

Lemma attrs_upd n x e k :
  attrs (upd n x e) k = if String.eqb k n then Some x else attrs e k.
Proof. reflexivity. Qed.

Lemma attrs_out l e k : attrs (out l e) k = attrs e k.
Proof. reflexivity. Qed.

Lemma stdout_upd n x e : stdout (upd n x e) = stdout e.
Proof. reflexivity. Qed.

Lemma stdout_out l e : stdout (out l e) = (stdout e ++ [l])%list.
Proof. reflexivity. Qed.

Lemma results_upd n x e : results (upd n x e) = results e.
Proof. reflexivity. Qed.

Lemma results_out l e : results (out l e) = results e.
Proof. reflexivity. Qed.

Lemma params_upd n x e : params (upd n x e) = params e.
Proof. reflexivity. Qed.

Lemma params_out l e : params (out l e) = params e.
Proof. reflexivity. Qed.

Lemma announced_out e :
  announced e =
  out (Banner (SteelDataTables.get_steel_name (params e).(MP.steel_type))) e.
Proof. reflexivity. Qed.

(** Projections of an engine built by [upd] and [out]. *)
Ltac project :=
  rewrite ?announced_out;
  repeat first [ rewrite stdout_upd | rewrite stdout_out
               | rewrite results_upd | rewrite results_out
               | rewrite params_upd | rewrite params_out
               | rewrite attrs_upd | rewrite attrs_out ].

Lemma wp_ret {A} (x : A) Q e : Q e (inr x) -> wp (ret x) Q e.
Proof. exact (fun H => H). Qed.

Lemma wp_lift {A} (r : exn + A) Q e : Q e r -> wp (lift r) Q e.
Proof. exact (fun H => H). Qed.

Lemma wp_setattr n x Q e : Q (upd n x e) (inr tt) -> wp (setattr n x) Q e.
Proof. exact (fun H => H). Qed.

Lemma wp_print l Q e : Q (out l e) (inr tt) -> wp (print l) Q e.
Proof. exact (fun H => H). Qed.

Lemma wp_self n x Q e : attrs e n = Some x -> Q e (inr x) -> wp (self n) Q e.
Proof. unfold wp, self. intros ->. exact (fun H => H). Qed.

Lemma wp_bind {A B} (c : M A) (k : A -> M B) Q e :
  wp c (fun e' r =>
          match r with
          | inl ex => Q e' (inl ex)
          | inr x => wp (k x) Q e'
          end) e ->
  wp (bind c k) Q e.
Proof.
  unfold wp, bind. destruct (c e) as [e' [ex | x]]; exact (fun H => H).
Qed.

Lemma wp_bind_params {B} (k : MotorParameters -> M B) Q e p :
  params e = p -> wp (k p) Q e -> wp (bind self_params k) Q e.
Proof. intros <-. exact (fun H => H). Qed.

Lemma wp_bind_self {B} n x (k : R -> M B) Q e :
  attrs e n = Some x -> wp (k x) Q e -> wp (bind (self n) k) Q e.
Proof. unfold wp, bind, self. intros ->. exact (fun H => H). Qed.

Lemma wp_bind_self_unset {B} n (k : R -> M B) Q e :
  attrs e n = None -> Q e (inl (AttributeError n)) ->
  wp (bind (self n) k) Q e.
Proof. unfold wp, bind, self. intros ->. exact (fun H => H). Qed.

Lemma wp_bind_setattr {B} n x (k : unit -> M B) Q e :
  (forall v, v = x -> wp (k tt) Q (upd n v e)) ->
  wp (bind (setattr n x) k) Q e.
Proof. intros H. exact (H x eq_refl). Qed.

Lemma wp_bind_print {B} l (k : unit -> M B) Q e :
  wp (k tt) Q (out l e) -> wp (bind (print l) k) Q e.
Proof. exact (fun H => H). Qed.

Lemma wp_bind_ret {A B} (x : A) (k : A -> M B) Q e :
  wp (k x) Q e -> wp (bind (ret x) k) Q e.
Proof. exact (fun H => H). Qed.

Lemma wp_bind_lift {A B} (r : exn + A) (k : A -> M B) Q e :
  match r with
  | inl ex => Q e (inl ex)
  | inr x => wp (k x) Q e
  end ->
  wp (bind (lift r) k) Q e.
Proof. unfold wp, bind, lift. destruct r; exact (fun H => H). Qed.

Lemma wp_bind_assoc {A B C} (c : M A) (k1 : A -> M B) (k2 : B -> M C) Q e :
  wp (bind c (fun x => bind (k1 x) k2)) Q e ->
  wp (bind (bind c k1) k2) Q e.
Proof.
  unfold wp, bind. destruct (c e) as [e1 [ex | x]]; exact (fun H => H).
Qed.

Lemma wp_last_setattr n x Q e :
  (forall v, v = x -> Q (upd n v e) (inr tt)) -> wp (setattr n x) Q e.
Proof. intros H. exact (H x eq_refl). Qed.

(** An attribute of an engine built by [upd] and [out] over a base engine:
    found by evaluation, or by what is known of the base engine. *)
Ltac lookup := first [ reflexivity | eassumption ].

Ltac lookup_params :=
  rewrite ?announced_out;
  repeat first [ rewrite params_upd | rewrite params_out ];
  first [ eassumption | cbn [params new_engine]; reflexivity ].

Ltac wp_step :=
  lazymatch goal with
  | |- wp (bind (bind _ _) _) _ _ => apply wp_bind_assoc
  | |- wp (bind self_params _) _ _ =>
      eapply wp_bind_params; [lookup_params |]
  | |- wp (bind (self _) _) _ _ => eapply wp_bind_self; [lookup |]
  | |- wp (bind (setattr _ _) _) _ _ =>
      apply wp_bind_setattr; let v := fresh "v" in
                             let E := fresh "E" v in intros v E
  | |- wp (bind (print _) _) _ _ => apply wp_bind_print
  | |- wp (bind (ret _) _) _ _ => apply wp_bind_ret
  | |- wp (bind (lift _) _) _ _ => apply wp_bind_lift
  | |- wp (bind (if ?b then _ else _) _) _ _ => destruct b eqn:?
  | |- wp (if ?b then _ else _) _ _ => destruct b eqn:?
  | |- wp (setattr _ _) _ _ =>
      apply wp_last_setattr; let v := fresh "v" in
                             let E := fresh "E" v in intros v E
  | |- wp (ret _) _ _ => apply wp_ret
  | |- wp (print _) _ _ => apply wp_print
  | |- wp (let x := _ in _) _ _ => cbv zeta
  | |- wp (bind (let x := _ in _) _) _ _ => cbv zeta
  end.

Ltac wp_run := repeat wp_step.

Lemma wp_bind_self_cases {B} n (k : R -> M B) Q e :
  (forall x, attrs e n = Some x -> wp (k x) Q e) ->
  (attrs e n = None -> Q e (inl (AttributeError n))) ->
  wp (bind (self n) k) Q e.
Proof.
  unfold wp, bind, self. intros HS HN.
  destruct (attrs e n) as [x |]; [exact (HS x eq_refl) | exact (HN eq_refl)].
Qed.

Lemma wp_bind_run {A B} (c : M A) (k : A -> M B) Q e e1 x :
  c e = (e1, inr x) -> wp (k x) Q e1 -> wp (bind c k) Q e.
Proof. unfold wp, bind. intros ->. exact (fun H => H). Qed.

(** A step that also follows a read of an attribute nothing is known of:
    in both cases, and a table look-up in both outcomes. *)
Ltac wp_step_cases :=
  lazymatch goal with
  | |- wp (bind (self _) _) _ _ =>
      first [ eapply wp_bind_self; [lookup |]
            | apply wp_bind_self_cases;
              [ let x := fresh "x" in
                let H := fresh "H" x in intros x H
              | let H := fresh "Hunset" in intros H ] ]
  | |- wp (bind (lift ?r) _) _ _ =>
      apply wp_bind_lift; destruct r
  | _ => wp_step
  end.

(** * Stage by stage *)

Section StageLemmas.
Local Open Scope string_scope.

Lemma valid_steel_H k :
  valid_steel k -> exists H, SteelDataTables.H_data k = Some H.
Proof.
  intros [L U].
  assert (k = 1 \/ k = 2 \/ k = 3 \/ k = 4 \/ k = 5)%Z as C by lia.
  destruct C as [-> | [-> | [-> | [-> | ->]]]]; eexists; reflexivity.
Qed.

Lemma valid_steel_P k :
  valid_steel k -> exists P, SteelDataTables.P_data k = Some P.
Proof.
  intros [L U].
  assert (k = 1 \/ k = 2 \/ k = 3 \/ k = 4 \/ k = 5)%Z as C by lia.
  destruct C as [-> | [-> | [-> | [-> | ->]]]]; eexists; reflexivity.
Qed.

Lemma invalid_steel_H k : ~ valid_steel k -> SteelDataTables.H_data k = None.
Proof.
  unfold valid_steel. intros N.
  destruct k as [| q | q]; try reflexivity.
  do 3 (try (destruct q as [q | q |]; try reflexivity)); exfalso; lia.
Qed.

Ltac by_frame c := unfold c; repeat frame_step.
Ltac by_returns c :=
  eapply returns_post; [ unfold c; repeat returns_step | reflexivity ].
Ltac by_indep c :=
  eapply indep_post; [ unfold c; repeat indep_step | reflexivity ].

Lemma frame_gap_factor : frame calculate_gap_factor.
Proof. by_frame calculate_gap_factor. Qed.

Lemma frame_loop_body bm : frame (loop_body bm).
Proof. unfold loop_body. repeat (apply frame_gap_factor || frame_step). Qed.

Lemma for_range_step more start bm01 :
  for_range more start bm01 =
  (l <- loop_body bm01 ;;
   if converged bm01 l.(bm0) then
     print (IterConverged (start + 1) l.(bm0)) ;; ret (start, l)
   else
     (if (start mod 5 =? 0)%nat
      then print (IterProgress (start + 1) l.(bm0)) else ret tt) ;;
     match more with
     | O => ret (start, l)
     | S more' => for_range more' (S start) ((bm01 + l.(bm0)) / 2)
     end).
Proof. destruct more; reflexivity. Qed.

Lemma frame_for_range more : forall start bm, frame (for_range more start bm).
Proof.
  induction more as [| more IH]; intros start bm; rewrite for_range_step;
    repeat (apply frame_loop_body || apply IH || frame_step).
Qed.

Lemma frame_stages : Forall (fun c : M unit => frame c) stages.
Proof.
  unfold stages. repeat (apply Forall_cons; [| ]); [ .. | apply Forall_nil ].
  - by_frame calculate_basic_parameters.
  - by_frame calculate_winding_parameters.
  - by_frame calculate_geometry_parameters.
  - by_frame calculate_magnet_parameters.
  - unfold calculate_no_load_magnetic_circuit.
    repeat (apply frame_for_range || apply frame_gap_factor || frame_step).
  - unfold calculate_impedances.
    repeat (apply frame_gap_factor || frame_step).
  - by_frame calculate_performance.
  - by_frame calculate_material_weights.
  - by_frame calculate_losses.
  - by_frame calculate_starting_characteristics.
  - by_frame calculate_actual_performance.
Qed.

(** *** Every stage returns once its predecessors have run *)

Section Returns.
Variable p : MotorParameters.

Lemma returns_gap_factor W :
  has W "t1" = true -> has W "t2" = true ->
  returns p W calculate_gap_factor W.
Proof.
  intros H1 H2. unfold calculate_gap_factor.
  apply returns_params.
  eapply returns_bind; [apply returns_self; exact H1 | intro].
  cbv zeta.
  eapply returns_bind; [apply returns_self; exact H2 | intro].
  apply returns_ret.
Qed.

Ltac returns_auto :=
  repeat (first [ apply returns_gap_factor; reflexivity | returns_step ]).

Lemma returns_stage1 :
  returns p (assigned_after 0) calculate_basic_parameters (assigned_after 1).
Proof. by_returns calculate_basic_parameters. Qed.

Lemma returns_stage2 :
  returns p (assigned_after 1) calculate_winding_parameters
    (assigned_after 2).
Proof. by_returns calculate_winding_parameters. Qed.

Lemma returns_stage3 :
  returns p (assigned_after 2) calculate_geometry_parameters
    (assigned_after 3).
Proof. by_returns calculate_geometry_parameters. Qed.

Lemma returns_stage4 :
  returns p (assigned_after 3) calculate_magnet_parameters
    (assigned_after 4).
Proof. by_returns calculate_magnet_parameters. Qed.

Hypothesis steel_ok : valid_steel p.(MP.steel_type).

Lemma returns_BH W B :
  returns p W (lift (SteelDataTables.get_BH_curve B p.(MP.steel_type))) W.
Proof.
  destruct (valid_steel_H _ steel_ok) as [H E].
  unfold SteelDataTables.get_BH_curve. rewrite E. apply returns_lift.
Qed.

Lemma returns_loss W B :
  returns p W (lift (SteelDataTables.get_iron_loss B p.(MP.steel_type))) W.
Proof.
  destruct (valid_steel_P _ steel_ok) as [P E].
  unfold SteelDataTables.get_iron_loss. rewrite E. apply returns_lift.
Qed.

Lemma returns_loop_body_first bm :
  returns p (assigned_after 4) (loop_body bm) in_loop.
Proof.
  eapply returns_post;
  [ unfold loop_body;
    repeat (first [ apply returns_BH
                  | apply returns_gap_factor; reflexivity
                  | returns_step ])
  | reflexivity ].
Qed.

Lemma returns_loop_body bm : returns p in_loop (loop_body bm) in_loop.
Proof.
  eapply returns_conseq;
    [ apply returns_loop_body_first | reflexivity | reflexivity ].
Qed.

Lemma returns_for_range more :
  forall start bm, returns p in_loop (for_range more start bm) in_loop.
Proof.
  induction more as [| more IH]; intros start bm; rewrite for_range_step;
    repeat (first [ apply returns_loop_body | apply IH | returns_step ]).
Qed.

Lemma returns_for_range_first more start bm :
  returns p (assigned_after 4) (for_range more start bm) in_loop.
Proof.
  rewrite for_range_step.
  eapply returns_bind; [apply returns_loop_body_first | intro l].
  destruct more;
    repeat (first [ apply returns_for_range | returns_step ]).
Qed.

Lemma returns_stage5 :
  returns p (assigned_after 4) calculate_no_load_magnetic_circuit
    (assigned_after 5).
Proof.
  eapply returns_post;
  [ unfold calculate_no_load_magnetic_circuit;
    repeat (first [ apply returns_for_range_first
                  | apply returns_gap_factor; reflexivity
                  | returns_step ])
  | reflexivity ].
Qed.

Lemma returns_stage6 :
  returns p (assigned_after 5) calculate_impedances (assigned_after 6).
Proof.
  eapply returns_post;
  [ unfold calculate_impedances;
    repeat (first [ apply returns_gap_factor; reflexivity | returns_step ])
  | reflexivity ].
Qed.

Lemma returns_stage7 :
  returns p (assigned_after 6) calculate_performance (assigned_after 7).
Proof. by_returns calculate_performance. Qed.

Lemma returns_stage8 :
  returns p (assigned_after 7) calculate_material_weights (assigned_after 8).
Proof. by_returns calculate_material_weights. Qed.

Lemma returns_stage9 :
  returns p (assigned_after 8) calculate_losses (assigned_after 9).
Proof.
  eapply returns_post;
  [ unfold calculate_losses;
    repeat (first [ apply returns_loss | returns_step ])
  | reflexivity ].
Qed.

Lemma returns_stage10 :
  returns p (assigned_after 9) calculate_starting_characteristics
    (assigned_after 10).
Proof. by_returns calculate_starting_characteristics. Qed.

Lemma returns_stage11 :
  returns p (assigned_after 10) calculate_actual_performance
    (assigned_after 11).
Proof. by_returns calculate_actual_performance. Qed.

Lemma returns_save :
  returns p (assigned_after 11) save_complete_results (assigned_after 11).
Proof.
  eapply returns_post;
  [ unfold save_complete_results, rounded; cbn [entries];
    repeat (first [ apply returns_gap_factor; reflexivity | returns_step ])
  | reflexivity ].
Qed.

End Returns.

(** *** No stage reads an attribute left by an earlier run *)

Section Indep.
Variable r : bool.

Lemma indep_gap_factor W :
  has W "t1" = true -> has W "t2" = true ->
  indep W r calculate_gap_factor W r.
Proof.
  intros H1 H2. unfold calculate_gap_factor.
  apply indep_params; intro p.
  eapply indep_bind; [apply indep_self; exact H1 | intro].
  cbv zeta.
  eapply indep_bind; [apply indep_self; exact H2 | intro].
  apply indep_ret.
Qed.

Ltac indep_auto :=
  repeat (first [ apply indep_gap_factor; reflexivity | indep_step ]).

Lemma indep_stage1 :
  indep (assigned_after 0) r calculate_basic_parameters (assigned_after 1) r.
Proof. by_indep calculate_basic_parameters. Qed.

Lemma indep_stage2 :
  indep (assigned_after 1) r calculate_winding_parameters
    (assigned_after 2) r.
Proof. by_indep calculate_winding_parameters. Qed.

Lemma indep_stage3 :
  indep (assigned_after 2) r calculate_geometry_parameters
    (assigned_after 3) r.
Proof. by_indep calculate_geometry_parameters. Qed.

Lemma indep_stage4 :
  indep (assigned_after 3) r calculate_magnet_parameters
    (assigned_after 4) r.
Proof. by_indep calculate_magnet_parameters. Qed.

Lemma indep_loop_body_first bm :
  indep (assigned_after 4) r (loop_body bm) in_loop r.
Proof.
  eapply indep_post; [ unfold loop_body; indep_auto | reflexivity ].
Qed.

Lemma indep_loop_body bm : indep in_loop r (loop_body bm) in_loop r.
Proof.
  eapply indep_conseq;
    [ apply indep_loop_body_first | reflexivity | reflexivity ].
Qed.

Lemma indep_for_range more :
  forall start bm, indep in_loop r (for_range more start bm) in_loop r.
Proof.
  induction more as [| more IH]; intros start bm; rewrite for_range_step;
    repeat (first [ apply indep_loop_body | apply IH | indep_step ]).
Qed.

Lemma indep_for_range_first more start bm :
  indep (assigned_after 4) r (for_range more start bm) in_loop r.
Proof.
  rewrite for_range_step.
  eapply indep_bind; [apply indep_loop_body_first | intro l].
  destruct more;
    repeat (first [ apply indep_for_range | indep_step ]).
Qed.

Lemma indep_stage5 :
  indep (assigned_after 4) r calculate_no_load_magnetic_circuit
    (assigned_after 5) r.
Proof.
  eapply indep_post;
  [ unfold calculate_no_load_magnetic_circuit;
    repeat (first [ apply indep_for_range_first
                  | apply indep_gap_factor; reflexivity
                  | indep_step ])
  | reflexivity ].
Qed.

Lemma indep_stage6 :
  indep (assigned_after 5) r calculate_impedances (assigned_after 6) r.
Proof.
  eapply indep_post; [ unfold calculate_impedances; indep_auto | reflexivity ].
Qed.

Lemma indep_stage7 :
  indep (assigned_after 6) r calculate_performance (assigned_after 7) r.
Proof. by_indep calculate_performance. Qed.

Lemma indep_stage8 :
  indep (assigned_after 7) r calculate_material_weights (assigned_after 8) r.
Proof. by_indep calculate_material_weights. Qed.

Lemma indep_stage9 :
  indep (assigned_after 8) r calculate_losses (assigned_after 9) r.
Proof. by_indep calculate_losses. Qed.

Lemma indep_stage10 :
  indep (assigned_after 9) r calculate_starting_characteristics
    (assigned_after 10) r.
Proof. by_indep calculate_starting_characteristics. Qed.

Lemma indep_stage11 :
  indep (assigned_after 10) r calculate_actual_performance
    (assigned_after 11) r.
Proof. by_indep calculate_actual_performance. Qed.

Lemma indep_save :
  indep (assigned_after 11) r save_complete_results (assigned_after 11) true.
Proof.
  eapply indep_post;
  [ unfold save_complete_results, rounded; cbn [entries]; indep_auto
  | reflexivity ].
Qed.

End Indep.

End StageLemmas.

(** * The pipeline as a whole *)

Lemma run_stages_cons k c l e :
  run_stages k (c :: l) e =
  match c (fst (print (StageLine k) e)) with
  | (e', inr _) => run_stages (S k) l e'
  | (e', inl ex) => (e', inl ex)
  end.
Proof. reflexivity. Qed.

Lemma run_stages_app l1 l2 k e :
  run_stages k (l1 ++ l2) e =
  match run_stages k l1 e with
  | (e', inr _) => run_stages (k + List.length l1) l2 e'
  | (e', inl ex) => (e', inl ex)
  end.
Proof.
  revert k e; induction l1 as [| c l1 IH]; intros k e.
  - cbn. now rewrite Nat.add_0_r.
  - cbn [app List.length]. rewrite !run_stages_cons.
    destruct (c (fst (print (StageLine k) e))) as [e2 [ex | u]];
      [reflexivity |].
    rewrite IH. now rewrite Nat.add_succ_r.
Qed.

Lemma frame_run_stages l :
  Forall (fun c : M unit => frame c) l -> forall k, frame (run_stages k l).
Proof.
  induction 1 as [| c l Hc Hl IH]; intros k; cbn [run_stages].
  - apply frame_ret.
  - repeat (assumption || apply IH || frame_step).
Qed.

(** When the last stage of a prefix raises, so does every longer list of
    stages, from the same engine and leaving the same engine. *)
Lemma run_stages_raises before stage after k e ex :
  snd (run_stages k (before ++ [stage]) e) = inl ex ->
  run_stages k (before ++ stage :: after) e =
  run_stages k (before ++ [stage]) e.
Proof.
  rewrite !run_stages_app.
  destruct (run_stages k before e) as [e1 [ex1 | u]]; [reflexivity |].
  rewrite !run_stages_cons.
  destruct (stage (fst (print (StageLine (k + List.length before)) e1)))
    as [e3 [ex3 | u3]]; [reflexivity |].
  cbn. discriminate.
Qed.

Lemma calculate_all_with_raises stages save e e' ex :
  run_stages 1 stages (announced e) = (e', inl ex) ->
  calculate_all_with stages save e =
  (fst (print (ErrorLine ex) e'),
   inr (false, ("计算错误: " ++ str ex)%string)).
Proof.
  intros H. unfold calculate_all_with, try_except, bind, self_params.
  cbn [fst snd]. fold (announced e).
  change (print (Banner (SteelDataTables.get_steel_name
                           (MP.steel_type (params e)))) e)
    with (announced e, @inr exn unit tt).
  cbv beta iota. rewrite H. reflexivity.
Qed.

Lemma calculate_all_with_returns stages save e e1 e2 :
  run_stages 1 stages (announced e) = (e1, inr tt) ->
  save (fst (print Finished e1)) = (e2, inr tt) ->
  calculate_all_with stages save e = (e2, inr (true, "计算完成"%string)).
Proof.
  intros H1 H2. unfold calculate_all_with, try_except, bind, self_params.
  change (print (Banner (SteelDataTables.get_steel_name
                           (MP.steel_type (params e)))) e)
    with (announced e, @inr exn unit tt).
  cbv beta iota. rewrite H1.
  change (print Finished e1) with (fst (print Finished e1), @inr exn unit tt).
  cbv beta iota. rewrite H2. reflexivity.
Qed.

(** C7.  Whatever the stage methods are, as long as they leave [results]
    alone: when the stages before some stage return and that stage raises,
    [calculate_all] returns the failure indicator with a message made from
    the exception; [results] is still empty; and the engine is the one the
    raising stage left, with one more console line: no later stage and no
    [save_complete_results] has run on it. *)
Theorem calculate_all_aborts_on_exception
    (before : list (M unit)) (stage : M unit) (after : list (M unit))
    (save : M unit) (e : engine) (ex : exn) :
  Forall (fun c : M unit => frame c) (before ++ [stage]) ->
  results e = [] ->
  snd (run_stages 1 before (announced e)) = inr tt ->
  snd (run_stages 1 (before ++ [stage]) (announced e)) = inl ex ->
  let raised := fst (run_stages 1 (before ++ [stage]) (announced e)) in
  let after_call := fst (calculate_all_with (before ++ stage :: after) save e) in
  snd (calculate_all_with (before ++ stage :: after) save e)
    = inr (false, ("计算错误: " ++ str ex)%string) /\
  results after_call = [] /\
  attrs after_call = attrs raised /\
  stdout after_call = stdout raised ++ [ErrorLine ex].
Proof.
  intros Hf Hr Hb Hs raised after_call.
  assert (E : run_stages 1 (before ++ stage :: after) (announced e)
              = (raised, inl ex)).
  { rewrite (run_stages_raises _ _ _ _ _ _ Hs). unfold raised.
    rewrite <- Hs. apply surjective_pairing. }
  pose proof (calculate_all_with_raises _ save _ _ _ E) as C.
  unfold after_call. rewrite C. unfold print.
  cbn [fst snd results attrs stdout].
  repeat split; try reflexivity.
  destruct (frame_run_stages _ Hf 1 (announced e)) as (_ & R & _).
  fold raised in R. rewrite R. exact Hr.
Qed.

(** ** Valid steel grade: the run succeeds *)

Lemma returns_run_stages p :
  valid_steel p.(MP.steel_type) ->
  returns p (assigned_after 0) (run_stages 1 stages) (assigned_after 11).
Proof.
  intros Hs. unfold stages. cbn [run_stages].
  repeat (eapply returns_bind; [apply returns_print | intros _]).
  eapply returns_bind; [apply returns_stage1 | intros _].
  eapply returns_bind; [apply returns_print | intros _].
  eapply returns_bind; [apply returns_stage2 | intros _].
  eapply returns_bind; [apply returns_print | intros _].
  eapply returns_bind; [apply returns_stage3 | intros _].
  eapply returns_bind; [apply returns_print | intros _].
  eapply returns_bind; [apply returns_stage4 | intros _].
  eapply returns_bind; [apply returns_print | intros _].
  eapply returns_bind; [apply returns_stage5; exact Hs | intros _].
  eapply returns_bind; [apply returns_print | intros _].
  eapply returns_bind; [apply returns_stage6 | intros _].
  eapply returns_bind; [apply returns_print | intros _].
  eapply returns_bind; [apply returns_stage7 | intros _].
  eapply returns_bind; [apply returns_print | intros _].
  eapply returns_bind; [apply returns_stage8 | intros _].
  eapply returns_bind; [apply returns_print | intros _].
  eapply returns_bind; [apply returns_stage9; exact Hs | intros _].
  eapply returns_bind; [apply returns_print | intros _].
  eapply returns_bind; [apply returns_stage10 | intros _].
  eapply returns_bind; [apply returns_print | intros _].
  eapply returns_bind; [apply returns_stage11 | intros _].
  apply returns_ret.
Qed.

Lemma returns_try_block p :
  valid_steel p.(MP.steel_type) ->
  returns p (assigned_after 0) (try_block stages save_complete_results)
    (assigned_after 11).
Proof.
  intros Hs. unfold try_block. apply returns_params.
  eapply returns_bind; [apply returns_print | intros _].
  eapply returns_bind; [apply returns_run_stages; exact Hs | intros _].
  eapply returns_bind; [apply returns_print | intros _].
  eapply returns_bind; [apply returns_save | intros _].
  apply returns_ret.
Qed.

Lemma try_block_value stages save e x :
  snd (try_block stages save e) = inr x -> x = (true, "计算完成"%string).
Proof.
  unfold try_block, bind, self_params, ret.
  repeat match goal with
         | |- context [match ?c with (_, _) => _ end] =>
             destruct c as [? [? | ?]]; cbn [fst snd]
         end; congruence.
Qed.

Lemma calculate_all_with_eq stages save e :
  calculate_all_with stages save e =
  match try_block stages save e with
  | (e', inr x) => (e', inr x)
  | (e', inl ex) =>
      (fst (print (ErrorLine ex) e'),
       inr (false, ("计算错误: " ++ str ex)%string))
  end.
Proof. reflexivity. Qed.

(** With one of the five grades, [calculate_all] reports success on any
    engine: every attribute a stage reads has been assigned by then. *)
Lemma calculate_all_succeeds e :
  valid_steel (params e).(MP.steel_type) ->
  snd (calculate_all e) = inr (true, "计算完成"%string) /\
  assigned (assigned_after 11) (fst (calculate_all e)).
Proof.
  intros Hs.
  destruct (returns_try_block (params e) Hs e eq_refl) as (x & E & _ & A).
  { intros n Hn; discriminate. }
  unfold calculate_all. rewrite calculate_all_with_eq.
  pose proof (try_block_value _ _ _ _ E) as ->.
  destruct (try_block stages save_complete_results e) as [e' r].
  cbn [fst snd] in *. subst r. split; [reflexivity | exact A].
Qed.

(** ** No state carried from one run to the next *)

Lemma indep_run_stages r :
  indep (assigned_after 0) r (run_stages 1 stages) (assigned_after 11) r.
Proof.
  unfold stages. cbn [run_stages].
  eapply indep_bind; [apply indep_print | intros _].
  eapply indep_bind; [apply indep_stage1 | intros _].
  eapply indep_bind; [apply indep_print | intros _].
  eapply indep_bind; [apply indep_stage2 | intros _].
  eapply indep_bind; [apply indep_print | intros _].
  eapply indep_bind; [apply indep_stage3 | intros _].
  eapply indep_bind; [apply indep_print | intros _].
  eapply indep_bind; [apply indep_stage4 | intros _].
  eapply indep_bind; [apply indep_print | intros _].
  eapply indep_bind; [apply indep_stage5 | intros _].
  eapply indep_bind; [apply indep_print | intros _].
  eapply indep_bind; [apply indep_stage6 | intros _].
  eapply indep_bind; [apply indep_print | intros _].
  eapply indep_bind; [apply indep_stage7 | intros _].
  eapply indep_bind; [apply indep_print | intros _].
  eapply indep_bind; [apply indep_stage8 | intros _].
  eapply indep_bind; [apply indep_print | intros _].
  eapply indep_bind; [apply indep_stage9 | intros _].
  eapply indep_bind; [apply indep_print | intros _].
  eapply indep_bind; [apply indep_stage10 | intros _].
  eapply indep_bind; [apply indep_print | intros _].
  eapply indep_bind; [apply indep_stage11 | intros _].
  apply indep_ret.
Qed.

Lemma indep_try_block :
  indep (assigned_after 0) false (try_block stages save_complete_results)
    (assigned_after 11) true.
Proof.
  unfold try_block. apply indep_params; intro p.
  eapply indep_bind; [apply indep_print | intros _].
  eapply indep_bind; [apply indep_run_stages | intros _].
  eapply indep_bind; [apply indep_print | intros _].
  eapply indep_bind; [apply indep_save | intros _].
  apply indep_ret.
Qed.

(** C9.  Two engines built on the same parameter record, whatever
    attributes, results and console output earlier runs have left on
    them: [calculate_all] gives the same outcome on both, and when it
    reports success the two [results] dictionaries and the values of all
    attributes the stages assign are the same. *)
Theorem calculate_all_deterministic (e1 e2 : engine) :
  params e1 = params e2 ->
  snd (calculate_all e1) = snd (calculate_all e2) /\
  (forall msg, snd (calculate_all e1) = inr (true, msg) ->
     results (fst (calculate_all e1)) = results (fst (calculate_all e2)) /\
     forall n, has (assigned_after 11) n = true ->
       attrs (fst (calculate_all e1)) n = attrs (fst (calculate_all e2)) n).
Proof.
  intros Hp.
  assert (Ha : agree (assigned_after 0) false e1 e2).
  { repeat split; auto; discriminate. }
  destruct (indep_try_block e1 e2 Ha) as [E Q].
  unfold calculate_all. rewrite !calculate_all_with_eq.
  destruct (try_block stages save_complete_results e1) as [e1' r1].
  destruct (try_block stages save_complete_results e2) as [e2' r2].
  cbn [fst snd] in *. subst r2.
  destruct r1 as [ex | x]; cbn [fst snd].
  - split; [reflexivity | discriminate].
  - split; [reflexivity |]. intros msg _.
    destruct (Q x eq_refl) as (_ & A & R). split; auto.
Qed.

(** * An undefined steel grade *)

Lemma invalid_steel_name k :
  ~ valid_steel k -> SteelDataTables.get_steel_name k = "未知"%string.
Proof.
  unfold valid_steel, SteelDataTables.get_steel_name,
    SteelDataTables.steel_names. intros N.
  destruct k as [| q | q]; try reflexivity.
  do 3 (try (destruct q as [q | q |]; try reflexivity)); exfalso; lia.
Qed.

Lemma wp_bind_for_range {B} more start bm01 (k : nat * locals -> M B) Q e :
  wp (bind
        (l <- loop_body bm01 ;;
         if converged bm01 l.(bm0) then
           print (IterConverged (start + 1) l.(bm0)) ;; ret (start, l)
         else
           (if (start mod 5 =? 0)%nat
            then print (IterProgress (start + 1) l.(bm0)) else ret tt) ;;
           match more with
           | O => ret (start, l)
           | S more' => for_range more' (S start) ((bm01 + l.(bm0)) / 2)
           end) k) Q e ->
  wp (bind (for_range more start bm01) k) Q e.
Proof. now rewrite for_range_step. Qed.

Lemma invalid_steel_run p :
  ~ valid_steel p.(MP.steel_type) ->
  wp (run_stages 1 upto_circuit)
    (fun e r =>
       r = inl (KeyError p.(MP.steel_type)) /\
       results e = [] /\
       assigned (assigned_after 4) e /\
       stdout e =
         [ Banner "未知"; StageLine 1; StageLine 2; StageLine 3; StageLine 4;
           StageLine 5; IterStart (initial_bm01 p) ])
    (announced (new_engine p)).
Proof.
  intros Hinv.
  unfold upto_circuit, stages, firstn, run_stages.
  unfold calculate_basic_parameters, calculate_winding_parameters,
    calculate_geometry_parameters, calculate_magnet_parameters,
    calculate_no_load_magnetic_circuit.
  repeat wp_step.
  all: apply wp_bind_for_range; unfold loop_body; repeat wp_step.

  all: unfold SteelDataTables.get_BH_curve;
    rewrite (invalid_steel_H _ Hinv).
  all: split; [reflexivity |]; split; [reflexivity |]; split.
  all: try (project; cbn [new_engine stdout params app];
            rewrite (invalid_steel_name _ Hinv); reflexivity).
  all: intros n Hn; unfold has, assigned_after in Hn;
    cbn [existsb firstn List.concat stage_names app] in Hn;
    project;
    repeat match goal with
           | |- (if String.eqb n ?s then _ else _) <> None =>
               destruct (String.eqb n s); [discriminate |]
           end;
    exfalso; exact (diff_false_true Hn).
Qed.

(** * The loop of stage 5 *)

Lemma modifies_ret W {A} (x : A) : modifies W (ret x).
Proof. intros e; split; auto. Qed.

Lemma modifies_lift W {A} (r : exn + A) : modifies W (lift r).
Proof. intros e; split; auto. Qed.

Lemma modifies_self_params W : modifies W self_params.
Proof. intros e; split; auto. Qed.

Lemma modifies_self W n : modifies W (self n).
Proof. intros e; unfold self; destruct (attrs e n); split; auto. Qed.

Lemma modifies_print W l : modifies W (print l).
Proof. intros e; split; auto. Qed.

Lemma modifies_setattr W n x : has W n = true -> modifies W (setattr n x).
Proof.
  intros H e; split; auto. intros k Hk. cbn.
  destruct (String.eqb k n) eqn:E; [| reflexivity].
  apply String.eqb_eq in E; subst k. congruence.
Qed.

Lemma modifies_bind W {A B} (c : M A) (k : A -> M B) :
  modifies W c -> (forall x, modifies W (k x)) -> modifies W (bind c k).
Proof.
  intros Hc Hk e. unfold bind. specialize (Hc e).
  destruct (c e) as [e' [ex | x]]; cbn in *; [exact Hc |].
  destruct Hc as [P A1]. destruct (Hk x e') as [P' A2]. split.
  - congruence.
  - intros n Hn. rewrite A2, A1; auto.
Qed.

Ltac modifies_step :=
  lazymatch goal with
  | |- modifies _ (bind _ _) => apply modifies_bind; [| intro]
  | |- modifies _ (ret _) => apply modifies_ret
  | |- modifies _ (lift _) => apply modifies_lift
  | |- modifies _ self_params => apply modifies_self_params
  | |- modifies _ (self _) => apply modifies_self
  | |- modifies _ (setattr _ _) => apply modifies_setattr; reflexivity
  | |- modifies _ (print _) => apply modifies_print
  | |- modifies _ (if ?b then _ else _) => destruct b
  | |- modifies _ (let x := _ in _) => cbv zeta
  end.

Lemma modifies_loop_body bm : modifies flux_names (loop_body bm).
Proof.
  unfold loop_body, calculate_gap_factor. repeat modifies_step.
Qed.

(** Agreement on the attributes of stages 1 to 4 is an equivalence, and a
    round of the loop keeps it. *)
Lemma agree_sym W r e1 e2 : agree W r e1 e2 -> agree W false e2 e1.
Proof.
  intros (P & A & _). repeat split; auto; try discriminate.
  intros n Hn. symmetry. auto.
Qed.

Lemma agree_trans W e1 e2 e3 :
  agree W false e1 e2 -> agree W false e2 e3 -> agree W false e1 e3.
Proof.
  intros (P1 & A1 & _) (P2 & A2 & _). repeat split; try discriminate.
  - congruence.
  - intros n Hn. rewrite A1, A2; auto.
Qed.

Lemma agree_print W l e : agree W false (fst (print l e)) e.
Proof. repeat split; auto; discriminate. Qed.

Lemma flux_outside_stage4 n :
  has (assigned_after 4) n = true -> has flux_names n = false.
Proof.
  intros H. unfold has, assigned_after in *.
  cbn [existsb firstn List.concat stage_names app flux_names] in *.
  repeat match type of H with
         | (String.eqb n ?s || _)%bool = true =>
             let E := fresh "E" in
             destruct (String.eqb n s) eqn:E;
             [ apply String.eqb_eq in E; subst n; reflexivity
             | cbn [orb] in H; clear E ]
         end.
  discriminate H.
Qed.

Lemma agree_loop_body bm e :
  agree (assigned_after 4) false (fst (loop_body bm e)) e.
Proof.
  destruct (modifies_loop_body bm e) as [P A].
  repeat split; auto; try discriminate.
  intros n Hn. apply A. now apply flux_outside_stage4.
Qed.

Lemma ready_agree e e' :
  agree (assigned_after 4) false e' e -> ready e -> ready e'.
Proof.
  intros (P & A & _) [As V]. split.
  - intros n Hn. rewrite (A n Hn). auto.
  - rewrite P. exact V.
Qed.

Lemma loop_body_returns e bm :
  ready e -> exists l, snd (loop_body bm e) = inr l.
Proof.
  intros [As V].
  destruct (returns_loop_body_first (params e) V bm e eq_refl As)
    as (l & E & _).
  exists l. exact E.
Qed.

Lemma loop_body_agree e e' bm :
  agree (assigned_after 4) false e' e ->
  snd (loop_body bm e') = snd (loop_body bm e).
Proof.
  intros Ha. exact (proj1 (indep_loop_body_first false bm e' e Ha)).
Qed.

Lemma new_point_spec e bm l :
  snd (loop_body bm e) = inr l -> new_point e bm = l.(bm0).
Proof. unfold new_point. now intros ->. Qed.

(** One round of the loop that returns, and what follows it. *)
Lemma for_range_run more start x e' e1 l :
  loop_body x e' = (e1, inr l) ->
  for_range more start x e' =
  if converged x l.(bm0) then
    (out (IterConverged (start + 1) l.(bm0)) e1, inr (start, l))
  else
    let e2 := if (start mod 5 =? 0)%nat
              then out (IterProgress (start + 1) l.(bm0)) e1 else e1 in
    match more with
    | O => (e2, inr (start, l))
    | S more' => for_range more' (S start) ((x + l.(bm0)) / 2) e2
    end.
Proof.
  intros H. rewrite for_range_step. unfold bind at 1. rewrite H.
  destruct (converged x (bm0 l)); [reflexivity |].
  unfold bind. destruct (start mod 5 =? 0)%nat; destruct more; reflexivity.
Qed.

Lemma agree_out W l e1 e :
  agree W false e1 e -> agree W false (out l e1) e.
Proof. intros (P & A & _). repeat split; auto; discriminate. Qed.

(** The loop, from any engine that agrees with [e] on what stages 1 to 4
    assigned: it raises nothing; it leaves after round [k + 1], where [k]
    is the first round among [more + 1] whose test holds, or [more] when
    none does; the locals are those of that round, and the engine it leaves
    has the attributes of the loop as that round assigns them. *)
Lemma for_range_spec e more :
  ready e ->
  forall start x e',
    agree (assigned_after 4) false e' e ->
    exists k l,
      snd (for_range more start x e') = inr ((start + k)%nat, l) /\
      agree (assigned_after 4) false (fst (for_range more start x e')) e /\
      (k <= more)%nat /\
      snd (loop_body (damped (new_point e) k x) e) = inr l /\
      (forall j, (j < k)%nat ->
         converged (damped (new_point e) j x)
           (new_point e (damped (new_point e) j x)) = false) /\
      (converged (damped (new_point e) k x)
         (new_point e (damped (new_point e) k x)) = true \/ k = more) /\
      agree in_loop false (fst (for_range more start x e'))
        (fst (loop_body (damped (new_point e) k x) e)).
Proof.
  intros Hr. induction more as [| more IH]; intros start x e' Ha.
  all: pose proof (loop_body_agree e e' x Ha) as El.
  all: pose proof (proj2 (indep_loop_body_first false x e' e Ha)) as Fl.
  all: destruct (loop_body_returns e x Hr) as [l Hl].
  all: pose proof (agree_trans _ _ _ _ (agree_loop_body x e') Ha) as Ha1.
  all: rewrite Hl in El.
  all: destruct (loop_body x e') as [e1 r1] eqn:Run;
    cbn [fst snd] in El, Ha1, Fl; subst r1; specialize (Fl l eq_refl).
  all: rewrite (for_range_run _ _ _ _ _ _ Run).
  all: pose proof (new_point_spec e x l Hl) as EG.
  all: destruct (converged x (bm0 l)) eqn:C.
  1, 3: exists 0%nat, l; cbn [damped fst snd]; rewrite EG, Nat.add_0_r;
    split; [reflexivity |]; split; [now apply agree_out |];
    split; [lia |]; split; [exact Hl |]; split; [intros j Hj; lia |];
    split; [left; exact C | now apply agree_out].
  - exists 0%nat, l. cbn [damped fst snd]. rewrite EG, Nat.add_0_r.
    split; [reflexivity |]. split.
    { destruct (start mod 5 =? 0)%nat; [now apply agree_out | exact Ha1]. }
    split; [lia |]; split; [exact Hl |]; split; [intros j Hj; lia |].
    split; [right; reflexivity |].
    destruct (start mod 5 =? 0)%nat; [now apply agree_out | exact Fl].
  - cbv zeta.
    set (e2 := if (start mod 5 =? 0)%nat
               then out (IterProgress (start + 1) (bm0 l)) e1 else e1).
    assert (Ha2 : agree (assigned_after 4) false e2 e).
    { unfold e2. destruct (start mod 5 =? 0)%nat;
        [now apply agree_out | exact Ha1]. }
    destruct (IH (S start) ((x + bm0 l) / 2) e2 Ha2)
      as (k & l' & E & A & Hk & L & Before & Last & Flux).
    exists (S k), l'. cbn [damped]. rewrite EG.
    replace (start + S k)%nat with (S start + k)%nat by lia.
    split; [exact E |]. split; [exact A |]. split; [lia |].
    split; [exact L |]. split; [| split; [| exact Flux]].
    + intros j Hj. destruct j as [| j]; cbn [damped]; rewrite ?EG.
      * exact C.
      * apply Before. lia.
    + destruct Last as [Last | ->]; [left; exact Last | right; reflexivity].
Qed.

(** What a round that returns has computed. *)
Lemma loop_body_bm0 e x l :
  snd (loop_body x e) = inr l -> l.(bm0) = l.(LUMDAn) / (l.(LUMDAn) + 1).
Proof.
  revert l.
  change (wp (loop_body x)
            (fun _ r => forall l, r = inr l ->
                                  bm0 l = LUMDAn l / (LUMDAn l + 1)) e).
  unfold loop_body, calculate_gap_factor.
  repeat wp_step_cases.
  all: intros l' E; try discriminate E.
  all: injection E as <-; reflexivity.
Qed.

Lemma new_point_in_unit_interval e x :
  0 < new_permeance e x -> 0 < new_point e x < 1.
Proof.
  unfold new_permeance, new_point.
  destruct (snd (loop_body x e)) as [ex | l] eqn:E; [lra |].
  intros H. rewrite (loop_body_bm0 e x l E).
  assert (0 < / (LUMDAn l + 1)) by (apply Rinv_0_lt_compat; lra).
  split.
  - apply Rdiv_lt_0_compat; lra.
  - apply Rmult_lt_reg_r with (LUMDAn l + 1); [lra |].
    unfold Rdiv. rewrite Rmult_assoc, Rinv_l by lra. lra.
Qed.

Lemma initial_bm01_in_unit_interval p :
  0 < p.(MP.hM) -> 0 < p.(MP.g) -> 0 < p.(MP.SIGMA0) ->
  0 < initial_bm01 p < 1.
Proof.
  intros Hh Hg Hs. unfold initial_bm01.
  assert (Hp : 0 < MP.SIGMA0 p * MP.hM p) by (apply Rmult_lt_0_compat; lra).
  assert (Hd : 0 < MP.SIGMA0 p * MP.hM p + MP.g p) by lra.
  replace (0.95 * MP.SIGMA0 p * MP.hM p)
    with (0.95 * (MP.SIGMA0 p * MP.hM p)) by ring.
  split.
  - apply Rdiv_lt_0_compat; lra.
  - apply Rmult_lt_reg_r with (MP.SIGMA0 p * MP.hM p + MP.g p); [lra |].
    unfold Rdiv. rewrite Rmult_assoc, Rinv_l by lra. lra.
Qed.

Lemma mean_in_unit_interval a b :
  0 < a < 1 -> 0 < b < 1 -> 0 < (a + b) / 2 < 1.
Proof. intros; lra. Qed.

Lemma damped_succ G k x :
  damped G (S k) x = (damped G k x + G (damped G k x)) / 2.
Proof.
  revert x; induction k as [| k IH]; intros x; [reflexivity |].
  change (damped G (S (S k)) x) with (damped G (S k) ((x + G x) / 2)).
  rewrite IH. reflexivity.
Qed.

(** Stage 5 stores the operating point of the round the loop left at. *)
Lemma stage5_stores_last_point e e1 k l :
  for_range 29 0 (initial_bm01 (params e)) (entered e) = (e1, inr (k, l)) ->
  attr_after calculate_no_load_magnetic_circuit e "bm0" = Some l.(bm0).
Proof.
  intros Run. unfold attr_after.
  change (wp calculate_no_load_magnetic_circuit
            (fun e' _ => attrs e' "bm0"%string = Some (bm0 l)) e).
  unfold calculate_no_load_magnetic_circuit, calculate_gap_factor.
  wp_step. wp_step.
  eapply wp_bind_run; [exact Run |].
  cbn [snd].
  repeat wp_step_cases.
  all: subst; reflexivity.
Qed.

Lemma Forall_prefix {A} (P : A -> Prop) (l : list A) :
  Forall P l -> forall n, Forall P (firstn n l).
Proof.
  induction 1 as [| x l Hx Hl IH]; intros [| n]; cbn; auto.
Qed.

Lemma stages_split :
  stages = (firstn 4 stages ++ calculate_no_load_magnetic_circuit
                            :: skipn 5 stages)%list.
Proof. reflexivity. Qed.

Lemma upto_circuit_split :
  upto_circuit = (firstn 4 stages ++ [calculate_no_load_magnetic_circuit])%list.
Proof. reflexivity. Qed.

Lemma returns_first_four p :
  returns p (assigned_after 0) (run_stages 1 (firstn 4 stages))
    (assigned_after 4).
Proof.
  cbn [firstn stages run_stages].
  eapply returns_bind; [apply returns_print | intros _].
  eapply returns_bind; [apply returns_stage1 | intros _].
  eapply returns_bind; [apply returns_print | intros _].
  eapply returns_bind; [apply returns_stage2 | intros _].
  eapply returns_bind; [apply returns_print | intros _].
  eapply returns_bind; [apply returns_stage3 | intros _].
  eapply returns_bind; [apply returns_print | intros _].
  eapply returns_bind; [apply returns_stage4 | intros _].
  apply returns_ret.
Qed.

Lemma first_four_return p e :
  params e = p ->
  snd (run_stages 1 (firstn 4 stages) e) = inr tt.
Proof.
  intros Hp.
  destruct (returns_first_four p e Hp) as ([] & E & _);
    [intros n Hn; discriminate | exact E].
Qed.

Lemma prepared_ready p : valid_steel p.(MP.steel_type) -> ready (prepared p).
Proof.
  intros V. unfold prepared, ready.
  destruct (returns_first_four p (new_engine p) eq_refl) as (_ & _ & P & A);
    [intros n Hn; discriminate |].
  split; [exact A | rewrite P; exact V].
Qed.

Lemma undefined_grade_run (p : MotorParameters) :
  ~ valid_steel p.(MP.steel_type) ->
  let r := calculate_all (new_engine p) in
  snd r = inr (false, ("计算错误: " ++ str_int p.(MP.steel_type))%string) /\
  results (fst r) = [] /\
  assigned (assigned_after 4) (fst r) /\
  stdout (fst r) =
    [ Banner "未知"; StageLine 1; StageLine 2; StageLine 3; StageLine 4;
      StageLine 5; IterStart (initial_bm01 p);
      ErrorLine (KeyError p.(MP.steel_type)) ].
Proof.
  intros Hinv r.
  pose proof (invalid_steel_run p Hinv) as W. unfold wp in W.
  destruct W as (E & R & A & O).
  set (e5 := fst (run_stages 1 upto_circuit (announced (new_engine p)))) in *.
  assert (Run : run_stages 1 stages (announced (new_engine p))
                = (e5, inl (KeyError p.(MP.steel_type)))).
  { rewrite stages_split, run_stages_raises with (ex := KeyError p.(MP.steel_type));
      rewrite <- upto_circuit_split; [| exact E].
    unfold e5. rewrite <- E. apply surjective_pairing. }
  unfold r, calculate_all.
  rewrite (calculate_all_with_raises _ _ _ _ _ Run).
  change (fst (print ?l ?e)) with (out l e). cbn [fst snd str].
  rewrite results_out, stdout_out, R, O.
  repeat split; try reflexivity.
  intros n Hn. rewrite attrs_out. exact (A n Hn).
Qed.

(** C3, as the spec states it, fails on the reference record with grade 6:
    the run is not rejected before stage 1. *)
Lemma undefined_grade_not_rejected_early :
  ~ rejected_before_stage_1 undefined_grade.
Proof.
  intros (_ & Hout & _).
  assert (H : ~ valid_steel undefined_grade.(MP.steel_type)).
  { unfold valid_steel; cbn; lia. }
  destruct (undefined_grade_run undefined_grade H) as (_ & _ & _ & O).
  apply (Hout 1%nat). rewrite O. cbn. auto.
Qed.

(** ** Witnesses of the pipeline theorems *)

Lemma calculate_all_aborts_on_exception_witness :
  snd (calculate_all_with stages save_complete_results
         (new_engine undefined_grade))
    = inr (false, "计算错误: 6"%string) /\
  results (fst (calculate_all_with stages save_complete_results
                  (new_engine undefined_grade))) = [].
Proof.
  assert (H : ~ valid_steel undefined_grade.(MP.steel_type)).
  { unfold valid_steel; cbn; lia. }
  pose proof (invalid_steel_run undefined_grade H) as W. unfold wp in W.
  destruct W as (E & _). rewrite upto_circuit_split in E.
  pose proof (calculate_all_aborts_on_exception
                (firstn 4 stages) calculate_no_load_magnetic_circuit
                (skipn 5 stages) save_complete_results
                (new_engine undefined_grade) (KeyError 6)) as T.
  rewrite <- stages_split in T.
  destruct T as (T1 & T2 & _).
  - change (firstn 4 stages ++ [calculate_no_load_magnetic_circuit])%list
      with (firstn 5 stages).
    apply Forall_prefix. exact frame_stages.
  - reflexivity.
  - apply first_four_return with (p := undefined_grade). reflexivity.
  - exact E.
  - split; [exact T1 | exact T2].
Defined.

Lemma calculate_all_deterministic_witness :
  params (new_engine MP.default) = params (used_engine MP.default) /\
  snd (calculate_all (new_engine MP.default))
    = snd (calculate_all (used_engine MP.default)).
Proof.
  split; [reflexivity |].
  exact (proj1 (calculate_all_deterministic
                  (new_engine MP.default) (used_engine MP.default) eq_refl)).
Defined.

(** * Steel look-up *)

Section SteelLookup.
Import SteelDataTables SteelFacts.

Lemma B_data_ends :
  List.length B_data = 37%nat /\ hd 0 B_data = 0.40 /\ last B_data 0 = 2.20.
Proof. repeat split. Qed.

Lemma lookup_low (ys : list R) (B : R) :
  B <= 0.40 -> linear_interpolation B_data ys B = hd 0 ys.
Proof.
  intros H. unfold linear_interpolation.
  destruct (Rle_dec B (hd 0 B_data)) as [_ | N]; [reflexivity |].
  exfalso; apply N. cbn [hd B_data]. exact H.
Qed.

Lemma lookup_high (ys : list R) (B : R) :
  2.20 <= B -> linear_interpolation B_data ys B = last ys 0.
Proof.
  intros H. unfold linear_interpolation.
  destruct (Rle_dec B (hd 0 B_data)) as [L | _].
  - exfalso. cbn [hd B_data] in L. lra.
  - destruct (Rge_dec B (last B_data 0)) as [_ | N]; [reflexivity |].
    exfalso; apply N. destruct B_data_ends as (_ & _ & ->). lra.
Qed.

Lemma lookup_mono (ys : list R) (B1 B2 : R) :
  table_ok ys -> B1 <= B2 ->
  linear_interpolation B_data ys B1 <= linear_interpolation B_data ys B2.
Proof.
  intros [Hy Hl] H. apply linear_interpolation_mono.
  - apply ascending_B_data.
  - exact Hy.
  - rewrite Hl. reflexivity.
  - destruct ys; discriminate.
  - exact H.
Qed.

Lemma lookup_between (ys : list R) (i : nat) (B : R) :
  List.length ys = 37%nat -> (i < 36)%nat ->
  nth i B_data 0 <= B <= nth (S i) B_data 0 ->
  linear_interpolation B_data ys B =
  (nth (S i) ys 0 - nth i ys 0) / (nth (S i) B_data 0 - nth i B_data 0)
  * (B - nth i B_data 0) + nth i ys 0.
Proof.
  intros Hl Hi Hb. apply linear_interpolation_segment.
  - exact ascending_B_data.
  - rewrite Hl. reflexivity.
  - change (List.length B_data) with 37%nat. lia.
  - exact Hb.
Qed.

(** C5.  For each of the five grades, over the ascending 37-point grid
    from 0.40 T to 2.20 T: [get_BH_curve] returns the first tabulated H at
    or below 0.40 T and the last tabulated H at or above 2.20 T; between
    two neighbouring samples [B_i] and [B_(i+1)] it returns the value of
    the chord through the two tabulated points,
    [(H_(i+1) - H_i) / (B_(i+1) - B_i) * (B - B_i) + H_i]; and it is
    non-decreasing in B.  The same holds of [get_iron_loss] over the loss
    table. *)
Theorem steel_lookup_clamps_and_is_monotone (k : Z) :
  valid_steel k ->
  List.length B_data = 37%nat /\ hd 0 B_data = 0.40 /\
  last B_data 0 = 2.20 /\ ascending B_data /\
  exists H P,
    H_data k = Some H /\ P_data k = Some P /\
    (forall B, B <= 0.40 -> get_BH_curve B k = inr (hd 0 H)) /\
    (forall B, 2.20 <= B -> get_BH_curve B k = inr (last H 0)) /\
    (forall i B, (i < 36)%nat ->
       nth i B_data 0 <= B <= nth (S i) B_data 0 ->
       get_BH_curve B k =
       inr ((nth (S i) H 0 - nth i H 0)
            / (nth (S i) B_data 0 - nth i B_data 0)
            * (B - nth i B_data 0) + nth i H 0)) /\
    (forall B1 B2, B1 <= B2 ->
       exists h1 h2, get_BH_curve B1 k = inr h1 /\
                     get_BH_curve B2 k = inr h2 /\ h1 <= h2) /\
    (forall B, B <= 0.40 -> get_iron_loss B k = inr (hd 0 P)) /\
    (forall B, 2.20 <= B -> get_iron_loss B k = inr (last P 0)) /\
    (forall i B, (i < 36)%nat ->
       nth i B_data 0 <= B <= nth (S i) B_data 0 ->
       get_iron_loss B k =
       inr ((nth (S i) P 0 - nth i P 0)
            / (nth (S i) B_data 0 - nth i B_data 0)
            * (B - nth i B_data 0) + nth i P 0)) /\
    (forall B1 B2, B1 <= B2 ->
       exists p1 p2, get_iron_loss B1 k = inr p1 /\
                     get_iron_loss B2 k = inr p2 /\ p1 <= p2).
Proof.
  intros Hk.
  destruct B_data_ends as (L & F & E).
  repeat (split; [assumption || apply ascending_B_data |]).
  destruct (valid_steel_H k Hk) as [H EH].
  destruct (valid_steel_P k Hk) as [P EP].
  exists H, P. unfold get_BH_curve, get_iron_loss. rewrite EH, EP.
  pose proof (H_data_ok k H EH) as OH.
  pose proof (P_data_ok k P EP) as OP.
  repeat split.
  - intros B HB. now rewrite lookup_low.
  - intros B HB. now rewrite lookup_high.
  - intros i B Hi HB. f_equal. apply lookup_between; [apply OH | exact Hi | exact HB].
  - intros B1 B2 HB. eexists; eexists; repeat split. now apply lookup_mono.
  - intros B HB. now rewrite lookup_low.
  - intros B HB. now rewrite lookup_high.
  - intros i B Hi HB. f_equal. apply lookup_between; [apply OP | exact Hi | exact HB].
  - intros B1 B2 HB. eexists; eexists; repeat split. now apply lookup_mono.
Qed.

Lemma steel_lookup_clamps_and_is_monotone_witness :
  valid_steel 5 /\
  SteelDataTables.get_BH_curve 0.30 5 = inr 80 /\
  SteelDataTables.get_BH_curve 1.025 5 = inr 377.5 /\
  SteelDataTables.get_BH_curve 2.50 5 = inr 8100.
Proof.
  assert (V : valid_steel 5) by (unfold valid_steel; lia).
  split; [exact V |].
  destruct (steel_lookup_clamps_and_is_monotone 5 V)
    as (_ & _ & _ & _ & H & P & EH & _ & Lo & Hi & Mid & _).
  injection EH as <-.
  split; [apply Lo; lra |]. split; [| apply Hi; lra].
  rewrite (Mid 12%nat 1.025 ltac:(lia) ltac:(cbn [nth B_data]; lra)).
  f_equal. cbn [nth B_data H_DW315_50]. lra.
Defined.

End SteelLookup.

(** * Slot leakage *)

Section SlotLeakage.
Import SlotLeakageCalculator.

Lemma PI_3_4 : 3 < PI <= 4.
Proof. split; [pose proof PI2_3_2; lra | exact PI_4]. Qed.

Lemma Zeqb_neq (a b : Z) : a <> b -> (a =? b)%Z = false.
Proof. intros H. now apply Z.eqb_neq. Qed.

(** Out of range: the opening term alone. *)
Lemma slot_leakage_fallback CX h02 b02 h2 d1 d2 h22 QSX B12 KRS1 KRS2 KRS3 :
  ~ (1 <= CX <= 4)%Z ->
  calculate_slot_leakage CX h02 b02 h2 d1 d2 h22 QSX B12 KRS1 KRS2 KRS3
  = h02 / b02.
Proof.
  intros H. unfold calculate_slot_leakage.
  rewrite !Zeqb_neq by lia. reflexivity.
Qed.

Lemma square_pos (x : R) : x <> 0 -> 0 < x ^ 2.
Proof.
  intros H. replace (x ^ 2) with (x * x) by ring.
  destruct (Rtotal_order x 0) as [L | [E | G]]; [nra | contradiction | nra].
Qed.

(** In range, on a geometry of positive lengths: more than the opening
    term. *)
Lemma slot_leakage_above_fallback
    CX h02 b02 h2 d1 d2 h22 QSX B12 KRS1 KRS2 KRS3 :
  (1 <= CX <= 4)%Z ->
  0 < h02 -> 0 < b02 -> 0 < h2 -> 0 < d1 -> 0 < d2 -> 0 < h22 ->
  0 < QSX -> 0 < B12 -> 0 < KRS1 -> 0 < KRS2 -> 0 < KRS3 ->
  h02 / b02
  < calculate_slot_leakage CX h02 b02 h2 d1 d2 h22 QSX B12 KRS1 KRS2 KRS3.
Proof.
  intros HCX Hh02 Hb02 Hh2 Hd1 Hd2 Hh22 HQ HB H1 H2 H3.
  pose proof PI_3_4 as [Hpi _].
  assert (Hdiv : forall x y, 0 < x -> 0 < y -> 0 < x / y).
  { intros x y Hx Hy. apply Rdiv_lt_0_compat; assumption. }
  assert (C : (CX = 1 \/ CX = 2 \/ CX = 3 \/ CX = 4)%Z) by lia.
  unfold calculate_slot_leakage.
  destruct C as [-> | [-> | [-> | ->]]]; cbn [Z.eqb Pos.eqb].
  - destruct (Rle_dec (Rabs (B12 - 1.0)) 1e-4).
    + assert (0 < (4.0 * QSX ^ 3 / 3.0 + 3.0 * PI * QSX ^ 2 / 2.0
                   + 4.816 * QSX + 1.5377) / (2.0 * QSX + PI / 2.0) ^ 2).
      { apply Hdiv; [| apply square_pos; lra].
        assert (0 < QSX ^ 3) by (apply pow_lt; lra).
        assert (0 < QSX ^ 2) by (apply pow_lt; lra).
        assert (0 < PI * QSX ^ 2) by (apply Rmult_lt_0_compat; lra).
        lra. }
      lra.
    + assert (0 < QSX * (KRS1 + KRS2 + KRS3)
                  / (PI * (1.0 + B12 ^ 2) / (8.0 * QSX)
                     + (1.0 + B12) / 2.0) ^ 2).
      { apply Hdiv; [apply Rmult_lt_0_compat; lra |].
        apply square_pos.
        assert (0 < B12 ^ 2) by (apply pow_lt; lra).
        assert (0 < PI * (1.0 + B12 ^ 2) / (8.0 * QSX)).
        { apply Hdiv; [apply Rmult_lt_0_compat; lra | lra]. }
        lra. }
      lra.
  - assert (0 < h2 / d1) by (apply Hdiv; lra).
    assert (0 < 2.0 * h22 / (3.0 * (d1 + d2))) by (apply Hdiv; lra).
    lra.
  - lra.
  - assert (0 < 2.0 * h2 / (b02 + d1)) by (apply Hdiv; lra).
    destruct (Rle_dec (Rabs (B12 - 1.0)) 1e-4).
    + assert (0 < (PI ^ 2 * QSX / 16.0 + PI * QSX ^ 2 / 2.0
                   + 4.0 * QSX ^ 3 / 3.0) / (2.0 * QSX + PI / 4.0) ^ 2).
      { apply Hdiv; [| apply square_pos; lra].
        assert (0 < QSX ^ 3) by (apply pow_lt; lra).
        assert (0 < QSX ^ 2) by (apply pow_lt; lra).
        assert (0 < PI ^ 2) by (apply pow_lt; lra).
        assert (0 < PI * QSX ^ 2) by (apply Rmult_lt_0_compat; lra).
        assert (0 < PI ^ 2 * QSX) by (apply Rmult_lt_0_compat; lra).
        lra. }
      lra.
    + assert (0 < QSX * (KRS1 + KRS2)
                  / (PI / (8.0 * QSX) + (1.0 + B12) / 2.0) ^ 2).
      { apply Hdiv; [apply Rmult_lt_0_compat; lra |].
        apply square_pos.
        assert (0 < PI / (8.0 * QSX)) by (apply Hdiv; lra).
        lra. }
      lra.
Qed.

Lemma quotient_between (n d lo hi : R) :
  0 <= n -> 0 < lo -> lo <= d -> d <= hi -> n / hi <= n / d <= n / lo.
Proof.
  intros Hn Hlo Hl Hh. unfold Rdiv. split.
  - apply Rmult_le_compat_l; [exact Hn |].
    apply Rinv_le_contravar; lra.
  - apply Rmult_le_compat_l; [exact Hn |].
    apply Rinv_le_contravar; lra.
Qed.

Lemma far_from_one (x : R) : x <= 0.9 -> ~ Rabs (x - 1.0) <= 1e-4.
Proof.
  intros H A. unfold Rabs in A. destruct (Rcase_abs (x - 1.0)); lra.
Qed.

Lemma at_one (x : R) : x = 1 -> Rabs (x - 1.0) <= 1e-4.
Proof. intros ->. replace (1 - 1.0) with 0 by lra. rewrite Rabs_R0. lra. Qed.

(** The four values on the reference geometry. *)
Lemma reference_profiles :
  exists a b c d,
    four_profiles_of MP.default = [a; b; c; d] /\
    0.7 < a < 0.9 /\ 3.1 < b < 3.2 /\ 1.0 < c < 1.1 /\ 4.3 < d < 4.5.
Proof.
  pose proof PI_3_4 as [Hpi3 Hpi4].
  unfold four_profiles_of, four_profiles, calculate_slot_leakage.
  cbn [map Z.eqb Pos.eqb MP.default MP.h02 MP.b02 MP.hr12 MP.br1 MP.br2].
  assert (HB : 5.5 / 6.4 <= 0.9) by lra.
  destruct (Rle_dec (Rabs (5.5 / 6.4 - 1.0)) 1e-4) as [A | _];
    [exfalso; exact (far_from_one _ HB A) |].
  do 4 eexists. split; [reflexivity |].
  assert (E : (5.5 / 6.4) ^ 2 = 30.25 / 40.96) by (cbn [pow]; lra).
  split; [| split; [| split]].
  - set (D := PI * (1.0 + (5.5 / 6.4) ^ 2) / (8.0 * 1.0)
              + (1.0 + 5.5 / 6.4) / 2.0).
    assert (HD : 1.5 <= D <= 1.8) by (unfold D; rewrite E; lra).
    assert (HD2 : 2.25 <= D ^ 2 <= 3.24).
    { replace (D ^ 2) with (D * D) by ring. nra. }
    pose proof (quotient_between (1.0 * (0.5 + 0.3 + 0.2)) (D ^ 2) 2.25 3.24
                  ltac:(lra) ltac:(lra) (proj1 HD2) (proj2 HD2)) as Q.
    lra.
  - lra.
  - lra.
  - set (D := PI / (8.0 * 1.0) + (1.0 + 5.5 / 6.4) / 2.0).
    assert (HD : 1.3 <= D <= 1.43) by (unfold D; lra).
    assert (HD2 : 1.69 <= D ^ 2 <= 2.0449).
    { replace (D ^ 2) with (D * D) by ring. nra. }
    pose proof (quotient_between (1.0 * (0.5 + 0.3)) (D ^ 2) 1.69 2.0449
                  ltac:(lra) ltac:(lra) (proj1 HD2) (proj2 HD2)) as Q.
    lra.
Qed.

Lemma reference_profiles_distinct : NoDup (four_profiles_of MP.default).
Proof.
  destruct reference_profiles as (a & b & c & d & -> & Ha & Hb & Hc & Hd).
  repeat constructor; cbn [In]; intros H;
    repeat (destruct H as [H | H]; [lra |]); exact H.
Qed.

(** Tags 2 and 3 give the same value on the square slot. *)
Lemma square_slot_profiles :
  exists a b d, four_profiles_of square_slot = [a; b; b; d].
Proof.
  unfold four_profiles_of, four_profiles, calculate_slot_leakage.
  cbn [map Z.eqb Pos.eqb square_slot MP.h02 MP.b02 MP.hr12 MP.br1 MP.br2].
  do 3 eexists.
  apply (f_equal2 cons); [reflexivity |].
  apply (f_equal2 cons); [| reflexivity]. lra.
Qed.

(** C4, as the spec states it, fails on the square slot: the four values
    are not pairwise distinct. *)
Lemma square_slot_profiles_coincide : ~ NoDup (four_profiles_of square_slot).
Proof.
  destruct square_slot_profiles as (a & b & d & ->). intros H.
  inversion H as [| ? ? _ H1]; subst.
  inversion H1 as [| ? ? N _]; subst.
  apply N. left. reflexivity.
Qed.

(** C4, as the code has it.  A tag outside 1 to 4 gives exactly the
    opening term h02/b02.  A tag from 1 to 4 gives, on a geometry whose
    lengths and coefficients are positive, strictly more than h02/b02: the
    fallback value is never what a defined profile returns.  On the
    geometry of the reference record the four values are pairwise
    distinct. *)
Theorem slot_profile_dispatch :
  (forall CX h02 b02 h2 d1 d2 h22 QSX B12 KRS1 KRS2 KRS3,
     ~ (1 <= CX <= 4)%Z ->
     calculate_slot_leakage CX h02 b02 h2 d1 d2 h22 QSX B12 KRS1 KRS2 KRS3
     = h02 / b02) /\
  (forall CX h02 b02 h2 d1 d2 h22 QSX B12 KRS1 KRS2 KRS3,
     (1 <= CX <= 4)%Z ->
     0 < h02 -> 0 < b02 -> 0 < h2 -> 0 < d1 -> 0 < d2 -> 0 < h22 ->
     0 < QSX -> 0 < B12 -> 0 < KRS1 -> 0 < KRS2 -> 0 < KRS3 ->
     h02 / b02
     < calculate_slot_leakage CX h02 b02 h2 d1 d2 h22 QSX B12
         KRS1 KRS2 KRS3) /\
  NoDup (four_profiles_of MP.default).
Proof.
  split; [exact slot_leakage_fallback |].
  split; [exact slot_leakage_above_fallback |].
  exact reference_profiles_distinct.
Qed.

Lemma slot_profile_dispatch_witness :
  calculate_slot_leakage 7 0.8 2.0 15.0 6.4 5.5 7.5 1.0 (5.5 / 6.4)
    0.5 0.3 0.2 = 0.8 / 2.0 /\
  0.8 / 2.0
  < calculate_slot_leakage 3 0.8 2.0 15.0 6.4 5.5 7.5 1.0 (5.5 / 6.4)
      0.5 0.3 0.2.
Proof.
  destruct slot_profile_dispatch as (F & A & _). split.
  - apply F. lia.
  - apply A; lra || lia.
Defined.

End SlotLeakage.

(** * Stage 1: rated current *)

Lemma rated_current (e : engine) :
  attr_after calculate_basic_parameters e "IN" =
  Some ((params e).(MP.PN) * 1000
        / ((params e).(MP.m)
           * (if is_Y (params e).(MP.wgco)
              then (params e).(MP.UN) / sqrt 3 else (params e).(MP.UN))
           * (params e).(MP.eff) * (params e).(MP.cosfi))).
Proof.
  unfold attr_after.
  match goal with
  | |- attrs (fst (?c e)) ?n = Some ?x =>
      change (wp c (fun e' _ => attrs e' n = Some x) e)
  end.
  unfold calculate_basic_parameters. repeat wp_step.
  project. cbn [String.eqb Ascii.eqb Bool.eqb]. subst. reflexivity.
Qed.

(** C6.  Two machines with the same rated power, phase count, efficiency
    and power factor, one in star and one in delta (any connection string
    whose upper case is not Y), the star one on sqrt 3 times the line
    voltage of the delta one: stage 1 assigns the same rated current. *)
Theorem star_delta_rated_current (e1 e2 : engine) :
  is_Y (params e1).(MP.wgco) = true ->
  is_Y (params e2).(MP.wgco) = false ->
  (params e1).(MP.PN) = (params e2).(MP.PN) ->
  (params e1).(MP.m) = (params e2).(MP.m) ->
  (params e1).(MP.cosfi) = (params e2).(MP.cosfi) ->
  (params e1).(MP.eff) = (params e2).(MP.eff) ->
  (params e1).(MP.UN) = (params e2).(MP.UN) * sqrt 3 ->
  exists I,
    attr_after calculate_basic_parameters e1 "IN" = Some I /\
    attr_after calculate_basic_parameters e2 "IN" = Some I.
Proof.
  intros Y1 Y2 HP Hm Hc He HU.
  rewrite !rated_current, Y1, Y2, HP, Hm, Hc, He, HU.
  eexists; split; [| reflexivity].
  do 2 f_equal. f_equal. f_equal. f_equal.
  field. pose proof Rlt_sqrt3_0. lra.
Qed.

Lemma star_delta_rated_current_witness :
  exists I,
    attr_after calculate_basic_parameters (new_engine star_machine) "IN"
      = Some I /\
    attr_after calculate_basic_parameters (new_engine delta_machine) "IN"
      = Some I.
Proof.
  apply star_delta_rated_current; reflexivity.
Defined.

(** * Stage 4: temperature correction of the magnet *)

Lemma magnet_at_temperature (e : engine) :
  attr_after calculate_magnet_parameters e "Br" =
  Some ((if ((params e).(MP.magnet) =? 1)%Z
         then 1 - ((params e).(MP.t) - 20) * 0.12e-2
         else 1 - ((params e).(MP.t) - 20) * 0.19e-2)
        * (params e).(MP.Br0)) /\
  attr_after calculate_magnet_parameters e "Hc" =
  Some ((if ((params e).(MP.magnet) =? 1)%Z
         then (if ((params e).(MP.magnet) =? 1)%Z
               then 1 - ((params e).(MP.t) - 20) * 0.12e-2
               else 1 - ((params e).(MP.t) - 20) * 0.19e-2)
         else 1 + ((params e).(MP.t) - 20) * 0.4e-2)
        * (params e).(MP.Hc0) * 1000).
Proof.
  unfold attr_after.
  match goal with
  | |- attrs (fst (?c e)) ?n = Some ?x /\ attrs _ ?n' = Some ?x' =>
      change (wp c (fun e' _ => attrs e' n = Some x /\
                                attrs e' n' = Some x') e)
  end.
  unfold calculate_magnet_parameters. repeat wp_step.
  all: project; cbn [String.eqb Ascii.eqb Bool.eqb]; subst; split; reflexivity.
Qed.

(** C8.  Stage 4 scales remanence and coercivity (the latter also
    converted from kA/m to A/m) by one factor, 1 - (t - 20) 0.0012, for a
    rare-earth magnet (magnet = 1); for any other magnet the remanence is
    scaled by 1 - (t - 20) 0.0019 and the coercivity by
    1 + (t - 20) 0.004, two corrections of opposite sign. *)
Theorem magnet_temperature_factors (e : engine) :
  let p := params e in
  let dT := p.(MP.t) - 20 in
  (p.(MP.magnet) = 1%Z ->
     attr_after calculate_magnet_parameters e "Br"
       = Some ((1 - dT * 0.0012) * p.(MP.Br0)) /\
     attr_after calculate_magnet_parameters e "Hc"
       = Some ((1 - dT * 0.0012) * p.(MP.Hc0) * 1000)) /\
  (p.(MP.magnet) <> 1%Z ->
     attr_after calculate_magnet_parameters e "Br"
       = Some ((1 - dT * 0.0019) * p.(MP.Br0)) /\
     attr_after calculate_magnet_parameters e "Hc"
       = Some ((1 + dT * 0.004) * p.(MP.Hc0) * 1000) /\
     (- (dT * 0.0019)) * (dT * 0.004) <= 0).
Proof.
  intros p dT. destruct (magnet_at_temperature e) as [B H].
  fold p in B, H. fold dT in B, H. split.
  - intros M. rewrite B, H, M. cbn [Z.eqb Pos.eqb].
    split; do 2 f_equal; lra.
  - intros M. rewrite B, H. apply Z.eqb_neq in M. rewrite M.
    repeat split; try (do 2 f_equal; lra).
    assert (0 <= dT * dT) by nra. nra.
Qed.

Lemma magnet_temperature_factors_witness :
  MP.magnet (params (new_engine MP.default)) = 1%Z /\
  attr_after calculate_magnet_parameters (new_engine MP.default) "Br"
    = Some ((1 - (75.0 - 20) * 0.0012) * 1.15).
Proof.
  split; [reflexivity |].
  exact (proj1 (proj1 (magnet_temperature_factors (new_engine MP.default))
                  eq_refl)).
Defined.

(** * What each stage assigns *)

Lemma modifies_set_results W r : modifies W (set_results r).
Proof. intros e; split; auto. Qed.

Lemma modifies_gap_factor W : modifies W calculate_gap_factor.
Proof. unfold calculate_gap_factor. repeat modifies_step. Qed.

Lemma modifies_for_range more :
  forall start bm, modifies flux_names (for_range more start bm).
Proof.
  induction more as [| more IH]; intros start bm; rewrite for_range_step;
    repeat (first [ apply modifies_loop_body | apply IH | modifies_step ]).
Qed.

Lemma modifies_covers W W' {A} (c : M A) :
  covers W' W = true -> modifies W c -> modifies W' c.
Proof.
  intros C H e. destruct (H e) as [P K]. split; [exact P |].
  intros n Hn. apply K.
  destruct (has W n) eqn:E; [| reflexivity].
  rewrite (covers_has _ _ _ C E) in Hn. discriminate.
Qed.

Ltac modifies_call :=
  lazymatch goal with
  | |- modifies _ calculate_gap_factor => apply modifies_gap_factor
  | |- modifies _ (set_results _) => apply modifies_set_results
  | |- modifies _ (for_range _ _ _) =>
      apply (modifies_covers flux_names); [reflexivity |];
      apply modifies_for_range
  | _ => modifies_step
  end.

Ltac modifies_auto := repeat modifies_call.

(** Stage [k + 1] assigns the attributes of the entry [k] of
    [stage_names] and no other. *)
Lemma modifies_stages :
  Forall2 (fun W (c : M unit) => modifies W c) stage_names stages.
Proof.
  unfold stage_names, stages.
  repeat (apply Forall2_cons; [| ]); [ .. | apply Forall2_nil ].
  - unfold calculate_basic_parameters. modifies_auto.
  - unfold calculate_winding_parameters. modifies_auto.
  - unfold calculate_geometry_parameters. modifies_auto.
  - unfold calculate_magnet_parameters. modifies_auto.
  - unfold calculate_no_load_magnetic_circuit.
    modifies_auto.
  - unfold calculate_impedances. modifies_auto.
  - unfold calculate_performance. modifies_auto.
  - unfold calculate_material_weights. modifies_auto.
  - unfold calculate_losses. modifies_auto.
  - unfold calculate_starting_characteristics. modifies_auto.
  - unfold calculate_actual_performance. modifies_auto.
Qed.

Lemma modifies_save : modifies [] save_complete_results.
Proof.
  unfold save_complete_results, rounded; cbn [entries]. modifies_auto.
Qed.

(** * The reference run *)

(** ** Enclosures of the constants *)

Lemma PI_bounds : 3.14159 < PI < 3.1416.
Proof.
  pose proof (PI_2_3_7_ineq 2) as H.
  unfold sum_f_R0, tg_alt, PI_2_3_7_tg, Ratan_seq in H.
  cbn [Nat.mul Nat.add pow INR] in H.
  lra.
Qed.

Lemma sqrt3_bounds : 1.73205 < sqrt 3 < 1.73206.
Proof.
  assert (H : sqrt 3 * sqrt 3 = 3) by (apply sqrt_sqrt; lra).
  assert (P : 0 <= sqrt 3) by apply sqrt_pos.
  split; nra.
Qed.

Lemma MUO_bounds : 1.256636e-6 < MUO < 1.25664e-6.
Proof. unfold MUO. pose proof PI_bounds. lra. Qed.

(** A quotient is enclosed by cross-multiplication, a product of
    non-negative numbers factor by factor. *)
Lemma div_between (a b lo hi : R) :
  0 < b -> lo * b <= a -> a <= hi * b -> lo <= a / b <= hi.
Proof.
  intros Hb Hl Hh.
  assert (E : a = a / b * b) by (field; lra).
  assert (I : 0 < / b) by (apply Rinv_0_lt_compat; exact Hb).
  split; apply Rmult_le_reg_r with b; try exact Hb; rewrite <- E; assumption.
Qed.

Lemma mul_between (a b a1 a2 b1 b2 : R) :
  0 <= a1 <= a -> a <= a2 -> 0 <= b1 <= b -> b <= b2 ->
  a1 * b1 <= a * b <= a2 * b2.
Proof. intros. split; nra. Qed.

Lemma scaled (y a b a1 a2 b1 b2 : R) :
  y = a * b -> 0 <= a1 <= a -> a <= a2 -> 0 <= b1 <= b -> b <= b2 ->
  a1 * b1 <= y <= a2 * b2.
Proof. intros ->. apply mul_between. Qed.

(** [y] is the product [E : y = a * b] of two enclosed factors. *)
Ltac by_scaling E a1 a2 b1 b2 :=
  generalize (scaled _ _ _ a1 a2 b1 b2 E
                ltac:(lra) ltac:(lra) ltac:(lra) ltac:(lra));
  lra.

Lemma div_upper (n d hi : R) : 0 < d -> n <= hi * d -> n / d <= hi.
Proof.
  intros Hd H. apply Rmult_le_reg_r with d; [exact Hd |].
  replace (n / d * d) with n by (field; lra). exact H.
Qed.

Lemma div_le (n d n2 d1 : R) :
  0 <= n <= n2 -> 0 < d1 <= d -> n / d <= n2 / d1.
Proof.
  intros [Hn Hn2] [Hd1 Hd].
  assert (I : 0 < / d) by (apply Rinv_0_lt_compat; lra).
  assert (J : / d <= / d1) by (apply Rinv_le_contravar; lra).
  unfold Rdiv. apply Rmult_le_compat; lra.
Qed.

(** The look-ups in the tables of the default grade, DW315-50. *)
Lemma H_floor (B : R) :
  80 <= SteelDataTables.linear_interpolation SteelDataTables.B_data
          SteelDataTables.H_DW315_50 B.
Proof.
  pose proof (SteelFacts.H_data_ok 5 _ eq_refl) as [Hy Hl].
  unfold SteelDataTables.linear_interpolation.
  destruct (Rle_dec _ _); [cbn; lra |].
  destruct (Rge_dec _ _); [cbn; lra |].
  apply (SteelFacts.np_interp_range SteelDataTables.B_data
           SteelDataTables.H_DW315_50 B).
  - apply SteelFacts.ascending_B_data.
  - exact Hy.
  - reflexivity.
  - discriminate.
Qed.

(** ** The values the stages assign on the default record *)


(** The fields of the default record, and integer arithmetic on them. *)
Ltac defaults :=
  cbn [MP.PN MP.UN MP.m MP.f MP.p MP.cosfi MP.eff MP.Tpo MP.Ist MP.Tst MP.D1
       MP.Di1 MP.La MP.g MP.g12 MP.Q1 MP.Q2 MP.Di2 MP.b01 MP.h01 MP.b1
       MP.ALFA1 MP.R1 MP.h12 MP.sks MP.Lv MP.b02 MP.h02 MP.br1 MP.br2 MP.hr12
       MP.ALFA2 MP.AR MP.CX MP.steel_type MP.LE MP.a MP.Ns MP.Nt1 MP.d11
       MP.Nt2 MP.d12 MP.d MP.y MP.wgco MP.Lev MP.magnet MP.Br0 MP.Hc0 MP.hM
       MP.bM MP.LM MP.ROUm MP.SIGMA0 MP.t MP.pfwl MP.psl MP.Kq
       MP.default Z.mul Z.add Pos.mul Pos.add Pos.succ Z.eqb Pos.eqb
       is_in existsb orb negb].

Ltac defaults_in_all :=
  cbn [MP.PN MP.UN MP.m MP.f MP.p MP.cosfi MP.eff MP.Tpo MP.Ist MP.Tst MP.D1
       MP.Di1 MP.La MP.g MP.g12 MP.Q1 MP.Q2 MP.Di2 MP.b01 MP.h01 MP.b1
       MP.ALFA1 MP.R1 MP.h12 MP.sks MP.Lv MP.b02 MP.h02 MP.br1 MP.br2 MP.hr12
       MP.ALFA2 MP.AR MP.CX MP.steel_type MP.LE MP.a MP.Ns MP.Nt1 MP.d11
       MP.Nt2 MP.d12 MP.d MP.y MP.wgco MP.Lev MP.magnet MP.Br0 MP.Hc0 MP.hM
       MP.bM MP.LM MP.ROUm MP.SIGMA0 MP.t MP.pfwl MP.psl MP.Kq
       MP.default Z.mul Z.add Pos.mul Pos.add Pos.succ Z.eqb Pos.eqb
       is_in existsb orb negb] in *.

(** Stage 1: rated current and pole pitch. *)
Lemma reference_stage1 e :
  params e = MP.default ->
  wp calculate_basic_parameters
    (fun e' _ => within e' "IN" 25.65 25.66 /\ within e' "TAO" 133.517 133.518)
    e.
Proof.
  intros Hp. unfold calculate_basic_parameters. repeat wp_step.
  pose proof PI_bounds as HPI. pose proof sqrt3_bounds as Hs.
  split; (eexists; split; [reflexivity |]).
  - subst v1.
    change (is_Y (MP.wgco MP.default)) with true. cbv iota.
    defaults.
    assert (U : 219.39 <= 380.0 / sqrt 3 <= 219.40)
      by (apply div_between; lra).
    apply div_between; lra.
  - subst v3. defaults.
    apply div_between; lra.
Qed.

(** A step on the default record: a test on the record is decided by
    evaluation, an attribute nothing is known of is read in both cases. *)
Ltac wp_ref :=
  lazymatch goal with
  | |- wp (bind (if ?b then _ else _) _) _ _ =>
      let b' := eval cbv in b in change b with b'; cbv iota
  | |- wp (if ?b then _ else _) _ _ =>
      let b' := eval cbv in b in change b with b'; cbv iota
  | _ => wp_step_cases
  end.

Ltac found := unfold within; eexists; split; [reflexivity |].

(** Stage 2: turns in series per phase. *)
Lemma reference_stage2 e :
  params e = MP.default ->
  wp calculate_winding_parameters (fun e' _ => within e' "N" 78 78) e.
Proof.
  intros Hp. unfold calculate_winding_parameters. repeat wp_ref.
  all: found; subst; defaults; lra.
Qed.

Lemma tan_30_degrees : tan (30.0 * PI / 180) = 1 / sqrt 3.
Proof. replace (30.0 * PI / 180) with (PI / 6) by lra. exact tan_PI6. Qed.

(** Stage 3: the lengths and volumes of the magnetic circuit. *)
Lemma reference_stage3 e :
  params e = MP.default ->
  wp calculate_geometry_parameters
    (fun e' _ =>
       (within e' "t1" 14.835 14.836 /\ within e' "t2" 16.562 16.5622 /\
        within e' "bt1" 7.4278 7.4279 /\ within e' "bt2" 7.9597 7.9598) /\
       (within e' "hj1" 25.6 25.6 /\ within e' "hj2" 33.25 33.25 /\
        within e' "ht1" 16.9 16.9 /\ within e' "hr" 15.8 15.8 /\
        within e' "Lj1" 92.04 92.05 /\ within e' "Lj2" 36.619 36.6193) /\
       (within e' "hs1" 1.1258 1.1259 /\
        within e' "Vt1" 798500 798600 /\ within e' "Vj1" 3331000 3331100))
    e.
Proof.
  intros Hp. unfold calculate_geometry_parameters. repeat wp_ref.
  pose proof PI_bounds as HPI. pose proof sqrt3_bounds as Hs.
  assert (T : 0.57734 <= 1 / sqrt 3 <= 0.57736) by (apply div_between; lra).
  repeat split.
  all: try (found; subst; defaults; rewrite ?tan_30_degrees; lra).
Qed.

(** Stage 4: the magnet. *)
Lemma reference_stage4 e :
  params e = MP.default ->
  wp calculate_magnet_parameters
    (fun e' _ =>
       within e' "MUr" 1.0458 1.0459 /\ within e' "Am" 20900 20900 /\
       within e' "FAIM" 22448.69 22448.69)
    e.
Proof.
  intros Hp. unfold calculate_magnet_parameters. repeat wp_ref.
  pose proof MUO_bounds as HM.
  repeat split.
  all: found; subst; defaults; try lra.
  apply div_between; lra.
Qed.

(** A step that also decides a look-up in the tables of the default
    grade. *)
Ltac wp_table :=
  lazymatch goal with
  | |- wp (bind (lift ?r) _) _ _ =>
      let r' := eval cbv [SteelDataTables.get_BH_curve SteelDataTables.H_data
                          SteelDataTables.get_iron_loss SteelDataTables.P_data
                          MP.steel_type MP.default] in r in
      change r with r'; apply wp_bind_lift
  | _ => wp_ref
  end.

(** ** The magnetic circuit on the default record *)

Section Circuit.
Variable e : engine.
Hypothesis Hp : params e = MP.default.
Hypothesis H_FAIM : within e "FAIM" 22448.69 22448.69.
Hypothesis H_TAO : within e "TAO" 133.517 133.518.
Hypothesis H_t1 : within e "t1" 14.835 14.836.
Hypothesis H_t2 : within e "t2" 16.562 16.5622.
Hypothesis H_bt1 : within e "bt1" 7.4278 7.4279.
Hypothesis H_bt2 : within e "bt2" 7.9597 7.9598.
Hypothesis H_hj1 : within e "hj1" 25.6 25.6.
Hypothesis H_hj2 : within e "hj2" 33.25 33.25.
Hypothesis H_ht1 : within e "ht1" 16.9 16.9.
Hypothesis H_hr : within e "hr" 15.8 15.8.
Hypothesis H_Lj1 : within e "Lj1" 92.04 92.05.
Hypothesis H_Lj2 : within e "Lj2" 36.619 36.6193.
Hypothesis H_MUr : within e "MUr" 1.0458 1.0459.
Hypothesis H_Am : within e "Am" 20900 20900.

Lemma round_reference x :
  0 < x ->
  wp (loop_body x)
    (fun e' r =>
       exists l, r = inr l /\ 0 < l.(bm0) /\
         (x <= 0.867 -> l.(bm0) <= 0.66) /\
         within e' "Bts" 0 (2.33 * x) /\ within e' "Bj1" 0 (1.94 * x))
    e.
Proof.
  intros Hx.
  destruct H_FAIM as (FAIM & E_FAIM & B_FAIM), H_TAO as (TAO & E_TAO & B_TAO),
    H_t1 as (t1 & E_t1 & B_t1), H_t2 as (t2 & E_t2 & B_t2),
    H_bt1 as (bt1 & E_bt1 & B_bt1), H_bt2 as (bt2 & E_bt2 & B_bt2),
    H_hj1 as (hj1 & E_hj1 & B_hj1), H_hj2 as (hj2 & E_hj2 & B_hj2),
    H_ht1 as (ht1 & E_ht1 & B_ht1), H_hr as (hr & E_hr & B_hr),
    H_Lj1 as (Lj1 & E_Lj1 & B_Lj1), H_Lj2 as (Lj2 & E_Lj2 & B_Lj2),
    H_MUr as (MUr & E_MUr & B_MUr), H_Am as (Am & E_Am & B_Am).
  unfold loop_body, calculate_gap_factor.
  repeat wp_table.
  assert (FAIM = 22448.69) by lra. assert (hj1 = 25.6) by lra.
  assert (hj2 = 33.25) by lra. assert (ht1 = 16.9) by lra.
  assert (hr = 15.8) by lra. assert (Am = 20900) by lra.
  subst FAIM hj1 hj2 ht1 hr Am.
  clear B_FAIM B_hj1 B_hj2 B_ht1 B_hr B_Am.
  eexists; split; [reflexivity |]. cbn [bm0].
  cbn [MP.PN MP.UN MP.m MP.f MP.p MP.cosfi MP.eff MP.La MP.g MP.g12
       MP.b01 MP.b02 MP.SIGMA0 MP.hM MP.Lev MP.default Z.eqb Pos.eqb] in *.
  set (FI := x * 22448.69 / 1.28 * 1e-6) in *.
  pose proof MUO_bounds as B_MUO.
  assert (B_FI : 0.0175380 * x <= FI <= 0.0175381 * x) by (unfold FI; lra).
  assert (B_v : 1.0728 * x <= v <= 1.0729 * x).
  { assert (Q : 61.1737 <= 1e6 / (0.64 * TAO * (190.0 + 2 * 0.65)) <= 61.1744)
      by (apply div_between; lra).
    assert (E : v = FI * (1e6 / (0.64 * TAO * (190.0 + 2 * 0.65))))
      by (rewrite Ev; field; lra).
    by_scaling E (0.0175380 * x) (0.0175381 * x) 61.1737 61.1744. }
  assert (B_v0 : 0 <= v0 <= 2.33 * x).
  { assert (Q : 2.1622 <= t1 * (190.0 + 2 * 0.65) / (190.0 * 0.93 * bt1)
                <= 2.1625) by (apply div_between; lra).
    assert (E : v0 = v * (t1 * (190.0 + 2 * 0.65) / (190.0 * 0.93 * bt1)))
      by (rewrite Ev0; field; lra).
    by_scaling E (1.0728 * x) (1.0729 * x) 2.1622 2.1625. }
  assert (B_v1 : 0 <= v1 <= 1.94 * x) by (rewrite Ev1; unfold FI; lra).
  pose proof (H_floor v0) as F0. pose proof (H_floor v1) as F1.
  pose proof (H_floor v2) as F2. pose proof (H_floor v3) as F3.
  set (Hts := SteelDataTables.linear_interpolation _ _ v0) in *.
  set (Hjs := SteelDataTables.linear_interpolation _ _ v1) in *.
  set (Htr := SteelDataTables.linear_interpolation _ _ v2) in *.
  set (Hjr := SteelDataTables.linear_interpolation _ _ v3) in *.
  set (Kg1 := t1 * (4.4 * 0.65 + 0.75 * 3.8)
              / (t1 * (4.4 * 0.65 + 0.75 * 3.8) - 3.8 * 3.8)).
  set (Kg2 := t2 * (4.4 * 0.65 + 0.75 * 2.0)
              / (t2 * (4.4 * 0.65 + 0.75 * 2.0) - 2.0 * 2.0)).
  assert (B_Kg1 : 1.2054 <= Kg1 <= 1.2056) by (apply div_between; lra).
  assert (B_Kg2 : 1.0586 <= Kg2 <= 1.0587) by (apply div_between; lra).
  assert (B_Kg : 1.276 <= Kg1 * Kg2 <= 1.2764).
  { by_scaling (eq_refl (Kg1 * Kg2)) 1.2054 1.2056 1.0586 1.0587. }
  set (Kg := Kg1 * Kg2) in *.
  set (Fg := v / MUO * (0.15 + 0.65 * Kg) * 1e-3).
  assert (B_Fg : 836 * x <= Fg).
  { assert (Q : 795772 <= 1 / MUO <= 795776) by (apply div_between; lra).
    assert (P : 1.0728 * x * 795772 <= v * (1 / MUO)
                <= 1.0729 * x * 795776)
      by (by_scaling (eq_refl (v * (1 / MUO)))
            (1.0728 * x) (1.0729 * x) 795772 795776).
    assert (E : Fg = v * (1 / MUO) * ((0.15 + 0.65 * Kg) * 1e-3))
      by (unfold Fg; field; lra).
    by_scaling E (1.0728 * x * 795772) (1.0729 * x * 795776)
      0.0009794 0.00098. }
  assert (B_j1 : 80 * 92.04 <= Hjs * Lj1)
    by (by_scaling (eq_refl (Hjs * Lj1)) 80 (Hjs + 1) 92.04 92.05).
  assert (B_j2 : 80 * 36.619 <= Hjr * Lj2)
    by (by_scaling (eq_refl (Hjr * Lj2)) 80 (Hjr + 1) 36.619 36.6193).
  set (SUMF := 2 * (Fg + Hts * 16.9 / 10 + Hjs * Lj1 / 10
                    + Htr * 15.8 / 10 + Hjr * Lj2 / 10)).
  assert (B_SUMF : 2 * (836 * x + 1290.8) <= SUMF) by (unfold SUMF; lra).
  set (W := MUr * MUO * 20900 * 1e-6).
  assert (B_W : 2.7466e-8 <= W <= 2.7470e-8).
  { assert (P : 1.0458 * 1.256636e-6 <= MUr * MUO <= 1.0459 * 1.25664e-6)
      by (by_scaling (eq_refl (MUr * MUO))
            1.0458 1.0459 1.256636e-6 1.25664e-6).
    unfold W. lra. }
  set (NUM := FI / SUMF).
  assert (P_NUM : 0 < NUM) by (apply Rdiv_lt_0_compat; lra).
  set (L := 1.28 * (NUM * 2 * 5.3 * 1e-3 / W)).
  assert (P_L : 0 < L).
  { assert (0 < NUM * 2 * 5.3 * 1e-3 / W)
      by (apply Rdiv_lt_0_compat; lra).
    unfold L. lra. }
  split; [apply Rdiv_lt_0_compat; lra |].
  split.
  { intros Hx'.
    assert (B_NUM : NUM <= 3.84e-6) by (apply div_upper; lra).
    assert (B_Q : NUM * 2 * 5.3 * 1e-3 / W
                  <= 3.84e-6 * 2 * 5.3 * 1e-3 / 2.7466e-8)
      by (apply div_le; lra).
    assert (B_L : L <= 1.9) by (unfold L; lra).
    apply div_upper; lra. }
  split; found; lra.
Qed.

Hypothesis H_assigned : assigned (assigned_after 4) e.

Lemma reference_ready : ready e.
Proof. split; [exact H_assigned | rewrite Hp; unfold valid_steel; cbn; lia]. Qed.

(** What a round gives, in terms of [new_point]. *)
Lemma new_point_reference x :
  0 < x ->
  0 < new_point e x /\ (x <= 0.867 -> new_point e x <= 0.66) /\
  within (fst (loop_body x e)) "Bts" 0 (2.33 * x) /\
  within (fst (loop_body x e)) "Bj1" 0 (1.94 * x).
Proof.
  intros Hx. destruct (round_reference x Hx) as (l & E & P & U & B).
  unfold new_point. rewrite E. auto.
Qed.

Lemma initial_reference : 0.8669 <= initial_bm01 MP.default <= 0.867.
Proof. unfold initial_bm01. defaults. apply div_between; lra. Qed.

Lemma half_pow j : 0 < (1 / 2) ^ j <= 1.
Proof. induction j as [| j IH]; cbn [pow]; lra. Qed.

(** The iterates come down to the bound of the new operating points,
    halving the distance in each round. *)
Lemma damped_reference j :
  let x := damped (new_point e) j (initial_bm01 MP.default) in
  0 < x /\ x <= 0.66 + 0.207 * (1 / 2) ^ j.
Proof.
  induction j as [| j IH]; cbv zeta.
  - cbn [damped pow]. pose proof initial_reference. lra.
  - rewrite damped_succ. cbv zeta in IH. destruct IH as [P U].
    set (x := damped (new_point e) j (initial_bm01 MP.default)) in *.
    pose proof (half_pow j) as H2.
    destruct (new_point_reference x P) as (PG & UG & _).
    specialize (UG ltac:(lra)).
    cbn [pow]. lra.
Qed.

Lemma converged_close x g :
  0 < g -> converged x g = true -> x < 1.0001 * g.
Proof.
  intros Hg. unfold converged.
  destruct (Rlt_dec (Rabs ((g - x) / g)) 0.0001) as [H |]; [| discriminate].
  intros _. apply Rabs_def2 in H. destruct H as [_ H].
  assert (E : g - x = (g - x) / g * g) by (field; lra).
  nra.
Qed.

(** The loop on the default record: it returns, and the flux densities
    of the stator teeth and yoke it leaves are those of an iterate of at
    most 0.661. *)
Lemma loop_reference :
  exists k l,
    snd (for_range 29 0 (initial_bm01 MP.default) (entered e)) = inr (k, l) /\
    within (fst (for_range 29 0 (initial_bm01 MP.default) (entered e)))
      "Bts" 0 1.55 /\
    within (fst (for_range 29 0 (initial_bm01 MP.default) (entered e)))
      "Bj1" 0 1.30.
Proof.
  assert (Ha : agree (assigned_after 4) false (entered e) e).
  { unfold entered. apply agree_out. repeat split; auto; discriminate. }
  destruct (for_range_spec e 29 reference_ready 0%nat
              (initial_bm01 MP.default) (entered e) Ha)
    as (k & l & E & _ & Hk & _ & _ & Last & Flux).
  exists k, l. split; [exact E |].
  set (x := damped (new_point e) k (initial_bm01 MP.default)) in *.
  destruct (damped_reference k) as [P U]. fold x in P, U.
  destruct (new_point_reference x P) as (PG & UG & Bts & Bj1).
  pose proof (half_pow k) as H2.
  specialize (UG ltac:(lra)).
  assert (Hx : x <= 0.661).
  { destruct Last as [C | ->].
    - pose proof (converged_close _ _ PG C). lra.
    - cbn [pow] in U. lra. }
  destruct Flux as (_ & A & _).
  split.
  - destruct Bts as (v & Ev & Bv). exists v. split; [| lra].
    rewrite <- Ev. apply A. reflexivity.
  - destruct Bj1 as (v & Ev & Bv). exists v. split; [| lra].
    rewrite <- Ev. apply A. reflexivity.
Qed.

(** Stage 5 leaves the flux densities of the round the loop left at. *)
Lemma reference_stage5 :
  wp calculate_no_load_magnetic_circuit
    (fun e' _ => within e' "Bts" 0 1.55 /\ within e' "Bj1" 0 1.30) e.
Proof.
  destruct loop_reference as (k & l & E & (b & Eb & Bb) & (j & Ej & Bj)).
  unfold entered in E, Eb, Ej. rewrite Hp in E, Eb, Ej.
  unfold calculate_no_load_magnetic_circuit, calculate_gap_factor.
  wp_step. wp_step.
  apply wp_bind_run
    with (e1 := fst (for_range 29 0 (initial_bm01 MP.default)
                       (out (IterStart (initial_bm01 MP.default)) e)))
         (x := (k, l)).
  { rewrite <- E. apply surjective_pairing. }
  cbn [snd].
  repeat wp_step_cases.
  all: split; [exists b | exists j]; (split; [| assumption]).
  all: project; cbn [String.eqb Ascii.eqb Bool.eqb]; assumption.
Qed.

End Circuit.

(** The loss table of the default grade at two of its knots. *)
Lemma P_at_knots :
  SteelDataTables.linear_interpolation SteelDataTables.B_data
    SteelDataTables.P_DW315_50 1.55 = 40.7 /\
  SteelDataTables.linear_interpolation SteelDataTables.B_data
    SteelDataTables.P_DW315_50 1.30 = 20.4.
Proof.
  unfold SteelDataTables.linear_interpolation, SteelDataTables.B_data,
    SteelDataTables.P_DW315_50.
  cbn [hd last].
  split.
  all: destruct (Rle_dec _ _); [lra |].
  all: destruct (Rge_dec _ _); [lra |].
  all: repeat (rewrite SteelFacts.np_interp_step;
               destruct (Rlt_dec _ _);
               [first [ exfalso; lra
                      | destruct (Rle_dec _ _);
                        [reflexivity | exfalso; lra] ]
               | try (exfalso; lra) ]).
Qed.

Lemma P_enclosed (B hi : R) :
  B <= hi ->
  0.5 <= SteelDataTables.linear_interpolation SteelDataTables.B_data
           SteelDataTables.P_DW315_50 B
      <= SteelDataTables.linear_interpolation SteelDataTables.B_data
           SteelDataTables.P_DW315_50 hi.
Proof.
  intros H.
  pose proof (SteelFacts.P_data_ok 5 _ eq_refl) as [Hy Hl].
  split.
  - unfold SteelDataTables.linear_interpolation.
    destruct (Rle_dec _ _); [cbn; lra |].
    destruct (Rge_dec _ _); [cbn; lra |].
    apply (SteelFacts.np_interp_range SteelDataTables.B_data
             SteelDataTables.P_DW315_50 B).
    + apply SteelFacts.ascending_B_data.
    + exact Hy.
    + reflexivity.
    + discriminate.
  - apply SteelFacts.linear_interpolation_mono.
    + apply SteelFacts.ascending_B_data.
    + exact Hy.
    + reflexivity.
    + discriminate.
    + exact H.
Qed.


(** Stage 6: the stator resistance. *)
Lemma reference_stage6 e :
  params e = MP.default ->
  within e "hs1" 1.1258 1.1259 -> within e "N" 78 78 ->
  wp calculate_impedances
    (fun e' r => r = inr tt -> within e' "Rs" 0.2133 0.2135) e.
Proof.
  intros Hp (hs1 & E_hs1 & B_hs1) (N & E_N & B_N).
  unfold calculate_impedances, calculate_gap_factor.
  repeat wp_table.
  all: intros Hr; try discriminate Hr.
  found. subst v1. defaults.
  assert (N = 78) by lra. subst N.
  pose proof PI_bounds as HPI.
  set (T := PI / 2 / 2 * 0.85
            * (170.0 + 2 * (0.8 + hs1) + 15.2 - hs1 + 5.1)).
  assert (B_T : 128.86 <= T <= 128.87)
    by (by_scaling (eq_refl T) 0.66758 0.66760 193.0258 193.0259).
  apply div_between; lra.
Qed.

(** Stage 9: the total loss. *)
Lemma reference_stage9 e :
  params e = MP.default ->
  within e "IN" 25.65 25.66 -> within e "Rs" 0.2133 0.2135 ->
  within e "Bts" 0 1.55 -> within e "Bj1" 0 1.30 ->
  within e "Vt1" 798500 798600 -> within e "Vj1" 3331000 3331100 ->
  wp calculate_losses
    (fun e' r => r = inr tt /\ within e' "pSum" 800 1030) e.
Proof.
  intros Hp (IN & E_IN & B_IN) (Rs & E_Rs & B_Rs) (Bts & E_Bts & B_Bts)
    (Bj1 & E_Bj1 & B_Bj1) (Vt1 & E_Vt1 & B_Vt1) (Vj1 & E_Vj1 & B_Vj1).
  unfold calculate_losses.
  repeat wp_table.
  split; [reflexivity |]. found.
  destruct P_at_knots as [K1 K2].
  pose proof (P_enclosed Bts 1.55 ltac:(lra)) as B_pt1.
  pose proof (P_enclosed Bj1 1.30 ltac:(lra)) as B_pj1.
  rewrite K1 in B_pt1. rewrite K2 in B_pj1.
  set (pt1 := SteelDataTables.linear_interpolation _ _ Bts) in *.
  set (pj1 := SteelDataTables.linear_interpolation _ _ Bj1) in *.
  subst v3. defaults_in_all.
  assert (B_II : 25.65 * 25.65 <= IN * IN <= 25.66 * 25.66)
    by (by_scaling (eq_refl (IN * IN)) 25.65 25.66 25.65 25.66).
  assert (B_pCu : 420 <= v <= 422).
  { assert (E : v = 3 * (IN * IN) * Rs) by (rewrite Ev; ring).
    by_scaling E (3 * (25.65 * 25.65)) (3 * (25.66 * 25.66)) 0.2133 0.2135. }
  assert (B_t : 0 <= Vt1 * pt1 <= 798600 * 40.7)
    by (by_scaling (eq_refl (Vt1 * pt1)) 0 798600 0 40.7).
  assert (B_j : 0 <= Vj1 * pj1 <= 3331100 * 20.4)
    by (by_scaling (eq_refl (Vj1 * pj1)) 0 3331100 0 20.4).
  assert (B_ps : IN / IN = 1) by (field; lra).
  rewrite B_ps in Ev2.
  lra.
Qed.

(** Stage 11: the actual efficiency. *)
Lemma reference_stage11 e :
  params e = MP.default -> within e "pSum" 800 1030 ->
  wp calculate_actual_performance
    (fun e' r =>
       r = inr tt ->
       exists eta, attrs e' "eta_actual" = Some eta /\ 93.5 < eta < 100) e.
Proof.
  intros Hp (pSum & E_pSum & B_pSum).
  unfold calculate_actual_performance.
  repeat wp_table.
  all: intros Hr; try discriminate Hr.
  eexists. split; [reflexivity |].
  subst v. defaults.
  assert (Q : 0.9357 <= 15.0 * 1000 / (15.0 * 1000 + pSum) <= 0.95)
    by (apply div_between; lra).
  lra.
Qed.

(** ** The run as a whole *)

(** A stage that returns, with what it assigns and what it keeps. *)
Lemma stage_step p W Wpre Wpost (c : M unit) n e :
  returns p Wpre c Wpost -> modifies W c ->
  params e = p -> assigned Wpre e ->
  exists e',
    c (out (StageLine n) e) = (e', inr tt) /\
    params e' = p /\ assigned Wpost e' /\
    (forall k, has W k = false -> attrs e' k = attrs e k).
Proof.
  intros Hr Hm Hp Ha.
  destruct (Hr (out (StageLine n) e) Hp Ha) as ([] & E & P & A).
  destruct (Hm (out (StageLine n) e)) as [_ K].
  exists (fst (c (out (StageLine n) e))).
  split; [| split; [exact P | split; [exact A | exact K]]].
  rewrite <- E. apply surjective_pairing.
Qed.

Lemma within_kept W e e' n lo hi :
  (forall k, has W k = false -> attrs e' k = attrs e k) ->
  has W n = false -> within e n lo hi -> within e' n lo hi.
Proof.
  intros K Hn (v & E & B). exists v. split; [| exact B].
  rewrite (K n Hn). exact E.
Qed.

Lemma Forall2_nth_error {A B} (R : A -> B -> Prop) l1 l2 :
  Forall2 R l1 l2 ->
  forall k a b, nth_error l1 k = Some a -> nth_error l2 k = Some b -> R a b.
Proof.
  induction 1 as [| x y l1 l2 Hxy _ IH]; intros [| k] a b Ha Hb;
    try discriminate.
  - injection Ha as <-. injection Hb as <-. exact Hxy.
  - exact (IH k a b Ha Hb).
Qed.

Lemma modifies_stage k W c :
  nth_error stage_names k = Some W -> nth_error stages k = Some c ->
  modifies W c.
Proof. apply (Forall2_nth_error _ _ _ modifies_stages). Qed.

(** What is known of the attributes of [e] is carried over [K] to the
    next engine, or dropped where the stage assigns the attribute. *)
Ltac keep_all K :=
  lazymatch type of K with
  | forall k, has _ k = false -> attrs _ k = attrs ?e k =>
      repeat match goal with
             | H : within e ?n ?lo ?hi |- _ =>
                 first [ apply (within_kept _ e _ n lo hi K eq_refl) in H
                       | clear H ]
             end
  end.

Lemma wp_returned {A} (c : M A) Q e e' x :
  c e = (e', inr x) -> wp c Q e -> Q e' (inr x).
Proof. unfold wp. intros ->. exact (fun H => H). Qed.

Lemma run_stages_next k c l e e' :
  c (out (StageLine k) e) = (e', inr tt) ->
  run_stages k (c :: l) e = run_stages (S k) l e'.
Proof. intros H. rewrite run_stages_cons. unfold out in H. now rewrite H. Qed.

(** The run on the default record, stage by stage. *)
Lemma reference_run :
  exists e',
    calculate_all (new_engine MP.default)
      = (e', inr (true, "计算完成"%string)) /\
    within e' "IN" 25.65 25.66 /\
    exists eta, attrs e' "eta_actual" = Some eta /\ 93.5 < eta < 100.
Proof.
  pose (e0 := announced (new_engine MP.default)).
  assert (V : valid_steel (MP.steel_type MP.default))
    by (unfold valid_steel; cbn; lia).
  assert (P0 : params e0 = MP.default) by reflexivity.
  assert (A0 : assigned (assigned_after 0) e0)
    by (intros n Hn; discriminate).
  (* stage 1 *)
  destruct (stage_step MP.default _ _ _ _ 1 e0 (returns_stage1 _)
              (modifies_stage 0 _ _ eq_refl eq_refl) P0 A0)
    as (e1 & R1 & P1 & A1 & K1).
  destruct (wp_returned _ _ _ _ _ R1
              (reference_stage1 (out (StageLine 1) e0) P0))
    as (H_IN & H_TAO).
  (* stage 2 *)
  destruct (stage_step MP.default _ _ _ _ 2 e1 (returns_stage2 _)
              (modifies_stage 1 _ _ eq_refl eq_refl) P1 A1)
    as (e2 & R2 & P2 & A2 & K2).
  keep_all K2.
  pose proof (wp_returned _ _ _ _ _ R2
                (reference_stage2 (out (StageLine 2) e1) P1)) as H_N.
  cbv beta in H_N.
  (* stage 3 *)
  destruct (stage_step MP.default _ _ _ _ 3 e2 (returns_stage3 _)
              (modifies_stage 2 _ _ eq_refl eq_refl) P2 A2)
    as (e3 & R3 & P3 & A3 & K3).
  keep_all K3.
  destruct (wp_returned _ _ _ _ _ R3
              (reference_stage3 (out (StageLine 3) e2) P2))
    as ((H_t1 & H_t2 & H_bt1 & H_bt2)
        & (H_hj1 & H_hj2 & H_ht1 & H_hr & H_Lj1 & H_Lj2)
        & (H_hs1 & H_Vt1 & H_Vj1)).
  (* stage 4 *)
  destruct (stage_step MP.default _ _ _ _ 4 e3 (returns_stage4 _)
              (modifies_stage 3 _ _ eq_refl eq_refl) P3 A3)
    as (e4 & R4 & P4 & A4 & K4).
  keep_all K4.
  destruct (wp_returned _ _ _ _ _ R4
              (reference_stage4 (out (StageLine 4) e3) P3))
    as (H_MUr & H_Am & H_FAIM).
  (* stage 5 *)
  destruct (stage_step MP.default _ _ _ _ 5 e4 (returns_stage5 _ V)
              (modifies_stage 4 _ _ eq_refl eq_refl) P4 A4)
    as (e5 & R5 & P5 & A5 & K5).
  destruct (wp_returned _ _ _ _ _ R5
              (reference_stage5 (out (StageLine 5) e4) P4
                 H_FAIM H_TAO H_t1 H_t2 H_bt1 H_bt2 H_hj1 H_hj2 H_ht1 H_hr
                 H_Lj1 H_Lj2 H_MUr H_Am A4))
    as (H_Bts & H_Bj1).
  keep_all K5.
  (* stage 6 *)
  destruct (stage_step MP.default _ _ _ _ 6 e5 (returns_stage6 _)
              (modifies_stage 5 _ _ eq_refl eq_refl) P5 A5)
    as (e6 & R6 & P6 & A6 & K6).
  pose proof (wp_returned _ _ _ _ _ R6
                (reference_stage6 (out (StageLine 6) e5) P5 H_hs1 H_N)
                eq_refl) as H_Rs.
  cbv beta in H_Rs.
  keep_all K6.
  (* stages 7 and 8 *)
  destruct (stage_step MP.default _ _ _ _ 7 e6 (returns_stage7 _)
              (modifies_stage 6 _ _ eq_refl eq_refl) P6 A6)
    as (e7 & R7 & P7 & A7 & K7).
  keep_all K7.
  destruct (stage_step MP.default _ _ _ _ 8 e7 (returns_stage8 _)
              (modifies_stage 7 _ _ eq_refl eq_refl) P7 A7)
    as (e8 & R8 & P8 & A8 & K8).
  keep_all K8.
  (* stage 9 *)
  destruct (stage_step MP.default _ _ _ _ 9 e8 (returns_stage9 _ V)
              (modifies_stage 8 _ _ eq_refl eq_refl) P8 A8)
    as (e9 & R9 & P9 & A9 & K9).
  destruct (wp_returned _ _ _ _ _ R9
              (reference_stage9 (out (StageLine 9) e8) P8
                 H_IN H_Rs H_Bts H_Bj1 H_Vt1 H_Vj1))
    as (_ & H_pSum).
  keep_all K9.
  (* stages 10 and 11 *)
  destruct (stage_step MP.default _ _ _ _ 10 e9 (returns_stage10 _)
              (modifies_stage 9 _ _ eq_refl eq_refl) P9 A9)
    as (e10 & R10 & P10 & A10 & K10).
  keep_all K10.
  destruct (stage_step MP.default _ _ _ _ 11 e10 (returns_stage11 _)
              (modifies_stage 10 _ _ eq_refl eq_refl) P10 A10)
    as (e11 & R11 & P11 & A11 & K11).
  destruct (wp_returned _ _ _ _ _ R11
              (reference_stage11 (out (StageLine 11) e10) P10 H_pSum)
              eq_refl) as (eta & E_eta & B_eta).
  keep_all K11.
  (* the results are saved *)
  assert (Run : run_stages 1 stages e0 = (e11, inr tt)).
  { unfold stages.
    rewrite (run_stages_next _ _ _ _ _ R1), (run_stages_next _ _ _ _ _ R2),
      (run_stages_next _ _ _ _ _ R3), (run_stages_next _ _ _ _ _ R4),
      (run_stages_next _ _ _ _ _ R5), (run_stages_next _ _ _ _ _ R6),
      (run_stages_next _ _ _ _ _ R7), (run_stages_next _ _ _ _ _ R8),
      (run_stages_next _ _ _ _ _ R9), (run_stages_next _ _ _ _ _ R10),
      (run_stages_next _ _ _ _ _ R11).
    reflexivity. }
  destruct (returns_save MP.default (out Finished e11) P11 A11)
    as ([] & S & _).
  destruct (modifies_save (out Finished e11)) as [_ K].
  destruct (save_complete_results (out Finished e11)) as [e12 r] eqn:Save.
  cbn [fst snd] in S, K. subst r.
  exists e12.
  split; [| split].
  - unfold calculate_all.
    exact (calculate_all_with_returns _ _ _ _ _ Run Save).
  - destruct H_IN as (v & Ev & Bv). exists v. split; [| exact Bv].
    rewrite K by reflexivity. exact Ev.
  - exists eta. split; [| exact B_eta].
    rewrite K by reflexivity. exact E_eta.
Qed.

(** C2, as the spec states it, fails on the default record: the rated
    current is not between 26 and 28 amperes. *)
Lemma reference_current_below_26 : ~ reference_scenario 26 28.
Proof.
  destruct reference_run as (e' & E & (v & Ev & Bv) & _).
  intros (_ & (I & EI & BI) & _).
  rewrite E in EI. cbn [fst] in EI. rewrite Ev in EI.
  injection EI as <-. lra.
Qed.

(** C2, as the code has it.  On the default record (15 kW, 380 V, star,
    power factor 0.95, target efficiency 0.935, steel DW315-50)
    [calculate_all] reports success; the rated current it computes is
    between 25.65 and 25.66 amperes; and the actual efficiency it computes
    is strictly between the target efficiency, 93.5 percent, and 100
    percent. *)
Theorem reference_run_succeeds : reference_scenario 25.65 25.66.
Proof.
  destruct reference_run as (e' & E & HI & (eta & Eeta & Beta)).
  unfold reference_scenario. rewrite E. cbn [fst snd].
  split; [reflexivity |]. split; [exact HI |].
  exists eta. split; [exact Eeta |]. cbn [MP.eff MP.default]. lra.
Qed.

(** * The magnetic circuit of stage 5 *)

(** ** What stages 1 to 4 leave for it *)

(** The attributes stage 5 reads before its first look-up and divides by,
    as stages 1 to 4 assign them on a fresh engine. *)
Lemma prepared_values (p : MotorParameters) :
  let e := prepared p in
  let D2 := p.(MP.Di1) - 2 * p.(MP.g) in
  let hr := p.(MP.h02) + p.(MP.hr12) in
  let hj1 := (p.(MP.D1) - p.(MP.Di1)) / 2
             - (p.(MP.h01) + p.(MP.h12) + 2 * p.(MP.R1) / 3) in
  let hj2 := if (p.(MP.Lev) =? 1)%Z
             then (D2 - p.(MP.Di2)) / 2 - hr - p.(MP.hM) else p.(MP.bM) in
  params e = p /\
  attrs e "nN" = Some (60 * p.(MP.f) / p.(MP.p)) /\
  attrs e "TAO" = Some (PI * p.(MP.Di1) / (2 * p.(MP.p))%Z) /\
  attrs e "t1" = Some (PI * p.(MP.Di1) / p.(MP.Q1)) /\
  attrs e "t2" = Some (PI * D2 / p.(MP.Q2)) /\
  attrs e "bt1"
  = Some ((p.(MP.Di1) + 2 * (p.(MP.h01) + p.(MP.h12))) * PI / p.(MP.Q1)
          - 2 * p.(MP.R1)) /\
  attrs e "bt2"
  = Some ((D2 - 2 * (p.(MP.h02) + p.(MP.hr12))) * PI / p.(MP.Q2)
          - p.(MP.br2)) /\
  attrs e "hj1" = Some hj1 /\
  attrs e "hj2" = Some hj2 /\
  attrs e "ht1" = Some (p.(MP.h12) + p.(MP.R1) / 3) /\
  attrs e "Lj1" = Some (PI * (p.(MP.D1) - hj1) / (4 * p.(MP.p))%Z) /\
  attrs e "hr" = Some hr /\
  attrs e "Lj2" = Some (PI * (p.(MP.Di2) + hj2) / (4 * p.(MP.p))%Z) /\
  attrs e "MUr" = Some (p.(MP.Br0) / (MUO * p.(MP.Hc0) * 1000)) /\
  attrs e "Am"
  = Some (if (p.(MP.Lev) =? 1)%Z then p.(MP.bM) * p.(MP.LM)
          else 2 * p.(MP.bM) * p.(MP.LM)) /\
  attrs e "FAIM"
  = Some ((if (p.(MP.Lev) =? 1)%Z then p.(MP.bM) * p.(MP.LM)
           else 2 * p.(MP.bM) * p.(MP.LM))
          * ((if (p.(MP.magnet) =? 1)%Z
              then 1 - (p.(MP.t) - 20) * 0.12e-2
              else 1 - (p.(MP.t) - 20) * 0.19e-2) * p.(MP.Br0))).
Proof.
  cbv zeta. unfold prepared.
  match goal with
  | |- ?G =>
      let Q := eval pattern (fst (run_stages 1 (firstn 4 stages)
                                    (new_engine p))) in G in
      lazymatch Q with
      | ?F _ => change (wp (run_stages 1 (firstn 4 stages))
                          (fun e _ => F e) (new_engine p))
      end
  end.
  unfold stages, firstn, run_stages.
  unfold calculate_basic_parameters, calculate_winding_parameters,
    calculate_geometry_parameters, calculate_magnet_parameters.
  repeat wp_step.
  all: try congruence.
  all: cbv beta; subst;
    repeat match goal with
           | H : (_ =? _)%Z = _ |- _ => rewrite ?H; clear H
           end.
  all: repeat split; reflexivity.
Qed.

(** ** One round on a circuit of positive dimensions *)

(** The field strength looked up for a defined grade is at least 70. *)
Lemma field_floor k H B :
  valid_steel k -> SteelDataTables.H_data k = Some H ->
  70 <= SteelDataTables.linear_interpolation SteelDataTables.B_data H B.
Proof.
  intros V EH.
  destruct (SteelFacts.H_data_ok k H EH) as [Hy Hl].
  assert (R : hd 0 H
              <= SteelDataTables.linear_interpolation
                   SteelDataTables.B_data H B <= last H 0).
  { apply SteelFacts.linear_interpolation_range;
      [exact SteelFacts.ascending_B_data | exact Hy | now rewrite Hl |].
    intros ->; discriminate. }
  assert (70 <= hd 0 H); [| lra].
  destruct (SteelFacts.valid_steel_cases k V) as [-> | [-> | [-> | [-> | ->]]]];
    injection EH as <-; cbn; lra.
Qed.

Ltac wp_steel EH :=
  lazymatch goal with
  | |- wp (bind (lift (SteelDataTables.get_BH_curve _ _)) _) _ _ =>
      apply wp_bind_lift; unfold SteelDataTables.get_BH_curve; rewrite EH
  | _ => wp_step
  end.

(** On an engine on which stages 1 to 4 have run for a defined grade and
    whose circuit has positive dimensions, a round entered with a positive
    iterate returns, and every number it divides by is positive: the flux,
    the airgap flux density, the sum of the magnetic potential differences
    and the permeances it computes are positive. *)
Lemma round_positive e x :
  ready e -> positive_circuit e -> 0 < x ->
  wp (loop_body x)
    (fun e' r =>
       exists l, r = inr l /\ 0 < l.(FI01) /\ 0 < l.(LUMDAm) /\
                 0 < l.(LUMDAn) /\ 0 <= l.(Ft1) /\ 0 <= l.(Ft2) /\
                 positive e' "Bg")
    e.
Proof.
  intros [As V] ((S0 & HM & G0 & G12 & LA) & Pos & NN & K1 & K2) Hx.
  destruct (valid_steel_H _ V) as [H EH].
  destruct (proj1 (Forall_forall _ _) Pos "FAIM"%string ltac:(cbn; tauto))
    as (FAIM & E_FAIM & B_FAIM).
  destruct (proj1 (Forall_forall _ _) Pos "TAO"%string ltac:(cbn; tauto))
    as (TAO & E_TAO & B_TAO).
  destruct (proj1 (Forall_forall _ _) Pos "t1"%string ltac:(cbn; tauto))
    as (t1 & E_t1 & B_t1).
  destruct (proj1 (Forall_forall _ _) Pos "t2"%string ltac:(cbn; tauto))
    as (t2 & E_t2 & B_t2).
  destruct (proj1 (Forall_forall _ _) Pos "bt1"%string ltac:(cbn; tauto))
    as (bt1 & E_bt1 & B_bt1).
  destruct (proj1 (Forall_forall _ _) Pos "bt2"%string ltac:(cbn; tauto))
    as (bt2 & E_bt2 & B_bt2).
  destruct (proj1 (Forall_forall _ _) Pos "hj1"%string ltac:(cbn; tauto))
    as (hj1 & E_hj1 & B_hj1).
  destruct (proj1 (Forall_forall _ _) Pos "hj2"%string ltac:(cbn; tauto))
    as (hj2 & E_hj2 & B_hj2).
  destruct (proj1 (Forall_forall _ _) Pos "MUr"%string ltac:(cbn; tauto))
    as (MUr & E_MUr & B_MUr).
  destruct (proj1 (Forall_forall _ _) Pos "Am"%string ltac:(cbn; tauto))
    as (Am & E_Am & B_Am).
  destruct (proj1 (Forall_forall _ _) NN "ht1"%string ltac:(cbn; tauto))
    as (ht1 & E_ht1 & B_ht1).
  destruct (proj1 (Forall_forall _ _) NN "Lj1"%string ltac:(cbn; tauto))
    as (Lj1 & E_Lj1 & B_Lj1).
  destruct (proj1 (Forall_forall _ _) NN "hr"%string ltac:(cbn; tauto))
    as (hr & E_hr & B_hr).
  destruct (proj1 (Forall_forall _ _) NN "Lj2"%string ltac:(cbn; tauto))
    as (Lj2 & E_Lj2 & B_Lj2).
  specialize (K1 _ E_t1). specialize (K2 _ E_t2). clear Pos NN.
  unfold loop_body, calculate_gap_factor.
  repeat wp_steel EH.
  eexists; split; [reflexivity |]. cbn [FI01 LUMDAm LUMDAn Ft1 Ft2].
  pose proof MUO_bounds as B_MUO.
  set (p := params e) in *.
  set (FI := x * FAIM / MP.SIGMA0 p * 1e-6) in *.
  assert (P_FI : 0 < FI).
  { assert (0 < x * FAIM / MP.SIGMA0 p)
      by (apply Rdiv_lt_0_compat; [apply Rmult_lt_0_compat |]; assumption).
    unfold FI. lra. }
  assert (P_v : 0 < v).
  { assert (0 < 0.64 * TAO * (MP.La p + 2 * MP.g p))
      by (apply Rmult_lt_0_compat; lra).
    assert (0 < FI / (0.64 * TAO * (MP.La p + 2 * MP.g p)))
      by (apply Rdiv_lt_0_compat; assumption).
    rewrite Ev. lra. }
  pose proof (field_floor _ _ v0 V EH) as F0.
  pose proof (field_floor _ _ v1 V EH) as F1.
  pose proof (field_floor _ _ v2 V EH) as F2.
  pose proof (field_floor _ _ v3 V EH) as F3.
  fold p in F0, F1, F2, F3.
  set (Hts := SteelDataTables.linear_interpolation _ H v0) in *.
  set (Hjs := SteelDataTables.linear_interpolation _ H v1) in *.
  set (Htr := SteelDataTables.linear_interpolation _ H v2) in *.
  set (Hjr := SteelDataTables.linear_interpolation _ H v3) in *.
  set (ttt := t1 * (4.4 * MP.g p + 0.75 * MP.b01 p)) in *.
  set (fff := t2 * (4.4 * MP.g p + 0.75 * MP.b02 p)) in *.
  assert (P_K1 : 0 < ttt / (ttt - MP.b01 p * MP.b01 p))
    by (apply Rdiv_lt_0_compat; nra).
  assert (P_K2 : 0 < fff / (fff - MP.b02 p * MP.b02 p))
    by (apply Rdiv_lt_0_compat; nra).
  set (Kg := ttt / (ttt - MP.b01 p * MP.b01 p)
             * (fff / (fff - MP.b02 p * MP.b02 p))) in *.
  assert (P_Kg : 0 < Kg) by (apply Rmult_lt_0_compat; assumption).
  assert (P_Fg : 0 < v / MUO * (MP.g12 p + MP.g p * Kg) * 1e-3).
  { assert (0 < v / MUO) by (apply Rdiv_lt_0_compat; lra).
    assert (0 < MP.g p * Kg) by (apply Rmult_lt_0_compat; assumption).
    assert (0 < v / MUO * (MP.g12 p + MP.g p * Kg))
      by (apply Rmult_lt_0_compat; lra).
    lra. }
  set (Fg := v / MUO * (MP.g12 p + MP.g p * Kg) * 1e-3) in *.
  assert (P_t1 : 0 <= Hts * ht1) by (apply Rmult_le_pos; lra).
  assert (P_j1 : 0 <= Hjs * Lj1) by (apply Rmult_le_pos; lra).
  assert (P_t2 : 0 <= Htr * hr) by (apply Rmult_le_pos; lra).
  assert (P_j2 : 0 <= Hjr * Lj2) by (apply Rmult_le_pos; lra).
  set (SUMF := 2 * (Fg + Hts * ht1 / 10 + Hjs * Lj1 / 10
                    + Htr * hr / 10 + Hjr * Lj2 / 10)) in *.
  assert (P_SUMF : 0 < SUMF) by (unfold SUMF; lra).
  assert (P_NUM : 0 < FI / SUMF) by (apply Rdiv_lt_0_compat; assumption).
  set (NUM := FI / SUMF) in *.
  assert (P_W : 0 < MUr * MUO * Am * 1e-6).
  { assert (0 < MUr * MUO) by (apply Rmult_lt_0_compat; lra).
    assert (0 < MUr * MUO * Am) by (apply Rmult_lt_0_compat; lra).
    lra. }
  set (W := MUr * MUO * Am * 1e-6) in *.
  assert (P_N : 0 < NUM * MP.hM p) by (apply Rmult_lt_0_compat; assumption).
  assert (P_L : 0 < (if (MP.Lev p =? 1)%Z
                     then NUM * 2 * MP.hM p * 1e-3 / W
                     else NUM * MP.hM p * 1e-3 / W)).
  { destruct (MP.Lev p =? 1)%Z; apply Rdiv_lt_0_compat; lra. }
  split; [exact P_FI |]. split; [exact P_L |].
  split; [apply Rmult_lt_0_compat; assumption |].
  split; [lra |]. split; [lra |].
  exists v. split; [reflexivity | exact P_v].
Qed.

(** The same in terms of the permeance and the operating point of the
    round. *)
Lemma round_returns e x :
  ready e -> positive_circuit e -> 0 < x ->
  exists l, snd (loop_body x e) = inr l /\ 0 < l.(LUMDAn) /\
            new_permeance e x = l.(LUMDAn) /\ new_point e x = l.(bm0) /\
            l.(bm0) = l.(LUMDAn) / (l.(LUMDAn) + 1) /\ 0 < l.(bm0) < 1.
Proof.
  intros Hr Hc Hx.
  destruct (round_positive e x Hr Hc Hx) as (l & E & _ & _ & P & _).
  exists l. split; [exact E |]. split; [exact P |].
  assert (Ep : new_permeance e x = LUMDAn l)
    by (unfold new_permeance; now rewrite E).
  assert (Eg : new_point e x = bm0 l) by (apply new_point_spec; exact E).
  split; [exact Ep |]. split; [exact Eg |].
  split; [exact (loop_body_bm0 e x l E) |].
  rewrite <- Eg. apply new_point_in_unit_interval. rewrite Ep. exact P.
Qed.

(** Every iterate of the damped iteration, and every operating point
    computed from one, is strictly between 0 and 1. *)
Lemma iterates_in_unit_interval e :
  ready e -> positive_circuit e ->
  forall j,
    0 < damped (new_point e) j (initial_bm01 (params e)) < 1 /\
    0 < new_point e (damped (new_point e) j (initial_bm01 (params e))) < 1.
Proof.
  intros Hr Hc.
  assert (H0 : 0 < initial_bm01 (params e) < 1).
  { destruct Hc as ((S0 & HM & G0 & _) & _).
    apply initial_bm01_in_unit_interval; assumption. }
  assert (Step : forall y, 0 < y < 1 -> 0 < new_point e y < 1).
  { intros y Hy.
    destruct (round_returns e y Hr Hc ltac:(lra)) as (l & _ & _ & _ & -> & _ & B).
    exact B. }
  induction j as [| j [IH1 IH2]].
  - split; [exact H0 | apply Step; exact H0].
  - rewrite damped_succ.
    assert (0 < (damped (new_point e) j (initial_bm01 (params e))
                 + new_point e (damped (new_point e) j
                                  (initial_bm01 (params e)))) / 2 < 1)
      by lra.
    split; [assumption | apply Step; assumption].
Qed.



(** C10.  The start value of the loop of stage 5 is strictly between 0
    and 1 when the magnet thickness, the airgap and the leakage factor are
    positive; whenever a round computes a positive permeance [LUMDAn], its
    operating point [LUMDAn / (LUMDAn + 1)] is strictly between 0 and 1;
    and the mean of two such values is one again.  On an engine on which
    stages 1 to 4 have run for a defined steel grade and whose magnetic
    circuit has positive dimensions, every round entered with a positive
    iterate returns with a positive permeance; hence the iterate of every
    round the loop runs, the operating point computed from it, the next
    iterate, and the operating point stage 5 stores are all strictly
    between 0 and 1. *)
Theorem operating_point_in_unit_interval (e : engine) :
  0 < (params e).(MP.hM) -> 0 < (params e).(MP.g) ->
  0 < (params e).(MP.SIGMA0) ->
  let G := new_point e in
  let x k := damped G k (initial_bm01 (params e)) in
  0 < initial_bm01 (params e) < 1 /\
  (forall y l, snd (loop_body y e) = inr l -> 0 < l.(LUMDAn) ->
     l.(bm0) = l.(LUMDAn) / (l.(LUMDAn) + 1) /\ 0 < l.(bm0) < 1) /\
  (forall a b, 0 < a < 1 -> 0 < b < 1 -> 0 < (a + b) / 2 < 1) /\
  (ready e -> positive_circuit e ->
   (forall y, 0 < y ->
      exists l, snd (loop_body y e) = inr l /\ 0 < l.(LUMDAn)) /\
   exists k l,
     snd (for_range 29 0 (initial_bm01 (params e)) (entered e))
     = inr (k, l) /\
     (forall j, (j <= k)%nat ->
        0 < x j < 1 /\ 0 < G (x j) < 1 /\
        x (S j) = (x j + G (x j)) / 2 /\ 0 < x (S j) < 1) /\
     snd (loop_body (x k) e) = inr l /\
     attr_after calculate_no_load_magnetic_circuit e "bm0"
     = Some l.(bm0) /\
     0 < l.(bm0) < 1).
Proof.
  intros HM G0 S0 G x.
  split; [apply initial_bm01_in_unit_interval; assumption |].
  split.
  { intros y l E P. split; [exact (loop_body_bm0 e y l E) |].
    rewrite <- (new_point_spec e y l E).
    apply new_point_in_unit_interval.
    unfold new_permeance. rewrite E. exact P. }
  split; [exact mean_in_unit_interval |].
  intros Hr Hc.
  pose proof (iterates_in_unit_interval e Hr Hc) as It.
  split.
  { intros y Hy.
    destruct (round_returns e y Hr Hc Hy) as (l & E & P & _).
    exists l. split; assumption. }
  assert (Ha : agree (assigned_after 4) false (entered e) e).
  { unfold entered. apply agree_out. repeat split; auto; discriminate. }
  destruct (for_range_spec e 29 Hr 0%nat (initial_bm01 (params e))
              (entered e) Ha)
    as (k & l & E & _ & Hk & L & _).
  exists k, l. cbn [Nat.add] in E.
  split; [exact E |].
  split.
  { intros j _. destruct (It j) as [A B]. destruct (It (S j)) as [A' _].
    split; [exact A |]. split; [exact B |].
    split; [apply damped_succ | exact A']. }
  split; [exact L |].
  split.
  - eapply stage5_stores_last_point with (k := k).
    rewrite <- E. apply surjective_pairing.
  - rewrite <- (new_point_spec e _ l L). exact (proj2 (It k)).
Qed.

(** ** The reference record *)

(** The circuit that stages 1 to 4 leave on the default record has
    positive dimensions. *)
Lemma reference_circuit_positive : positive_circuit (prepared MP.default).
Proof.
  pose proof (prepared_values MP.default) as PV. cbv zeta in PV.
  set (e := prepared MP.default) in *. clearbody e.
  destruct PV as (Pp & _ & E_TAO & E_t1 & E_t2 & E_bt1 & E_bt2 & E_hj1
                  & E_hj2 & E_ht1 & E_Lj1 & E_hr & E_Lj2 & E_MUr & E_Am
                  & E_FAIM).
  pose proof PI_bounds as HPI. pose proof MUO_bounds as HM.
  unfold positive_circuit. rewrite Pp.
  split; [defaults; repeat split; lra |].
  split.
  { repeat apply Forall_cons; try apply Forall_nil; unfold positive.
    all: eexists; (split; [eassumption |]); defaults; try lra.
    apply Rdiv_lt_0_compat; lra. }
  split.
  { repeat apply Forall_cons; try apply Forall_nil; unfold not_negative.
    all: eexists; (split; [eassumption |]); defaults; lra. }
  split.
  - intros t1 Ht. rewrite E_t1 in Ht. injection Ht as <-. defaults. lra.
  - intros t2 Ht. rewrite E_t2 in Ht. injection Ht as <-. defaults. lra.
Qed.


Lemma operating_point_in_unit_interval_witness :
  0 < (params (prepared MP.default)).(MP.hM) /\
  ready (prepared MP.default) /\ positive_circuit (prepared MP.default) /\
  exists b,
    attr_after calculate_no_load_magnetic_circuit (prepared MP.default)
      "bm0" = Some b /\ 0 < b < 1.
Proof.
  assert (R : ready (prepared MP.default)).
  { apply prepared_ready. unfold valid_steel; cbn; lia. }
  pose proof reference_circuit_positive as C.
  destruct C as ((S0 & HM & G0 & G12) & C').
  split; [exact HM |]. split; [exact R |].
  split; [exact (conj (conj S0 (conj HM (conj G0 G12))) C') |].
  destruct (operating_point_in_unit_interval (prepared MP.default) HM G0 S0)
    as (_ & _ & _ & T).
  destruct (T R (conj (conj S0 (conj HM (conj G0 G12))) C'))
    as (_ & k & l & _ & _ & _ & S5 & B).
  exists (bm0 l). split; [exact S5 | exact B].
Defined.

(** ** An undefined steel grade *)

Ltac undefined_defaults :=
  unfold undefined_grade, MP.with_steel_type; defaults.

(** On the reference record with grade 6 the code divides by nothing that
    is zero before the first look-up. *)
Lemma undefined_grade_divisors :
  Forall (fun d => d <> 0) (divisors_before_lookup undefined_grade).
Proof.
  apply Forall_impl with (P := fun d => 0 < d);
    [intros d Hd; apply Rgt_not_eq; exact Hd |].
  pose proof (prepared_values undefined_grade) as PV. cbv zeta in PV.
  unfold divisors_before_lookup. cbv zeta.
  set (e := prepared undefined_grade) in *. clearbody e.
  destruct PV as (_ & E_nN & E_TAO & _ & _ & E_bt1 & E_bt2 & E_hj1 & E_hj2
                  & _).
  unfold val. rewrite E_nN, E_TAO, E_bt1, E_bt2, E_hj1, E_hj2.
  pose proof PI_bounds as HPI. pose proof MUO_bounds as HM.
  pose proof sqrt3_bounds as HS.
  change (is_Y (MP.wgco undefined_grade)) with true.
  change (is_Y (MP.sks undefined_grade)) with true.
  change (negb (is_in (MP.LE undefined_grade) [1; 2; 3]%Z)) with false.
  cbv iota. cbn [app].
  assert (U : 219.39 <= 380.0 / sqrt 3 <= 219.40)
    by (apply div_between; lra).
  assert (T : 0 < PI * 170.0 / 4) by lra.
  repeat apply Forall_cons; try apply Forall_nil.
  all: undefined_defaults; try lra.
  - assert (0 < sin (PI / (6 * (36 / 12)))) by (apply sin_gt_0; lra).
    lra.
  - assert (0 < 36 * (PI * 170.0 / 36) / 38 / (PI * 170.0 / 4))
      by (apply Rdiv_lt_0_compat; lra).
    apply Rmult_lt_0_compat; lra.
Qed.

(** C3, as the code has it.  For every record whose steel grade is not one
    of the five, a run on a fresh engine is not stopped before stage 1:
    stage 1 is announced, the run reports failure and [results] stays
    empty.  When the code divides by nothing that is zero before the first
    table look-up (so that no arithmetic error comes first), stages 1 to 4
    run and assign their attributes, stage 5 is entered, its first look-up
    in [H_data] raises [KeyError], and the message [calculate_all] returns
    is the key. *)
Theorem undefined_grade_fails_in_stage_5 (p : MotorParameters) :
  ~ valid_steel p.(MP.steel_type) ->
  let r := calculate_all (new_engine p) in
  (exists msg, snd r = inr (false, msg)) /\
  results (fst r) = [] /\
  (exists out,
     stdout (fst r) = (Banner "未知" :: StageLine 1 :: out)%list) /\
  (Forall (fun d => d <> 0) (divisors_before_lookup p) ->
   snd r = inr (false, ("计算错误: " ++ str_int p.(MP.steel_type))%string) /\
   assigned (assigned_after 4) (fst r) /\
   stdout (fst r) =
     [ Banner "未知"; StageLine 1; StageLine 2; StageLine 3; StageLine 4;
       StageLine 5; IterStart (initial_bm01 p);
       ErrorLine (KeyError p.(MP.steel_type)) ]).
Proof.
  intros Hinv r.
  destruct (undefined_grade_run p Hinv) as (E & R & A & O).
  fold r in E, R, A, O.
  split; [eexists; exact E |]. split; [exact R |].
  split; [eexists; rewrite O; reflexivity |].
  intros _. repeat split; assumption.
Qed.

Lemma undefined_grade_fails_in_stage_5_witness :
  ~ valid_steel undefined_grade.(MP.steel_type) /\
  Forall (fun d => d <> 0) (divisors_before_lookup undefined_grade) /\
  snd (calculate_all (new_engine undefined_grade))
    = inr (false, "计算错误: 6"%string).
Proof.
  assert (H : ~ valid_steel undefined_grade.(MP.steel_type)).
  { unfold valid_steel; cbn; lia. }
  split; [exact H |]. split; [exact undefined_grade_divisors |].
  exact (proj1 (proj2 (proj2 (proj2
           (undefined_grade_fails_in_stage_5 undefined_grade H)))
           undefined_grade_divisors)).
Defined.

(** * Further properties of the tables and of the stages *)

(** ** The steel tables *)

Section Knots.
Import SteelDataTables SteelFacts.

(** X1.  Over any strictly ascending grid, the interpolation of
    [linear_interpolation] returns the tabulated ordinate at every grid
    point: the first and the last by the two clamping branches, the inner
    ones by [np.interp]. *)
Theorem interpolation_through_points (xs ys : list R) (i : nat) :
  ascending xs -> List.length xs = List.length ys ->
  (i < List.length xs)%nat ->
  linear_interpolation xs ys (nth i xs 0) = nth i ys 0.
Proof.
  intros Hx Hl Hi. unfold linear_interpolation.
  destruct xs as [| x0 xs]; [cbn in Hi; lia |].
  destruct ys as [| y0 ys]; [discriminate |].
  cbn [hd].
  destruct (Rle_dec (nth i (x0 :: xs) 0) x0) as [L | L].
  - destruct i as [| i]; [reflexivity |]. cbn [nth] in L.
    pose proof (ascending_above_head x0 xs Hx i
                  ltac:(cbn [List.length] in Hi; lia)). lra.
  - destruct (Rge_dec (nth i (x0 :: xs) 0) (last (x0 :: xs) 0)) as [G | G].
    + destruct (Nat.lt_ge_cases (S i) (List.length (x0 :: xs))) as [Lt | Ge].
      * pose proof (ascending_below_last _ Hx i Lt). lra.
      * rewrite last_is_nth. f_equal. rewrite <- Hl. lia.
    + apply np_interp_at_knot; assumption.
Qed.

Lemma interpolation_through_points_witness :
  linear_interpolation B_data H_DW315_50 (nth 22 B_data 0)
  = nth 22 H_DW315_50 0.
Proof.
  apply (interpolation_through_points B_data H_DW315_50 22).
  - exact ascending_B_data.
  - reflexivity.
  - cbn; lia.
Defined.

(** X2.  For each of the five grades and every flux density, both
    look-ups return a value between the first and the last entry of the
    table of the grade, never one outside the table; in particular the
    field strength is at least 70 and the loss density at least 0.3, so
    both are positive. *)
Theorem steel_lookup_within_table (k : Z) (B : R) :
  valid_steel k ->
  exists H P h q,
    H_data k = Some H /\ P_data k = Some P /\
    get_BH_curve B k = inr h /\ get_iron_loss B k = inr q /\
    hd 0 H <= h <= last H 0 /\ hd 0 P <= q <= last P 0 /\
    70 <= h /\ 0.3 <= q.
Proof.
  intros V.
  destruct (valid_steel_H k V) as [H EH], (valid_steel_P k V) as [P EP].
  destruct (H_data_ok k H EH) as [HyH HlH], (P_data_ok k P EP) as [HyP HlP].
  assert (RH : hd 0 H <= linear_interpolation B_data H B <= last H 0).
  { apply linear_interpolation_range;
      [exact ascending_B_data | exact HyH | now rewrite HlH |].
    intros ->; discriminate. }
  assert (RP : hd 0 P <= linear_interpolation B_data P B <= last P 0).
  { apply linear_interpolation_range;
      [exact ascending_B_data | exact HyP | now rewrite HlP |].
    intros ->; discriminate. }
  exists H, P, (linear_interpolation B_data H B),
    (linear_interpolation B_data P B).
  unfold get_BH_curve, get_iron_loss. rewrite EH, EP.
  repeat split; try reflexivity; try lra.
  - assert (70 <= hd 0 H); [| lra].
    destruct (valid_steel_cases k V) as [-> | [-> | [-> | [-> | ->]]]];
      injection EH as <-; cbn; lra.
  - assert (0.3 <= hd 0 P); [| lra].
    destruct (valid_steel_cases k V) as [-> | [-> | [-> | [-> | ->]]]];
      injection EP as <-; cbn; lra.
Qed.

Lemma steel_lookup_within_table_witness :
  exists h q,
    get_BH_curve 1.0 5 = inr h /\ get_iron_loss 1.0 5 = inr q /\
    70 <= h /\ 0.3 <= q.
Proof.
  destruct (steel_lookup_within_table 5 1.0) as (H & P & h & q & T).
  - unfold valid_steel; lia.
  - exists h, q. tauto.
Defined.

Lemma invalid_steel_P k : ~ valid_steel k -> P_data k = None.
Proof.
  unfold valid_steel. intros N.
  destruct k as [| q | q]; try reflexivity.
  do 3 (try (destruct q as [q | q |]; try reflexivity)); exfalso; lia.
Qed.

(** X3.  A grade outside 1 to 5 is exactly what makes the two look-ups
    raise [KeyError] (with the grade as key, at every flux density), and
    exactly what makes [get_steel_name] answer with the placeholder name
    instead of raising. *)
Theorem steel_lookup_key_error (k : Z) (B : R) :
  (~ valid_steel k <-> get_BH_curve B k = inl (KeyError k)) /\
  (~ valid_steel k <-> get_iron_loss B k = inl (KeyError k)) /\
  (~ valid_steel k <-> get_steel_name k = "未知"%string).
Proof.
  assert (D : valid_steel k \/ ~ valid_steel k)
    by (unfold valid_steel; lia).
  unfold get_BH_curve, get_iron_loss.
  repeat split.
  - intros N. now rewrite (invalid_steel_H k N).
  - intros E V. destruct (valid_steel_H k V) as [H EH].
    rewrite EH in E. discriminate.
  - intros N. now rewrite (invalid_steel_P k N).
  - intros E V. destruct (valid_steel_P k V) as [P EP].
    rewrite EP in E. discriminate.
  - exact (invalid_steel_name k).
  - intros E V.
    destruct (valid_steel_cases k V) as [-> | [-> | [-> | [-> | ->]]]];
      discriminate E.
Qed.

End Knots.

(** ** The stages one by one *)

(** The value of an attribute after a call, read off a run of the call. *)
Ltac after_call c :=
  unfold attr_after;
  lazymatch goal with
  | |- ?G =>
      let e := lazymatch G with context [fst (c ?e)] => e end in
      let Q := eval pattern (fst (c e)) in G in
      lazymatch Q with
      | ?F _ => change (wp c (fun e' _ => F e') e)
      end
  end.

(** X4.  Stage 1, whenever none of its divisors (frequency, pole pairs,
    phases, voltage, efficiency, power factor) is zero: the rated current
    times the phase voltage, the number of phases, the efficiency and the
    power factor is the rated power in watts, with the line voltage over
    [sqrt 3] as phase voltage in star; the rated torque times the
    synchronous angular speed is the rated power too; and the pole pitch
    times the number of poles is the circumference of the stator bore. *)
Theorem rated_current_torque_and_pole_pitch (e : engine) :
  let p := params e in
  p.(MP.f) <> 0 -> IZR p.(MP.p) <> 0 -> IZR p.(MP.m) <> 0 ->
  p.(MP.UN) <> 0 -> p.(MP.eff) <> 0 -> p.(MP.cosfi) <> 0 ->
  exists OMGs IN TN TAO,
    attr_after calculate_basic_parameters e "OMGs" = Some OMGs /\
    attr_after calculate_basic_parameters e "IN" = Some IN /\
    attr_after calculate_basic_parameters e "TN" = Some TN /\
    attr_after calculate_basic_parameters e "TAO" = Some TAO /\
    IN * (p.(MP.m)
          * (if is_Y p.(MP.wgco) then p.(MP.UN) / sqrt 3 else p.(MP.UN))
          * p.(MP.eff) * p.(MP.cosfi)) = p.(MP.PN) * 1000 /\
    TN * OMGs = p.(MP.PN) * 1000 /\
    TAO * (2 * p.(MP.p))%Z = PI * p.(MP.Di1).
Proof.
  intros p Hf Hp Hm HU He Hc. after_call calculate_basic_parameters.
  unfold calculate_basic_parameters. repeat wp_step.
  pose proof PI_RGT_0 as HPI. pose proof sqrt3_bounds as H3.
  do 4 eexists.
  do 4 (split; [reflexivity |]).
  subst. fold p. rewrite mult_IZR.
  split; [| split; field; repeat split; lra].
  destruct (is_Y (MP.wgco p)); field; repeat split; lra.
Qed.

Lemma rated_current_torque_and_pole_pitch_witness :
  exists OMGs TN,
    attr_after calculate_basic_parameters (new_engine MP.default) "OMGs"
      = Some OMGs /\
    attr_after calculate_basic_parameters (new_engine MP.default) "TN"
      = Some TN /\
    TN * OMGs = 15.0 * 1000.
Proof.
  destruct (rated_current_torque_and_pole_pitch (new_engine MP.default))
    as (OMGs & IN & TN & TAO & H1 & _ & H2 & _ & _ & H4 & _).
  all: try (cbn; lra).
  exists OMGs, TN. auto.
Defined.

(** X5.  Stage 3, whenever the slot numbers and the number of pole pairs
    (its divisors) are not zero: each tooth pitch times its slot number is
    the circumference it divides (the stator bore, and the rotor surface
    one airgap inside it on each side); the two heights of the rotor slot
    add up to the slot height; and in the radial magnet arrangement the
    rotor yoke, the rotor slot and the magnet fill the rotor from the shaft
    bore to the surface. *)
Theorem geometry_adds_up (e : engine) :
  let p := params e in
  IZR p.(MP.Q1) <> 0 -> IZR p.(MP.Q2) <> 0 -> IZR p.(MP.p) <> 0 ->
  snd (calculate_geometry_parameters e) = inr tt /\
  exists t1 t2 D2 hr1 hr2 hr hj2,
    attr_after calculate_geometry_parameters e "t1" = Some t1 /\
    attr_after calculate_geometry_parameters e "t2" = Some t2 /\
    attr_after calculate_geometry_parameters e "D2" = Some D2 /\
    attr_after calculate_geometry_parameters e "hr1" = Some hr1 /\
    attr_after calculate_geometry_parameters e "hr2" = Some hr2 /\
    attr_after calculate_geometry_parameters e "hr" = Some hr /\
    attr_after calculate_geometry_parameters e "hj2" = Some hj2 /\
    t1 * p.(MP.Q1) = PI * p.(MP.Di1) /\
    D2 = p.(MP.Di1) - 2 * p.(MP.g) /\
    t2 * p.(MP.Q2) = PI * D2 /\
    hr1 + hr2 = p.(MP.hr12) /\
    (p.(MP.Lev) = 1%Z ->
     p.(MP.Di2) + 2 * (hj2 + hr + p.(MP.hM)) = D2).
Proof.
  intros p H1 H2 H3. unfold attr_after.
  change (wp calculate_geometry_parameters
            (fun e' r =>
               r = inr tt /\
               exists t1 t2 D2 hr1 hr2 hr hj2,
                 attrs e' "t1" = Some t1 /\ attrs e' "t2" = Some t2 /\
                 attrs e' "D2" = Some D2 /\ attrs e' "hr1" = Some hr1 /\
                 attrs e' "hr2" = Some hr2 /\ attrs e' "hr" = Some hr /\
                 attrs e' "hj2" = Some hj2 /\
                 t1 * p.(MP.Q1) = PI * p.(MP.Di1) /\
                 D2 = p.(MP.Di1) - 2 * p.(MP.g) /\
                 t2 * p.(MP.Q2) = PI * D2 /\
                 hr1 + hr2 = p.(MP.hr12) /\
                 (p.(MP.Lev) = 1%Z ->
                  p.(MP.Di2) + 2 * (hj2 + hr + p.(MP.hM)) = D2)) e).
  unfold calculate_geometry_parameters. repeat wp_step.
  all: split; [reflexivity |].
  all: do 7 eexists.
  all: repeat (split; [reflexivity |]).
  all: subst; fold p.
  all: repeat split; try (field; assumption); try lra.
  all: intros L; try lra.
  all: match goal with
       | H : (_ =? 1)%Z = false |- _ => apply Z.eqb_neq in H; contradiction
       end.
Qed.

Lemma geometry_adds_up_witness :
  exists t1,
    attr_after calculate_geometry_parameters (new_engine MP.default) "t1"
      = Some t1 /\
    t1 * 36 = PI * 170.0.
Proof.
  destruct (geometry_adds_up (new_engine MP.default))
    as (_ & t1 & t2 & D2 & hr1 & hr2 & hr & hj2 & E & _ & _ & _ & _ & _ & _
        & H & _).
  all: try (cbn; lra).
  exists t1. split; [exact E | exact H].
Defined.

(** X6.  Stage 2, whenever the numbers of phases, of parallel branches,
    of pole pairs and of stator slots (its divisors) are not zero.  The
    turns in series per phase times [2 m a] are the conductors of all
    slots.  For the single-layer windings (type 1, 2 or 3) the coil pitch
    [y] is not used and the pitch factor is 1.  Without skew (any [sks]
    whose upper case is not Y) the stage returns without reading the pole
    pitch, the skew factor is 1, and the winding factor is the product of
    the pitch and distribution factors. *)
Theorem winding_factors_without_pitch_or_skew (e : engine) :
  let p := params e in
  IZR p.(MP.m) <> 0 -> IZR p.(MP.a) <> 0 ->
  IZR p.(MP.p) <> 0 -> IZR p.(MP.Q1) <> 0 ->
  (exists N,
     attr_after calculate_winding_parameters e "N" = Some N /\
     N * (2 * p.(MP.m) * p.(MP.a))%Z = (p.(MP.Q1) * p.(MP.Ns))%Z) /\
  (is_in p.(MP.LE) [1; 2; 3]%Z = true ->
   attr_after calculate_winding_parameters e "Kp1" = Some 1) /\
  (is_Y p.(MP.sks) = false ->
   snd (calculate_winding_parameters e) = inr tt /\
   attr_after calculate_winding_parameters e "Ksk1" = Some 1 /\
   exists Kp1 Kd1,
     attr_after calculate_winding_parameters e "Kp1" = Some Kp1 /\
     attr_after calculate_winding_parameters e "Kd1" = Some Kd1 /\
     attr_after calculate_winding_parameters e "Kdp" = Some (Kp1 * Kd1)).
Proof.
  intros p Hm Ha Hp HQ. split; [| split].
  - after_call calculate_winding_parameters.
    unfold calculate_winding_parameters. repeat wp_step_cases.
    all: eexists; split;
      [project; cbn [String.eqb Ascii.eqb Bool.eqb]; reflexivity |].
    all: subst; fold p.
    all: assert (D : IZR (2 * MP.m p * MP.a p) <> 0)
           by (rewrite !mult_IZR; repeat apply Rmult_integral_contrapositive_currified; lra).
    all: field; exact D.
  - intros L. after_call calculate_winding_parameters.
    unfold calculate_winding_parameters. repeat wp_step_cases.
    all: project; cbn [String.eqb Ascii.eqb Bool.eqb]; f_equal; subst.
    all: fold p; rewrite L; cbn [negb].
    all: replace (1.0 * PI / 2) with (PI / 2) by lra; exact sin_PI2.
  - intros S.
    change (wp calculate_winding_parameters
              (fun e' r =>
                 r = inr tt /\ attrs e' "Ksk1" = Some 1 /\
                 exists Kp1 Kd1,
                   attrs e' "Kp1" = Some Kp1 /\ attrs e' "Kd1" = Some Kd1 /\
                   attrs e' "Kdp" = Some (Kp1 * Kd1)) e).
    unfold calculate_winding_parameters.
    wp_step. wp_step. wp_step. wp_step.
    fold p. rewrite S. repeat wp_step.
    split; [reflexivity |]. split; [cbn; f_equal; lra |].
    do 2 eexists. split; [reflexivity |]. split; [reflexivity |].
    cbn. f_equal. subst. lra.
Qed.

Lemma winding_factors_without_pitch_or_skew_witness :
  attr_after calculate_winding_parameters (new_engine MP.default) "Kp1"
  = Some 1.
Proof.
  destruct (winding_factors_without_pitch_or_skew (new_engine MP.default))
    as (_ & K & _).
  all: try (cbn; lra).
  exact (K eq_refl).
Defined.

(** X7.  The airgap factor.  Without the stator tooth pitch the call
    raises [AttributeError] for [t1].  With both tooth pitches assigned,
    slot openings of positive width and each product
    [t (4.4 g + 0.75 b0)] above the square of its slot opening, the call
    leaves the engine as it is and returns a factor above 1. *)
Theorem gap_factor_above_one (e : engine) :
  let p := params e in
  (attrs e "t1" = None ->
   calculate_gap_factor e = (e, inl (AttributeError "t1"))) /\
  (forall t1 t2,
     attrs e "t1" = Some t1 -> attrs e "t2" = Some t2 ->
     0 < p.(MP.b01) -> 0 < p.(MP.b02) ->
     p.(MP.b01) * p.(MP.b01)
       < t1 * (4.4 * p.(MP.g) + 0.75 * p.(MP.b01)) ->
     p.(MP.b02) * p.(MP.b02)
       < t2 * (4.4 * p.(MP.g) + 0.75 * p.(MP.b02)) ->
     exists Kg, calculate_gap_factor e = (e, inr Kg) /\ 1 < Kg).
Proof.
  intros p. split.
  - intros N. unfold calculate_gap_factor, bind, self_params, self.
    now rewrite N.
  - intros t1 t2 E1 E2 B1 B2 H1 H2.
    unfold calculate_gap_factor, bind, self_params, self, ret.
    rewrite E1, E2. fold p. eexists. split; [reflexivity |].
    set (a := t1 * (4.4 * MP.g p + 0.75 * MP.b01 p)) in *.
    set (b := t2 * (4.4 * MP.g p + 0.75 * MP.b02 p)) in *.
    assert (Ha : 1 < a / (a - MP.b01 p * MP.b01 p)).
    { apply Rmult_lt_reg_r with (a - MP.b01 p * MP.b01 p); [lra |].
      replace (a / (a - MP.b01 p * MP.b01 p) * (a - MP.b01 p * MP.b01 p))
        with a by (field; lra).
      nra. }
    assert (Hb : 1 < b / (b - MP.b02 p * MP.b02 p)).
    { apply Rmult_lt_reg_r with (b - MP.b02 p * MP.b02 p); [lra |].
      replace (b / (b - MP.b02 p * MP.b02 p) * (b - MP.b02 p * MP.b02 p))
        with b by (field; lra).
      nra. }
    nra.
Qed.

Lemma gap_factor_above_one_witness :
  exists Kg,
    calculate_gap_factor
      (upd "t2" 16 (upd "t1" 14 (new_engine MP.default)))
    = (upd "t2" 16 (upd "t1" 14 (new_engine MP.default)), inr Kg) /\
    1 < Kg.
Proof.
  apply (proj2 (gap_factor_above_one
                  (upd "t2" 16 (upd "t1" 14 (new_engine MP.default))))
           14 16); try reflexivity; cbn; lra.
Defined.

(** A default engine on which every stage has run. *)
Lemma reference_engine_assigned :
  params (fst (calculate_all (new_engine MP.default))) = MP.default /\
  assigned (assigned_after 11) (fst (calculate_all (new_engine MP.default))).
Proof.
  destruct (calculate_all_succeeds (new_engine MP.default)) as [_ A].
  { unfold valid_steel; cbn; lia. }
  split; [| exact A].
  destruct (returns_try_block MP.default) with (e := new_engine MP.default)
    as (x & E & P & _).
  - unfold valid_steel; cbn; lia.
  - reflexivity.
  - intros n Hn; discriminate.
  - unfold calculate_all. rewrite calculate_all_with_eq.
    destruct (try_block stages save_complete_results (new_engine MP.default))
      as [e' r]. cbn [fst snd] in *. subst r. exact P.
Qed.

Lemma assigned_covers big small e :
  covers big small = true -> assigned big e -> assigned small e.
Proof. intros C A n Hn. apply A. exact (covers_has _ _ _ C Hn). Qed.

(** X8.  Stage 7, when it returns: the direct-axis armature reactance is
    not negative, each synchronous reactance is the armature reactance of
    its axis plus the stator leakage reactance, and the quadrature-axis
    armature reactance and conversion factor are [Kq] times those of the
    direct axis. *)
Theorem reactances_of_the_two_axes (e : engine) :
  snd (calculate_performance e) = inr tt ->
  exists X1 Xad Xd Xaq Xq Kad Kaq,
    attrs e "X1" = Some X1 /\
    attr_after calculate_performance e "Xad" = Some Xad /\
    attr_after calculate_performance e "Xd" = Some Xd /\
    attr_after calculate_performance e "Xaq" = Some Xaq /\
    attr_after calculate_performance e "Xq" = Some Xq /\
    attr_after calculate_performance e "Kad" = Some Kad /\
    attr_after calculate_performance e "Kaq" = Some Kaq /\
    0 <= Xad /\ Xd = Xad + X1 /\ Xq = Xaq + X1 /\
    Xaq = (params e).(MP.Kq) * Xad /\ Kaq = (params e).(MP.Kq) * Kad.
Proof.
  unfold attr_after.
  change (wp calculate_performance
            (fun e' r =>
               r = inr tt ->
               exists X1 Xad Xd Xaq Xq Kad Kaq,
                 attrs e "X1" = Some X1 /\
                 attrs e' "Xad" = Some Xad /\ attrs e' "Xd" = Some Xd /\
                 attrs e' "Xaq" = Some Xaq /\ attrs e' "Xq" = Some Xq /\
                 attrs e' "Kad" = Some Kad /\ attrs e' "Kaq" = Some Kaq /\
                 0 <= Xad /\ Xd = Xad + X1 /\ Xq = Xaq + X1 /\
                 Xaq = (params e).(MP.Kq) * Xad /\
                 Kaq = (params e).(MP.Kq) * Kad) e).
  unfold calculate_performance. repeat wp_step_cases.
  all: intros R; try discriminate R.
  do 7 eexists.
  split; [eassumption |].
  repeat (split; [reflexivity |]).
  subst. repeat split; try lra.
  apply Rabs_pos.
Qed.

Lemma reactances_of_the_two_axes_witness :
  exists Xad,
    attr_after calculate_performance
      (fst (calculate_all (new_engine MP.default))) "Xad" = Some Xad /\
    0 <= Xad.
Proof.
  destruct reference_engine_assigned as [P A].
  destruct (returns_stage7 MP.default _ P
              (assigned_covers (assigned_after 11) (assigned_after 6) _
                 eq_refl A))
    as ([] & R & _).
  destruct (reactances_of_the_two_axes _ R)
    as (X1 & Xad & Xd & Xaq & Xq & Kad & Kaq & _ & E & _ & _ & _ & _ & _
        & H & _).
  exists Xad. split; [exact E | exact H].
Defined.

(** X9.  Stage 9, when it returns with a rated current that is not zero:
    the stray loss does not depend on the current (the factor
    [(IN / IN) ^ 2] is 1), the mechanical and stray losses are the
    fractions [pfwl] and [psl] of the rated power in watts, and the total
    loss is the copper and iron losses plus these two. *)
Theorem stray_and_mechanical_losses (e : engine) (IN : R) :
  snd (calculate_losses e) = inr tt ->
  attrs e "IN" = Some IN -> IN <> 0 ->
  let p := params e in
  exists pCu pFe pSum,
    attr_after calculate_losses e "pCu" = Some pCu /\
    attr_after calculate_losses e "pFe" = Some pFe /\
    attr_after calculate_losses e "pfw"
      = Some (p.(MP.pfwl) * p.(MP.PN) * 1000) /\
    attr_after calculate_losses e "ps"
      = Some (p.(MP.psl) * p.(MP.PN) * 1000) /\
    attr_after calculate_losses e "pSum" = Some pSum /\
    pSum = pCu + pFe + (p.(MP.pfwl) + p.(MP.psl)) * p.(MP.PN) * 1000.
Proof.
  intros R EI NI p. revert R. unfold attr_after.
  change (wp calculate_losses
            (fun e' r =>
               r = inr tt ->
               exists pCu pFe pSum,
                 attrs e' "pCu" = Some pCu /\ attrs e' "pFe" = Some pFe /\
                 attrs e' "pfw" = Some (p.(MP.pfwl) * p.(MP.PN) * 1000) /\
                 attrs e' "ps" = Some (p.(MP.psl) * p.(MP.PN) * 1000) /\
                 attrs e' "pSum" = Some pSum /\
                 pSum = pCu + pFe
                        + (p.(MP.pfwl) + p.(MP.psl)) * p.(MP.PN) * 1000) e).
  unfold calculate_losses. repeat wp_step_cases.
  all: intros R; try discriminate R.
  do 3 eexists.
  split; [reflexivity |]. split; [reflexivity |].
  assert (One : IN / IN = 1) by (field; exact NI).
  split; [cbn; f_equal; subst; reflexivity |].
  split; [cbn; f_equal; subst; fold p; rewrite One; ring |].
  split; [reflexivity |].
  subst. fold p. rewrite One. ring.
Qed.

Lemma stray_and_mechanical_losses_witness :
  exists IN,
    attrs (fst (calculate_all (new_engine MP.default))) "IN" = Some IN /\
    attr_after calculate_losses
      (fst (calculate_all (new_engine MP.default))) "ps"
    = Some (0.015 * 15.0 * 1000).
Proof.
  destruct reference_engine_assigned as [P A].
  destruct (returns_stage9 MP.default) with
    (e := fst (calculate_all (new_engine MP.default))) as ([] & R & _).
  - unfold valid_steel; cbn; lia.
  - exact P.
  - exact (assigned_covers (assigned_after 11) (assigned_after 8) _
             eq_refl A).
  - destruct reference_run as (e' & E & (v & Ev & Bv) & _).
    exists v. split; [rewrite E; exact Ev |].
    destruct (stray_and_mechanical_losses _ v R) as (a & b & c & T).
    + rewrite E. exact Ev.
    + lra.
    + rewrite P in T. apply T.
Defined.

(** X10.  Stage 11 assigns the actual efficiency before it reads anything
    but the total loss.  With a positive rated power and a total loss that
    is not negative, the efficiency in percent is positive and at most
    100, it is 100 only without loss, and it is the share of the output
    power in the input power. *)
Theorem actual_efficiency_in_range (e : engine) (pSum : R) :
  attrs e "pSum" = Some pSum -> 0 < (params e).(MP.PN) -> 0 <= pSum ->
  exists eta,
    attr_after calculate_actual_performance e "eta_actual" = Some eta /\
    0 < eta <= 100 /\ (eta = 100 <-> pSum = 0) /\
    eta * ((params e).(MP.PN) * 1000 + pSum)
    = 100 * ((params e).(MP.PN) * 1000).
Proof.
  intros E HP HS. after_call calculate_actual_performance.
  unfold calculate_actual_performance. repeat wp_step_cases.
  all: eexists; split;
    [project; cbn [String.eqb Ascii.eqb Bool.eqb]; reflexivity |].
  all: subst v.
  all: set (P := MP.PN (params e) * 1000) in *.
  all: assert (HP' : 0 < P) by (unfold P; lra).
  all: assert (Q : 0 < P / (P + pSum) <= 1)
         by (split; [apply Rdiv_lt_0_compat; lra | apply div_upper; lra]).
  all: assert (M : P / (P + pSum) * (P + pSum) = P) by (field; lra).
  all: repeat split; try lra; try nra.
Qed.

Lemma actual_efficiency_in_range_witness :
  exists eta,
    attr_after calculate_actual_performance
      (upd "pSum" 1000 (new_engine MP.default)) "eta_actual" = Some eta /\
    0 < eta <= 100.
Proof.
  destruct (actual_efficiency_in_range
              (upd "pSum" 1000 (new_engine MP.default)) 1000)
    as (eta & E & B & _).
  - reflexivity.
  - cbn; lra.
  - lra.
  - exists eta. split; [exact E | exact B].
Defined.

Lemma acos_cos_atan (x : R) :
  0 < cos (atan x) <= 1 /\ acos (cos (atan x)) = Rabs (atan x) /\
  0 <= Rabs (atan x) < PI / 2.
Proof.
  pose proof (atan_bound x) as [L U]. pose proof PI_RGT_0 as HPI.
  split; [split; [apply cos_gt_0; lra | apply COS_bound] |].
  unfold Rabs. destruct (Rcase_abs (atan x)) as [N | N].
  - split; [| lra]. rewrite <- cos_neg. apply acos_cos. lra.
  - split; [| lra]. apply acos_cos. lra.
Qed.

(** X11.  Stage 11, when it returns on an engine whose stator resistance
    is not zero: the actual power factor, the cosine of the angle whose
    tangent is [X1 / Rs], is positive and at most 1, and the load angle is
    the magnitude of that angle in degrees, from 0 to below 90. *)
Theorem actual_power_factor_in_range (e : engine) (Rs X1 : R) :
  snd (calculate_actual_performance e) = inr tt ->
  attrs e "Rs" = Some Rs -> attrs e "X1" = Some X1 -> Rs <> 0 ->
  exists c phi,
    attr_after calculate_actual_performance e "cosfi_actual" = Some c /\
    attr_after calculate_actual_performance e "phi_actual" = Some phi /\
    0 < c <= 1 /\
    phi = Rabs (atan (X1 / Rs)) * 180 / PI /\
    0 <= phi < 90.
Proof.
  intros R ER EX NR. revert R. unfold attr_after.
  change (wp calculate_actual_performance
            (fun e' r =>
               r = inr tt ->
               exists c phi,
                 attrs e' "cosfi_actual" = Some c /\
                 attrs e' "phi_actual" = Some phi /\
                 0 < c <= 1 /\
                 phi = Rabs (atan (X1 / Rs)) * 180 / PI /\
                 0 <= phi < 90) e).
  unfold calculate_actual_performance. repeat wp_step_cases.
  all: intros R; try discriminate R.
  do 2 eexists.
  split; [reflexivity |]. split; [reflexivity |].
  subst.
  destruct (acos_cos_atan (X1 / Rs)) as (C & A & B).
  pose proof PI_RGT_0 as HPI.
  split; [exact C |]. rewrite A. split; [reflexivity |].
  split.
  - apply Rmult_le_pos; [lra |]. left. apply Rinv_0_lt_compat. lra.
  - apply Rmult_lt_reg_r with PI; [lra |].
    replace (Rabs (atan (X1 / Rs)) * 180 / PI * PI)
      with (Rabs (atan (X1 / Rs)) * 180) by (field; lra).
    lra.
Qed.

Lemma actual_power_factor_in_range_witness :
  exists c,
    attr_after calculate_actual_performance
      (upd "bmN" 0.3 (upd "N" 78 (upd "IN" 25 (upd "E0" 200
         (upd "X1" 1 (upd "Rs" 0.2 (upd "pSum" 1000
            (new_engine MP.default))))))))
      "cosfi_actual" = Some c /\
    0 < c <= 1.
Proof.
  destruct (actual_power_factor_in_range
              (upd "bmN" 0.3 (upd "N" 78 (upd "IN" 25 (upd "E0" 200
                 (upd "X1" 1 (upd "Rs" 0.2 (upd "pSum" 1000
                    (new_engine MP.default))))))))
              0.2 1)
    as (c & phi & E & _ & B & _).
  - match goal with
    | |- snd (?c ?e) = _ => change (wp c (fun _ r => r = inr tt) e)
    end.
    unfold calculate_actual_performance. repeat wp_step. reflexivity.
  - reflexivity.
  - reflexivity.
  - lra.
  - exists c. split; [exact E | exact B].
Defined.

(** ** The pipeline *)

(** Saving the results assigns no attribute and prints nothing; when it
    raises, the [results] dictionary is as it was. *)
Lemma save_is_quiet e :
  wp save_complete_results
    (fun e' r =>
       params e' = params e /\ attrs e' = attrs e /\ stdout e' = stdout e /\
       forall ex, r = inl ex -> results e' = results e) e.
Proof.
  unfold save_complete_results, rounded, calculate_gap_factor.
  cbn [entries].
  repeat wp_step_cases.
  all: repeat split; try reflexivity; intros ex Hex; try reflexivity.
  all: discriminate Hex.
Qed.

(** How [calculate_all] ends, by the outcome of the stages and of the
    saving. *)
Lemma calculate_all_cases e :
  match run_stages 1 stages (announced e) with
  | (e1, inl ex) =>
      calculate_all e =
      (out (ErrorLine ex) e1, inr (false, ("计算错误: " ++ str ex)%string))
  | (e1, inr _) =>
      match save_complete_results (out Finished e1) with
      | (e2, inl ex) =>
          calculate_all e =
          (out (ErrorLine ex) e2,
           inr (false, ("计算错误: " ++ str ex)%string))
      | (e2, inr _) => calculate_all e = (e2, inr (true, "计算完成"%string))
      end
  end.
Proof.
  destruct (run_stages 1 stages (announced e)) as [e1 [ex | u]] eqn:Run.
  - exact (calculate_all_with_raises _ _ _ _ _ Run).
  - destruct u.
    destruct (save_complete_results (out Finished e1)) as [e2 [ex | u]]
      eqn:Save.
    + unfold calculate_all, calculate_all_with, try_except, bind,
        self_params.
      change (print (Banner (SteelDataTables.get_steel_name
                               (MP.steel_type (params e)))) e)
        with (announced e, @inr exn unit tt).
      cbv beta iota. rewrite Run.
      change (print Finished e1) with (out Finished e1, @inr exn unit tt).
      cbv beta iota. rewrite Save. reflexivity.
    + destruct u. exact (calculate_all_with_returns _ _ _ _ _ Run Save).
Qed.

(** X12.  On any engine, whatever it holds and whatever happens,
    [calculate_all] raises nothing: it returns a flag and a message.  It
    keeps the parameter record; it only appends to the console, first the
    banner with the name of the steel grade; it removes no attribute; and
    unless it reports success the [results] dictionary is as it was. *)
Theorem calculate_all_keeps_the_engine (e : engine) :
  let e' := fst (calculate_all e) in
  (exists ok msg, snd (calculate_all e) = inr (ok, msg) /\
     (ok = false -> results e' = results e)) /\
  params e' = params e /\
  (exists out,
     stdout e' =
     (stdout e
      ++ Banner (SteelDataTables.get_steel_name (params e).(MP.steel_type))
         :: out)%list) /\
  (forall n, attrs e n <> None -> attrs e' n <> None).
Proof.
  cbv zeta. pose proof (calculate_all_cases e) as C.
  destruct (frame_run_stages stages frame_stages 1 (announced e))
    as (P1 & R1 & (o1 & O1) & A1).
  assert (O0 : stdout (announced e) =
               (stdout e
                ++ [Banner (SteelDataTables.get_steel_name
                              (MP.steel_type (params e)))])%list)
    by reflexivity.
  rewrite O0 in O1. clear O0.
  change (params (announced e)) with (params e) in P1.
  change (results (announced e)) with (results e) in R1.
  change (attrs (announced e)) with (attrs e) in A1.
  destruct (run_stages 1 stages (announced e)) as [e1 [ex | u]];
    cbn [fst snd] in *.
  - rewrite C. cbn [fst snd].
    split; [exists false; eexists; split; [reflexivity | intros _; exact R1] |].
    split; [exact P1 |].
    split; [| exact A1].
    exists (o1 ++ [ErrorLine ex])%list. rewrite stdout_out, O1.
    now rewrite <- !app_assoc.
  - pose proof (save_is_quiet (out Finished e1)) as Q. unfold wp in Q.
    destruct Q as (P2 & A2 & O2 & R2).
    destruct (save_complete_results (out Finished e1)) as [e2 [ex | u']];
      cbn [fst snd] in *; rewrite C; cbn [fst snd].
    + split.
      { exists false; eexists; split; [reflexivity | intros _].
        rewrite results_out, (R2 ex eq_refl). exact R1. }
      split; [rewrite params_out, P2; exact P1 |].
      split; [| intros n Hn; rewrite attrs_out, A2; exact (A1 n Hn)].
      exists (o1 ++ [Finished; ErrorLine ex])%list.
      rewrite stdout_out, O2, stdout_out, O1. now rewrite <- !app_assoc.
    + split; [exists true; eexists; split; [reflexivity | discriminate] |].
      split; [rewrite P2; exact P1 |].
      split; [| intros n Hn; rewrite A2; exact (A1 n Hn)].
      exists (o1 ++ [Finished])%list.
      rewrite O2, stdout_out, O1. now rewrite <- !app_assoc.
Qed.

Lemma has_disjoint (W1 W2 : list string) (n : string) :
  forallb (fun k => negb (has W2 k)) W1 = true ->
  has W1 n = true -> has W2 n = false.
Proof.
  intros D H. unfold has in H at 1. apply existsb_exists in H.
  destruct H as (k & Hk & E). apply String.eqb_eq in E. subst k.
  rewrite forallb_forall in D. specialize (D n Hk).
  now apply negb_true_iff in D.
Qed.

Lemma stage_names_disjoint i j Wi Wj :
  i <> j ->
  nth_error stage_names i = Some Wi -> nth_error stage_names j = Some Wj ->
  forallb (fun k => negb (has Wj k)) Wi = true.
Proof.
  intros N Hi Hj.
  assert (Li : (i < List.length stage_names)%nat)
    by (apply nth_error_Some; rewrite Hi; discriminate).
  assert (Lj : (j < List.length stage_names)%nat)
    by (apply nth_error_Some; rewrite Hj; discriminate).
  cbn [List.length stage_names] in Li, Lj.
  do 11 (try (destruct i as [| i])); try lia.
  all: do 11 (try (destruct j as [| j])); try lia.
  all: cbn [nth_error stage_names] in Hi, Hj.
  all: injection Hi as <-; injection Hj as <-.
  all: vm_compute; reflexivity.
Qed.

(** X13.  The eleven stages write disjoint sets of attributes: an
    attribute that one stage assigns is never assigned, changed or removed
    by another stage, whether that one returns or raises. *)
Theorem stages_do_not_overwrite (i j : nat) (W : list string)
    (c : M unit) (n : string) (e : engine) :
  i <> j ->
  nth_error stage_names i = Some W -> has W n = true ->
  nth_error stages j = Some c ->
  modifies W (nth i stages (ret tt)) /\
  attrs (fst (c e)) n = attrs e n.
Proof.
  intros N Hi Hn Hj.
  assert (Lj : (j < List.length stages)%nat)
    by (apply nth_error_Some; rewrite Hj; discriminate).
  destruct (nth_error stage_names j) as [Wj |] eqn:Hj';
    [| apply nth_error_None in Hj'; cbn in Hj', Lj; lia].
  split.
  - assert (Li : (i < List.length stage_names)%nat)
      by (apply nth_error_Some; rewrite Hi; discriminate).
    apply (modifies_stage i); [exact Hi |].
    apply nth_error_nth'. exact Li.
  - apply (proj2 (modifies_stage j Wj c Hj' Hj e)).
    exact (has_disjoint W Wj n (stage_names_disjoint i j W Wj N Hi Hj') Hn).
Qed.

Lemma stages_do_not_overwrite_witness :
  attrs (fst (calculate_losses (upd "IN" 25 (new_engine MP.default)))) "IN"
  = Some 25.
Proof.
  exact (proj2 (stages_do_not_overwrite 0 8 _ calculate_losses "IN"
                  (upd "IN" 25 (new_engine MP.default))
                  ltac:(discriminate) eq_refl eq_refl eq_refl)).
Defined.

Lemma distinct_NoDup (l : list string) : distinct l = true -> NoDup l.
Proof.
  induction l as [| x l IH]; intros H; [constructor |].
  cbn [distinct] in H. apply andb_true_iff in H. destruct H as [N D].
  constructor; [| exact (IH D)].
  intros I. apply negb_true_iff in N. unfold has in N.
  assert (T : existsb (String.eqb x) l = true).
  { apply existsb_exists. exists x. split; [exact I | apply String.eqb_refl]. }
  congruence.
Qed.

(** When the saving returns, the dictionary it stores has the ten sections
    in their order, with these numbers of entries and no key twice in a
    section. *)
Lemma save_shape e :
  wp save_complete_results
    (fun e' r =>
       r = inr tt ->
       map fst (results e') =
         [ "基本参数"; "绕组参数"; "几何参数"; "磁路参数"; "永磁体参数";
           "阻抗参数"; "材料质量"; "损耗参数"; "性能参数";
           "实际性能参数" ]%string /\
       map (fun s => List.length (snd s)) (results e') =
         [5; 7; 10; 11; 7; 10; 4; 5; 3; 10]%nat /\
       Forall (fun s => NoDup (map fst (snd s))) (results e')) e.
Proof.
  unfold save_complete_results, rounded, calculate_gap_factor.
  cbn [entries].
  repeat wp_step_cases.
  all: intros R; try discriminate R.
  unfold wp, set_results. cbn [fst results map snd List.length].
  split; [reflexivity |]. split; [reflexivity |].
  repeat (apply Forall_cons;
          [cbn [map fst snd]; apply distinct_NoDup; vm_compute; reflexivity |]).
  apply Forall_nil.
Qed.

(** The outcome of a run does not depend on what the engine held
    before. *)
Lemma outcome_as_on_fresh_engine e :
  snd (calculate_all e) = snd (calculate_all (new_engine (params e))).
Proof.
  assert (Ha : agree (assigned_after 0) false e (new_engine (params e))).
  { repeat split; auto; discriminate. }
  destruct (indep_try_block e (new_engine (params e)) Ha) as [E _].
  unfold calculate_all. rewrite !calculate_all_with_eq.
  destruct (try_block stages save_complete_results e) as [e1 r1].
  destruct (try_block stages save_complete_results (new_engine (params e)))
    as [e2 r2].
  cbn [fst snd] in *. subst r2. destruct r1; reflexivity.
Qed.

(** X14.  Whenever [calculate_all] reports success, whatever the engine
    held before: the message is the one of a completed run; the steel
    grade of the record is one of the five (a run with an undefined grade
    never reports success); every attribute of every stage is assigned;
    the console ends with the closing line; and [results] holds the ten
    sections in their order, with 5, 7, 10, 11, 7, 10, 4, 5, 3 and 10
    entries and no key twice in a section. *)
Theorem successful_run_shape (e : engine) (msg : string) :
  snd (calculate_all e) = inr (true, msg) ->
  let e' := fst (calculate_all e) in
  msg = "计算完成"%string /\
  valid_steel (params e).(MP.steel_type) /\
  assigned (List.concat stage_names) e' /\
  (exists out, stdout e' = (out ++ [Finished])%list) /\
  map fst (results e') =
    [ "基本参数"; "绕组参数"; "几何参数"; "磁路参数"; "永磁体参数";
      "阻抗参数"; "材料质量"; "损耗参数"; "性能参数";
      "实际性能参数" ]%string /\
  map (fun s => List.length (snd s)) (results e') =
    [5; 7; 10; 11; 7; 10; 4; 5; 3; 10]%nat /\
  Forall (fun s => NoDup (map fst (snd s))) (results e').
Proof.
  intros Ok. cbv zeta.
  assert (V : valid_steel (params e).(MP.steel_type)).
  { unfold valid_steel.
    destruct (Z_le_dec 1 (MP.steel_type (params e))) as [L | L];
      destruct (Z_le_dec (MP.steel_type (params e)) 5) as [U | U];
      [split; assumption | exfalso ..].
    all: assert (N : ~ valid_steel (MP.steel_type (params e)))
        by (unfold valid_steel; lia).
    all: destruct (undefined_grade_run (params e) N) as (F & _).
    all: rewrite outcome_as_on_fresh_engine, F in Ok; discriminate Ok. }
  pose proof (calculate_all_cases e) as C.
  destruct (returns_run_stages (params e) V (announced e) eq_refl)
    as ([] & R1 & P1 & A1); [intros n Hn; discriminate |].
  destruct (run_stages 1 stages (announced e)) as [e1 r1].
  cbn [fst snd] in *. subst r1.
  destruct (returns_save (params e) (out Finished e1) P1 A1)
    as ([] & R2 & _).
  pose proof (save_is_quiet (out Finished e1)) as Q.
  pose proof (save_shape (out Finished e1)) as S.
  unfold wp in Q, S.
  destruct (save_complete_results (out Finished e1)) as [e2 r2].
  cbn [fst snd] in *. subst r2. rewrite C in Ok |- *. cbn [fst snd] in *.
  destruct Q as (_ & A2 & O2 & _). destruct (S eq_refl) as (S1 & S2 & S3).
  split; [congruence |]. split; [exact V |].
  split; [intros n Hn; rewrite A2; exact (A1 n Hn) |].
  split; [exists (stdout e1); rewrite O2; reflexivity |].
  split; [exact S1 |]. split; [exact S2 | exact S3].
Qed.

Lemma successful_run_shape_witness :
  snd (calculate_all (new_engine MP.default))
  = inr (true, "计算完成"%string) /\
  map (fun s => List.length (snd s))
    (results (fst (calculate_all (new_engine MP.default)))) =
    [5; 7; 10; 11; 7; 10; 4; 5; 3; 10]%nat.
Proof.
  assert (Ok : snd (calculate_all (new_engine MP.default))
               = inr (true, "计算完成"%string)).
  { apply calculate_all_succeeds. unfold valid_steel; cbn; lia. }
  split; [exact Ok |].
  exact (proj1 (proj2 (proj2 (proj2 (proj2 (proj2
           (successful_run_shape (new_engine MP.default) _ Ok))))))).
Defined.

(** The first read of an attribute on a fresh engine. *)
Ltac first_read :=
  lazymatch goal with
  | |- snd (?c ?e) = ?r => change (wp c (fun _ r' => r' = r) e)
  end;
  repeat lazymatch goal with
         | |- wp (bind (self _) _) _ _ =>
             apply wp_bind_self_unset; [reflexivity |]
         | |- wp (bind (for_range _ _ _) _) _ _ =>
             apply wp_bind_for_range; unfold loop_body
         | _ => wp_step
         end;
  try reflexivity.

(** X15.  A stage from the fifth on, and the saving, cannot be called on
    an engine on which nothing has run: each raises [AttributeError] for
    the first attribute it reads (for stage 5 once the start value of the
    loop is computed, for stage 6 by the winding type). *)
Theorem stages_need_their_predecessors (p : MotorParameters) :
  let e := new_engine p in
  (p.(MP.SIGMA0) * p.(MP.hM) + p.(MP.g) <> 0 ->
   snd (calculate_no_load_magnetic_circuit e)
   = inl (AttributeError "FAIM")) /\
  (is_in p.(MP.LE) [1; 2; 3]%Z = false ->
   snd (calculate_impedances e) = inl (AttributeError "bt1")) /\
  (is_in p.(MP.LE) [1; 2; 3]%Z = true -> IZR p.(MP.p) <> 0 ->
   snd (calculate_impedances e) = inl (AttributeError "hs1")) /\
  snd (calculate_performance e) = inl (AttributeError "N") /\
  snd (calculate_material_weights e) = inl (AttributeError "Ls") /\
  snd (calculate_losses e) = inl (AttributeError "IN") /\
  snd (calculate_starting_characteristics e) = inl (AttributeError "X1") /\
  snd (calculate_actual_performance e) = inl (AttributeError "pSum") /\
  snd (save_complete_results e) = inl (AttributeError "nN").
Proof.
  cbv zeta.
  refine (conj _ (conj _ (conj _ (conj _ (conj _ (conj _ (conj _
            (conj _ _)))))))).
  - intros _. unfold calculate_no_load_magnetic_circuit. first_read.
  - intros L. unfold calculate_impedances.
    lazymatch goal with
    | |- snd (?c ?e) = ?r => change (wp c (fun _ r' => r' = r) e)
    end.
    wp_step. cbv zeta. cbn [params new_engine]. rewrite L.
    apply wp_bind_assoc. apply wp_bind_self_unset; reflexivity.
  - intros L _. unfold calculate_impedances.
    lazymatch goal with
    | |- snd (?c ?e) = ?r => change (wp c (fun _ r' => r' = r) e)
    end.
    wp_step. cbv zeta. cbn [params new_engine]. rewrite L.
    destruct (MP.p p =? 1)%Z; [| destruct (is_in (MP.p p) [2; 3]%Z)].
    all: wp_step; apply wp_bind_self_unset; reflexivity.
  - unfold calculate_performance. first_read.
  - unfold calculate_material_weights. first_read.
  - unfold calculate_losses. first_read.
  - unfold calculate_starting_characteristics. first_read.
  - unfold calculate_actual_performance. first_read.
  - unfold save_complete_results, rounded. cbn [entries]. first_read.
Qed.

(** X16.  Stage 10 on a star-connected and on a delta-connected machine
    (any connection string whose upper case is not Y) that agree on
    voltage, phases, pole pairs, frequency and on the resistances,
    reactances, rated current and rated torque the stage reads: when the
    stage returns, the starting current in delta is [sqrt 3] times and the
    starting torque 3 times that in star. *)
Theorem star_delta_starting (e1 e2 : engine) :
  is_Y (params e1).(MP.wgco) = true ->
  is_Y (params e2).(MP.wgco) = false ->
  (params e1).(MP.UN) = (params e2).(MP.UN) ->
  (params e1).(MP.m) = (params e2).(MP.m) ->
  (params e1).(MP.p) = (params e2).(MP.p) ->
  (params e1).(MP.f) = (params e2).(MP.f) ->
  (forall n, has ["X1"; "R2"; "X2"; "Rs"; "IN"; "TN"]%string n = true ->
             attrs e1 n = attrs e2 n) ->
  snd (calculate_starting_characteristics e1) = inr tt ->
  exists I T,
    attr_after calculate_starting_characteristics e1 "Ist_calc" = Some I /\
    attr_after calculate_starting_characteristics e2 "Ist_calc"
      = Some (sqrt 3 * I) /\
    attr_after calculate_starting_characteristics e1 "Tst_calc" = Some T /\
    attr_after calculate_starting_characteristics e2 "Tst_calc"
      = Some (3 * T).
Proof.
  intros Y1 Y2 HU Hm Hp Hf Ha R. revert R. unfold attr_after.
  change (wp calculate_starting_characteristics
            (fun e' r =>
               r = inr tt ->
               exists I T,
                 attrs e' "Ist_calc" = Some I /\
                 attrs (fst (calculate_starting_characteristics e2))
                   "Ist_calc" = Some (sqrt 3 * I) /\
                 attrs e' "Tst_calc" = Some T /\
                 attrs (fst (calculate_starting_characteristics e2))
                   "Tst_calc" = Some (3 * T)) e1).
  unfold calculate_starting_characteristics at 1. repeat wp_step_cases.
  all: intros R; try discriminate R.
  do 2 eexists. split; [reflexivity |].
  assert (S3 : sqrt 3 * / sqrt 3 = 1)
    by (pose proof sqrt3_bounds; field; lra).
  assert (Q : forall P : engine -> Prop,
            wp calculate_starting_characteristics (fun e' _ => P e') e2 ->
            P (fst (calculate_starting_characteristics e2)))
    by (intros P H; exact H).
  match goal with
  | |- ?A /\ ?B /\ ?C =>
      enough (A /\ C) as (HA & HC) by (split; [exact HA | split; [reflexivity | exact HC]])
  end.
  apply (Q (fun e' => attrs e' "Ist_calc" = Some _ /\
                      attrs e' "Tst_calc" = Some _)).
  unfold calculate_starting_characteristics.
  rewrite ?attrs_upd in *. cbn [String.eqb Ascii.eqb Bool.eqb] in *.
  repeat match goal with
         | H : attrs e1 ?n = Some _ |- _ => rewrite (Ha n eq_refl) in H
         end.
  repeat wp_step.
  assert (E : v2 = sqrt 3 * v).
  { subst v2 v. rewrite Y1, Y2, HU. unfold Rdiv.
    rewrite <- (Rmult_1_l (MP.UN (params e2))) at 1. rewrite <- S3. ring. }
  split; [cbn; f_equal; exact E |].
  cbn. f_equal. subst v4 v1. rewrite E, Hm, Hp, Hf.
  assert (T : sqrt 3 * sqrt 3 = 3) by (apply sqrt_sqrt; lra).
  replace ((sqrt 3 * v) ^ 2) with (3 * v ^ 2)
    by (rewrite <- T at 1; ring).
  unfold Rdiv. ring.
Qed.

Lemma star_delta_starting_witness :
  exists I,
    attr_after calculate_starting_characteristics
      (upd "TN" 95 (upd "IN" 25 (upd "Rs" 0.2 (upd "X2" 1 (upd "R2" 0.3
         (upd "X1" 1 (new_engine MP.default)))))))
      "Ist_calc" = Some I /\
    attr_after calculate_starting_characteristics
      (upd "TN" 95 (upd "IN" 25 (upd "Rs" 0.2 (upd "X2" 1 (upd "R2" 0.3
         (upd "X1" 1 (new_engine delta_machine)))))))
      "Ist_calc" = Some (sqrt 3 * I).
Proof.
  destruct (star_delta_starting
              (upd "TN" 95 (upd "IN" 25 (upd "Rs" 0.2 (upd "X2" 1
                 (upd "R2" 0.3 (upd "X1" 1 (new_engine MP.default)))))))
              (upd "TN" 95 (upd "IN" 25 (upd "Rs" 0.2 (upd "X2" 1
                 (upd "R2" 0.3 (upd "X1" 1 (new_engine delta_machine))))))))
    as (I & T & H1 & H2 & _).
  - reflexivity.
  - reflexivity.
  - cbn. lra.
  - reflexivity.
  - reflexivity.
  - reflexivity.
  - intros n _. reflexivity.
  - match goal with
    | |- snd (?c ?e) = _ => change (wp c (fun _ r => r = inr tt) e)
    end.
    unfold calculate_starting_characteristics. repeat wp_step. reflexivity.
  - exists I. split; [exact H1 | exact H2].
Defined.
